(** * concept_vqa: the ensembling tool ([ensemble.py])

    A shallow embedding of [ensemble.py]: catalog building from the
    checkpoint file names, the per-model inference pass that feeds the
    confidence buffer and the vote buffer, the finalisation of both
    results and the writing of the two JSON files, followed by the
    properties of the ensemble that the design document states.

    Conventions.
    - Python [str] is modelled by [string] (code points below 256).
    - Python [int] is [Z]; list positions and tensor indices are [nat].
    - A raised exception is the [Raise] branch of [result].
    - Scores are kept abstract behind [ScoreOps], with two instances:
      IEEE binary64 ([FloatScore]), the dtype of [conf_buff], into which
      the float32 scores of a model convert exactly, and exact rationals
      ([QScore]), for what the sums would be without rounding.
    - [torch.max(t, dim=1)], numpy's in-place slice addition,
      [Counter.most_common], [sorted], [json.dump] and [int] are library
      code; they are written out here following their documented
      behaviour (CPython 3.6, where [dict] keeps insertion order). *)

From Stdlib Require Import List String Ascii ZArith QArith Qabs Bool Arith Lia.
From Stdlib Require Import Permutation DecimalString Floats.
Import ListNotations.

Local Open Scope string_scope.
Local Open Scope nat_scope.
Local Open Scope list_scope.

Infix "+++" := String.append (at level 60, right associativity).

(** ** Exceptions and the error monad *)

Inductive exn : Type :=
| UnboundLocalError (var : string)
| ValueError (msg : string)
| AssertionError
| IndexError (msg : string)
| RuntimeError (msg : string)
| OSError (msg : string).

Inductive result (A : Type) : Type :=
| Ok (a : A)
| Raise (e : exn).

Arguments Ok {A} a.
Arguments Raise {A} e.

Definition bind {A B : Type} (c : result A) (k : A -> result B) : result B :=
  match c with
  | Ok a => k a
  | Raise e => Raise e
  end.

Notation "x <- c ;; k" := (bind c (fun x => k))
  (at level 61, c at next level, right associativity).

Fixpoint mapM {A B : Type} (f : A -> result B) (l : list A) : result (list B) :=
  match l with
  | [] => Ok []
  | x :: l' => y <- f x ;; ys <- mapM f l' ;; Ok (y :: ys)
  end.

Fixpoint foldM {A B : Type} (f : A -> B -> result A) (a : A) (l : list B)
  : result A :=
  match l with
  | [] => Ok a
  | x :: l' => a' <- f a x ;; foldM f a' l'
  end.

(** [l[i]] on a Python list. *)
Definition list_get {A : Type} (l : list A) (i : nat) : result A :=
  match nth_error l i with
  | Some x => Ok x
  | None => Raise (IndexError "list index out of range")
  end.

(** [l[i] = x] on a Python list, for a position known to exist. *)
Fixpoint list_set {A : Type} (l : list A) (i : nat) (x : A) : list A :=
  match l, i with
  | [], _ => []
  | _ :: l', O => x :: l'
  | y :: l', S i' => y :: list_set l' i' x
  end.

(** ** Strings *)

Definition dquote : ascii := "034"%char.
Definition squote : ascii := "'"%char.
Definition backslash : ascii := "\"%char.

Definition chars (s : string) : list ascii := list_ascii_of_string s.
Definition str (cs : list ascii) : string := string_of_list_ascii cs.

(** [s.endswith(suffix)] *)
Definition endswith (s suffix : string) : bool :=
  let n := String.length s in
  let m := String.length suffix in
  (m <=? n) && String.eqb (substring (n - m) m s) suffix.

(** [s.split(sep)] for a one-character separator: always at least one
    field. *)
Fixpoint split_on (sep : ascii) (cs : list ascii) : list (list ascii) :=
  match cs with
  | [] => [[]]
  | c :: cs' =>
      if Ascii.eqb c sep then [] :: split_on sep cs'
      else match split_on sep cs' with
           | [] => [[c]]
           | f :: fs => (c :: f) :: fs
           end
  end.

Definition split (s : string) (sep : ascii) : list string :=
  map str (split_on sep (chars s)).

(** Drops everything up to and including the first [sep], when there is
    one; used on the reversed string, this removes the last field. *)
Fixpoint drop_through (sep : ascii) (cs : list ascii) : option (list ascii) :=
  match cs with
  | [] => None
  | c :: cs' => if Ascii.eqb c sep then Some cs' else drop_through sep cs'
  end.

Fixpoint rsplit_head_rev (sep : ascii) (maxsplit : nat) (rcs : list ascii)
  : list ascii :=
  match maxsplit with
  | O => rcs
  | S k => match drop_through sep rcs with
           | Some rest => rsplit_head_rev sep k rest
           | None => rcs
           end
  end.

(** [s.rsplit(sep, maxsplit)[0]] *)
Definition rsplit_head (s : string) (sep : ascii) (maxsplit : nat) : string :=
  str (rev (rsplit_head_rev sep maxsplit (rev (chars s)))).


Definition hex_digit (n : nat) : ascii :=
  nth n (chars "0123456789abcdef") "0"%char.

Definition hex2 (n : nat) : list ascii :=
  [hex_digit (n / 16); hex_digit (n mod 16)].

(** [str(n)] for an [int] *)
Definition py_str_int (z : Z) : string := NilZero.string_of_int (Z.to_int z).

(** [repr(s)] for a [str] *)
Definition repr_char (q c : ascii) : list ascii :=
  let n := nat_of_ascii c in
  if Ascii.eqb c backslash then [backslash; backslash]
  else if Ascii.eqb c q then [backslash; q]
  else if n =? 9 then [backslash; "t"%char]
  else if n =? 10 then [backslash; "n"%char]
  else if n =? 13 then [backslash; "r"%char]
  else if (n <? 32) || ((127 <=? n) && (n <=? 160)) || (n =? 173)
       then backslash :: "x"%char :: hex2 n
  else [c].

Definition py_repr (s : string) : string :=
  let cs := chars s in
  let q := if existsb (Ascii.eqb squote) cs && negb (existsb (Ascii.eqb dquote) cs)
           then dquote else squote in
  str (q :: flat_map (repr_char q) cs ++ [q]).

(** *** [int(text)] *)

Definition is_space (c : ascii) : bool :=
  let n := nat_of_ascii c in
  ((9 <=? n) && (n <=? 13)) || ((28 <=? n) && (n <=? 32))
  || (n =? 133) || (n =? 160).

Definition is_digit (c : ascii) : bool :=
  let n := nat_of_ascii c in (48 <=? n) && (n <=? 57).

Definition digit_value (c : ascii) : Z := Z.of_nat (nat_of_ascii c - 48).

Fixpoint lstrip (cs : list ascii) : list ascii :=
  match cs with
  | [] => []
  | c :: cs' => if is_space c then lstrip cs' else cs
  end.

Definition strip (cs : list ascii) : list ascii :=
  rev (lstrip (rev (lstrip cs))).

(** Decimal digits, where a single underscore may stand between two
    digits. *)
Fixpoint digits_value (acc : Z) (after_digit : bool) (cs : list ascii)
  : option Z :=
  match cs with
  | [] => if after_digit then Some acc else None
  | c :: cs' =>
      if is_digit c then digits_value (10 * acc + digit_value c)%Z true cs'
      else if Ascii.eqb c "_"%char && after_digit then
             match cs' with
             | [] => None
             | _ => digits_value acc false cs'
             end
      else None
  end.

Definition parse_int (text : string) : option Z :=
  match strip (chars text) with
  | c :: ds =>
      if Ascii.eqb c "+"%char then digits_value 0%Z false ds
      else if Ascii.eqb c "-"%char
           then option_map Z.opp (digits_value 0%Z false ds)
      else digits_value 0%Z false (c :: ds)
  | [] => None
  end.

Definition int_of_str (text : string) : result Z :=
  match parse_int text with
  | Some z => Ok z
  | None =>
      Raise (ValueError ("invalid literal for int() with base 10: "
                          +++ py_repr text))
  end.

(** [os.path.join(a, b)] (posix) *)
Definition os_path_join (a b : string) : string :=
  if prefix "/" b then b
  else if String.eqb a EmptyString || endswith a "/" then a +++ b
  else a +++ "/" +++ b.

(** ** Catalog building (lines 34-45) *)

Record entry : Type := mk_entry {
  model_group_name : string;
  model_name : string;
  model_acc : Z;
  cp_path : string }.

Definition unpack_error (got : nat) : exn :=
  ValueError ("not enough values to unpack (expected at least 3, got "
              +++ py_str_int (Z.of_nat got) +++ ")").

(** The body of the loop over [model_files] (lines 38-42). *)
Definition parse_checkpoint (model_dir cp_file : string) : result entry :=
  let file_name := rsplit_head cp_file "."%char 2 in
  match split file_name "-"%char with
  | group :: name :: acc_text :: _ =>
      acc <- int_of_str acc_text ;;
      Ok (mk_entry group name acc (os_path_join model_dir cp_file))
  | fields => Raise (unpack_error (List.length fields))
  end.

(** [sorted(model_info, key=itemgetter(0))]: stable, by group name. *)
Fixpoint insert_by_group (e : entry) (l : list entry) : list entry :=
  match l with
  | [] => [e]
  | x :: l' =>
      if String.leb (model_group_name e) (model_group_name x)
      then e :: x :: l'
      else x :: insert_by_group e l'
  end.

Definition sorted_by_group (l : list entry) : list entry :=
  fold_right insert_by_group [] l.

Definition is_checkpoint (f : string) : bool := endswith f ".pth.tar".

Definition build_catalog (model_dir : string) (files : list string)
  : result (list entry) :=
  let model_files := filter is_checkpoint files in
  model_info <- mapM (parse_checkpoint model_dir) model_files ;;
  let model_info := sorted_by_group model_info in
  if 1 <? List.length model_info then Ok model_info else Raise AssertionError.

(** ** Scores *)

(** What the pipeline needs from the score dtype: the zero of
    [np.zeros], the [+=] of the confidence buffer, the [<=] test and the
    NaN test of the [max] reduction. *)
Class ScoreOps : Type := {
  score : Type;
  s_zero : score;
  s_add : score -> score -> score;
  s_le : score -> score -> bool;
  s_isnan : score -> bool }.

(** Exact scores. *)
Definition QScore : ScoreOps := {|
  score := Q;
  s_zero := 0%Q;
  s_add := Qplus;
  s_le := Qle_bool;
  s_isnan := fun _ => false |}.

(** IEEE 754 binary64, the dtype of [conf_buff] ([np.zeros] default); a
    float32 score converts to it exactly. *)
Definition FloatScore : ScoreOps := {|
  score := float;
  s_zero := 0%float;
  s_add := PrimFloat.add;
  s_le := PrimFloat.leb;
  s_isnan := PrimFloat.is_nan |}.

(** The rational that a finite binary64 value stands for. *)
Definition exact_value (f : float) : option Q :=
  match Prim2SF f with
  | S754_zero _ => Some 0%Q
  | S754_finite s m e =>
      Some (Qred (inject_Z (if s then Z.neg m else Z.pos m) * Qpower 2 e))
  | S754_infinity _ | S754_nan => None
  end.

(** What [<=] is on a score dtype, NaN included: transitive, and total
    on the values that are not NaN. *)
Class OrderedScore (S : ScoreOps) : Prop := {
  o_le_total : forall a b : score,
      s_isnan a = false -> s_isnan b = false ->
      s_le a b = true \/ s_le b a = true;
  o_le_trans : forall a b c : score,
      s_le a b = true -> s_le b c = true -> s_le a c = true }.

(** What [+=] is on a buffer that starts at zero: the first two
    additions can be exchanged. *)
Class SwapScore (S : ScoreOps) : Prop := {
  s_add_zero_swap : forall a b : score,
      s_add (s_add s_zero a) b = s_add (s_add s_zero b) a }.

(** The laws of an exact score dtype: addition is associative and
    commutative, [<=] is a total preorder and no value is NaN. *)
Class ExactScore (S : ScoreOps) : Prop := {
  s_add_comm : forall a b : score, s_add a b = s_add b a;
  s_add_assoc : forall a b c : score, s_add (s_add a b) c = s_add a (s_add b c);
  s_le_total : forall a b : score, s_le a b = true \/ s_le b a = true;
  s_le_trans : forall a b c : score,
      s_le a b = true -> s_le b c = true -> s_le a c = true;
  s_no_nan : forall a : score, s_isnan a = false }.

(** ** The vote tally: a [dict] from answer to weight, in insertion order *)

Definition tally : Type := list (string * Z).

(** [v.get(k, d)] *)
Fixpoint dict_get (v : tally) (k : string) (d : Z) : Z :=
  match v with
  | [] => d
  | (k', x) :: v' => if String.eqb k' k then x else dict_get v' k d
  end.

(** [v[k] = x]: an existing key keeps its place, a new key goes last. *)
Fixpoint dict_set (v : tally) (k : string) (x : Z) : tally :=
  match v with
  | [] => [(k, x)]
  | (k', x') :: v' =>
      if String.eqb k' k then (k', x) :: v' else (k', x') :: dict_set v' k x
  end.

(** Lines 84-85 for one sample. *)
Definition cast_vote (acc : Z) (v : tally) (ans : string) : tally :=
  dict_set v ans (acc + dict_get v ans 0)%Z.

(** [max(items, key=itemgetter(1))]: a later item replaces the current
    one only when its weight is strictly greater. *)
Fixpoint max_by_weight (best : string * Z) (items : tally) : string * Z :=
  match items with
  | [] => best
  | it :: items' =>
      if (snd best <? snd it)%Z then max_by_weight it items'
      else max_by_weight best items'
  end.

(** [Counter(v).most_common(1)], which is [heapq.nlargest(1, ...)] and so
    [max] over the items in dictionary order. *)
Definition most_common_1 (v : tally) : list (string * Z) :=
  match v with
  | [] => []
  | it :: v' => [max_by_weight it v']
  end.

(** [Counter(v).most_common(1)[0][0]] (line 94). *)
Definition top_vote (v : tally) : result string :=
  match most_common_1 v with
  | (ans, _) :: _ => Ok ans
  | [] => Raise (IndexError "list index out of range")
  end.

Section Pipeline.

Context {SO : ScoreOps}.

Definition row : Type := list score.

(** ** [torch.max(t, dim=1)]: the index of the maximum of each row *)

(** The reduction loop: [value] replaces the running maximum when
    [not (value <= max)]; the scan stops once the maximum is NaN. *)
Fixpoint max_scan (best_i : nat) (best : score) (i : nat) (r : row) : nat :=
  match r with
  | [] => best_i
  | value :: r' =>
      if s_isnan best then best_i
      else if negb (s_le value best) then max_scan i value (S i) r'
      else max_scan best_i best (S i) r'
  end.

Definition argmax (r : row) : result nat :=
  match r with
  | [] => Raise (RuntimeError "max(): Expected reduction dim 1 to have non-zero size.")
  | value :: r' => Ok (max_scan 0 value 1 r')
  end.

Definition torch_max_dim1 (t : list row) : result (list nat) := mapM argmax t.

(** ** The two buffers *)

Record buffers : Type := mk_buffers {
  conf_buff : list row;
  vote_buff : list tally }.

(** [np.zeros((n, v))] and [[{} for i in range(n)]] (lines 50-51): the
    comprehension builds [n] distinct dictionaries. *)
Definition init_buffers (n v : nat) : buffers :=
  mk_buffers (repeat (repeat s_zero v) n) (repeat [] n).

(** Elementwise [x += r] on one row. *)
Fixpoint radd (x r : row) : row :=
  match x, r with
  | a :: x', b :: r' => s_add a b :: radd x' r'
  | _, _ => x
  end.

(** numpy broadcasting of a one-column row to [v] columns. *)
Definition bcast (v : nat) (r : row) : row :=
  match r with
  | [s] => repeat s v
  | _ => r
  end.

(** [conf[start:start+len(rows)] += rows], shapes already checked. *)
Fixpoint iadd_at (conf : list row) (start : nat) (rows : list row) : list row :=
  match conf with
  | [] => []
  | c :: conf' =>
      match start with
      | S s => c :: iadd_at conf' s rows
      | O => match rows with
             | [] => conf
             | r :: rows' => radd c r :: iadd_at conf' 0 rows'
             end
      end
  end.

(** Line 80.  The slice has [min(bs, n - start)] rows; numpy accepts the
    in-place addition when each axis of [sc] has the size of the slice's
    axis or size one. *)
Definition conf_iadd (v : nat) (conf : list row) (start : nat) (sc : list row)
  : result (list row) :=
  let bs := List.length sc in
  let r := Nat.min bs (List.length conf - start) in
  if ((r =? bs) || (bs =? 1))
     && forallb (fun x => (List.length x =? v) || (List.length x =? 1)) sc
  then Ok (iadd_at conf start (map (bcast v) sc))
  else Raise (ValueError "operands could not be broadcast together").

(** Lines 82-85: [pos] is [start + i]. *)
Fixpoint vote_rows (itoa : list string) (acc : Z) (vote : list tally)
  (pos : nat) (ans_ids : list nat) : result (list tally) :=
  match ans_ids with
  | [] => Ok vote
  | ans_id :: rest =>
      ans <- list_get itoa ans_id ;;
      v <- list_get vote pos ;;
      vote_rows itoa acc (list_set vote pos (cast_vote acc v ans)) (S pos) rest
  end.

(** Lines 79-87, for the score tensor [sc] of one batch. *)
Definition batch_step (itoa : list string) (acc : Z)
  (st : nat * buffers) (sc : list row) : result (nat * buffers) :=
  let '(start, b) := st in
  let bs := List.length sc in
  conf' <- conf_iadd (List.length itoa) (conf_buff b) start sc ;;
  ans_ids <- torch_max_dim1 sc ;;
  vote' <- vote_rows itoa acc (vote_buff b) start ans_ids ;;
  Ok (start + bs, mk_buffers conf' vote').

(** ** The environment of a run *)

Record args_ns : Type := mk_args {
  model_dir : string;
  bs : Z;
  cfg_file : option string;
  set_cfgs : option (list string) }.

Record world : Type := mk_world {
  parse_args : args_ns;                     (* parser.parse_args() *)
  os_listdir : string -> list string;       (* os.listdir *)
  dataset_len : nat;                        (* len(dataset) *)
  que_id : list Z;                          (* dataset.que_id *)
  codebook_itoa : list string;              (* dataset.codebook['itoa'] *)
  forward : entry -> list nat -> list row;  (* the model applied to one batch *)
  io_fault : string -> option nat           (* characters the device takes of a file *) }.

(** [DataLoader(dataset, batch_size, shuffle=False)]: consecutive batches
    of [batch_size] sample positions, the last one possibly shorter. *)
Fixpoint chunks (fuel batch_size : nat) (l : list nat) : list (list nat) :=
  match fuel, l with
  | S fuel', _ :: _ =>
      firstn batch_size l :: chunks fuel' batch_size (skipn batch_size l)
  | _, _ => []
  end.

Definition data_loader (n : nat) (batch_size : Z) : result (list (list nat)) :=
  if (batch_size <=? 0)%Z
  then Raise (ValueError "batch_size should be a positive integer value")
  else Ok (chunks n (Z.to_nat batch_size) (seq 0 n)).

(** The score tensors a model produces over one pass of the loader. *)
Definition model_scores (w : world) (e : entry) (batches : list (list nat))
  : list (list row) :=
  map (forward w e) batches.

(** The body of the loop over [model_info] (lines 55-87). *)
Definition model_pass (w : world) (a : args_ns) (b : buffers) (e : entry)
  : result buffers :=
  batches <- data_loader (dataset_len w) (bs a) ;;
  st <- foldM (batch_step (codebook_itoa w) (model_acc e)) (0, b)
          (model_scores w e batches) ;;
  Ok (snd st).

(** Lines 53-87 without the bookkeeping of effects. *)
Definition run_models (w : world) (a : args_ns) (model_info : list entry)
  (b : buffers) : result buffers :=
  foldM (model_pass w a) b model_info.

(** ** Finalisation (lines 89-97) *)

Record answer_obj : Type := mk_answer {
  question_id : Z;
  answer : string }.

Definition final_argmax (v : nat) (conf : list row) : result (list nat) :=
  if v =? 0
  then Raise (RuntimeError "max(): Expected reduction dim 1 to have non-zero size.")
  else torch_max_dim1 conf.

Definition conf_answer (itoa : list string) (p : Z * nat) : result answer_obj :=
  ans <- list_get itoa (snd p) ;; Ok (mk_answer (fst p) ans).

Definition finalize (w : world) (b : buffers)
  : result (list answer_obj * list answer_obj) :=
  let itoa := codebook_itoa w in
  ans_ids <- final_argmax (List.length itoa) (conf_buff b) ;;
  conf_result <- mapM (conf_answer itoa) (combine (que_id w) ans_ids) ;;
  votes <- mapM top_vote (vote_buff b) ;;
  let vote_result :=
    map (fun p => mk_answer (fst p) (snd p)) (combine (que_id w) votes) in
  Ok (conf_result, vote_result).

(** Lines 47-97 for a given catalog. *)
Definition ensemble (w : world) (a : args_ns) (model_info : list entry)
  : result (list answer_obj * list answer_obj) :=
  b <- run_models w a model_info
         (init_buffers (dataset_len w) (List.length (codebook_itoa w))) ;;
  finalize w b.

(** ** Effects: the files written and the trace of external calls *)

Inductive event : Type :=
| CfgFromFile (f : string)
| CfgFromList (l : list string)
| Inference (e : entry).

Record effects : Type := mk_effects {
  files : list (string * string);
  trace : list event }.

Fixpoint fs_read (fs : list (string * string)) (name : string) : option string :=
  match fs with
  | [] => None
  | (n, c) :: fs' => if String.eqb n name then Some c else fs_read fs' name
  end.

Fixpoint fs_write (fs : list (string * string)) (name content : string)
  : list (string * string) :=
  match fs with
  | [] => [(name, content)]
  | (n, c) :: fs' =>
      if String.eqb n name then (n, content) :: fs'
      else (n, c) :: fs_write fs' name content
  end.

Definition M (A : Type) : Type := effects -> effects * result A.

Definition retM {A : Type} (a : A) : M A := fun st => (st, Ok a).

Definition bindM {A B : Type} (c : M A) (k : A -> M B) : M B :=
  fun st =>
    match c st with
    | (st', Ok a) => k a st'
    | (st', Raise e) => (st', Raise e)
    end.

Notation "x <~ c ;; k" := (bindM c (fun x => k))
  (at level 61, c at next level, right associativity).

Definition liftR {A : Type} (r : result A) : M A := fun st => (st, r).

Definition emit (ev : event) : M unit :=
  fun st => (mk_effects (files st) (trace st ++ [ev]), Ok tt).

(** Lines 53-87: the loop over [model_info]. *)
Fixpoint accumulate (w : world) (a : args_ns) (model_info : list entry)
  (b : buffers) : M buffers :=
  match model_info with
  | [] => retM b
  | e :: rest =>
      _ <~ emit (Inference e) ;;
      b' <~ liftR (model_pass w a b e) ;;
      accumulate w a rest b'
  end.

(** *** [json.dump] of a result list *)

Definition json_char (c : ascii) : list ascii :=
  let n := nat_of_ascii c in
  if Ascii.eqb c dquote then [backslash; dquote]
  else if Ascii.eqb c backslash then [backslash; backslash]
  else if n =? 10 then [backslash; "n"%char]
  else if n =? 13 then [backslash; "r"%char]
  else if n =? 9 then [backslash; "t"%char]
  else if n =? 8 then [backslash; "b"%char]
  else if n =? 12 then [backslash; "f"%char]
  else if (n <? 32) || (126 <? n)
       then backslash :: "u"%char :: "0"%char :: "0"%char :: hex2 n
  else [c].

Definition json_string (s : string) : string :=
  str (dquote :: flat_map json_char (chars s) ++ [dquote]).

Definition json_object (o : answer_obj) : string :=
  "{" +++ json_string "question_id" +++ ": " +++ py_str_int (question_id o)
  +++ ", " +++ json_string "answer" +++ ": " +++ json_string (answer o) +++ "}".

Definition json_dumps (l : list answer_obj) : string :=
  "[" +++ String.concat ", " (map json_object l) +++ "]".

(** [json.dump] does not build the text first: it writes the pieces that
    [iterencode] yields, one [fp.write] each. *)
Definition json_object_chunks (o : answer_obj) : list string :=
  ["{"; json_string "question_id"; ": "; py_str_int (question_id o); ", ";
   json_string "answer"; ": "; json_string (answer o); "}"].

Fixpoint json_list_chunks (buf : string) (l : list answer_obj) : list string :=
  match l with
  | [] => ["]"]
  | o :: l' => buf :: json_object_chunks o ++ json_list_chunks ", " l'
  end.

Definition json_chunks (l : list answer_obj) : list string :=
  match l with
  | [] => ["[]"]
  | _ :: _ => json_list_chunks "[" l
  end.

(** The file object of [open(fname, 'w')] keeps what is written until
    more than [chunk_size] characters are pending and then hands all of
    them to the device: the text layer of CPython 3.6, the interpreter of
    the script's PyTorch, whose threshold is 8192 (later versions hand
    over what is pending just before that threshold is passed); the
    buffer below it is no larger on the usual file systems (4096 or
    8192).  The text is ASCII ([ensure_ascii]), one byte per
    character. *)
Definition chunk_size : nat := 2 ^ 13.

(** The number of characters handed to the device by the time the last
    piece is written, [sent] before and [pending] in the buffer. *)
Fixpoint flush_scan (sent pending : nat) (pieces : list string) : nat :=
  match pieces with
  | [] => sent
  | p :: pieces' =>
      let pending' := pending + String.length p in
      if chunk_size <? pending' then flush_scan (sent + pending') 0 pieces'
      else flush_scan sent pending' pieces'
  end.

Definition no_space : exn := OSError "[Errno 28] No space left on device".

(** [json.dump(obj, open(fname, 'w'))] (lines 100 and 102).  The file is
    opened under [fname] itself, which truncates it, and is never closed
    by the script.  On a device that takes only [k] characters of the
    file, the first [k] characters of the text are what the file holds.
    The error is raised by the write that hands the device more than it
    takes; when that happens only as the file object is finalised after
    [json.dump] has returned, the error is ignored there and the script
    goes on. *)
Definition dump_to (w : world) (fname : string) (obj : list answer_obj)
  : M unit :=
  fun st =>
    let text := json_dumps obj in
    match io_fault w fname with
    | Some k =>
        if k <? String.length text
        then (mk_effects (fs_write (files st) fname (substring 0 k text)) (trace st),
              if k <? flush_scan 0 0 (json_chunks obj)
              then Raise no_space else Ok tt)
        else (mk_effects (fs_write (files st) fname text) (trace st), Ok tt)
    | None => (mk_effects (fs_write (files st) fname text) (trace st), Ok tt)
    end.

Definition conf_fname (a : args_ns) : string :=
  os_path_join (model_dir a) "result-conf.json".

Definition vote_fname (a : args_ns) : string :=
  os_path_join (model_dir a) "result-vote.json".

(** Lines 99-102. *)
Definition write_outputs (w : world) (a : args_ns)
  (res : list answer_obj * list answer_obj) : M unit :=
  _ <~ dump_to w (conf_fname a) (fst res) ;;
  dump_to w (vote_fname a) (snd res).

(** ** [main] *)

(** Lines 34-102, with [args] bound to [a]. *)
Definition main_body (w : world) (a : args_ns) : M unit :=
  model_info <~ liftR (build_catalog (model_dir a) (os_listdir w (model_dir a))) ;;
  b <~ accumulate w a model_info
         (init_buffers (dataset_len w) (List.length (codebook_itoa w))) ;;
  res <~ liftR (finalize w b) ;;
  write_outputs w a res.

(** Reading a local variable of a function: it is unbound until the
    function assigns it. *)
Definition load_local {A : Type} (name : string) (slot : option A) : result A :=
  match slot with
  | Some v => Ok v
  | None => Raise (UnboundLocalError name)
  end.

Definition when_some {A : Type} (o : option A) (f : A -> event) : M unit :=
  match o with
  | Some x => emit (f x)
  | None => retM tt
  end.

(** Lines 27-102.  [main] assigns [args] (line 33), so [args] is a local
    variable of [main] and starts unbound. *)
Definition main (w : world) : M unit :=
  let args : option args_ns := None in
  a <~ liftR (load_local "args" args) ;;          (* line 28 *)
  _ <~ when_some (cfg_file a) CfgFromFile ;;      (* line 29 *)
  a <~ liftR (load_local "args" args) ;;          (* line 30 *)
  _ <~ when_some (set_cfgs a) CfgFromList ;;      (* line 31 *)
  let args := Some (parse_args w) in              (* line 33 *)
  a <~ liftR (load_local "args" args) ;;          (* line 34 *)
  main_body w a.

Definition no_effects : effects := mk_effects [] [].

End Pipeline.

Arguments world : clear implicits.
Arguments buffers : clear implicits.

(** ** A worked run: two models, one question *)

Module Scenario.

Definition itoa : list string := ["yes"; "no"; "two"].

Definition model_A : entry := mk_entry "A" "Net" 80 "out/A-Net-80.pth.tar".
Definition model_B : entry := mk_entry "B" "Net" 60 "out/B-Net-60.pth.tar".

(** The scores as the decimals themselves, in exact arithmetic. *)
Definition scores (e : entry) (batch : list nat) : list (list Q) :=
  if String.eqb (model_group_name e) "A"
  then map (fun _ => [1 # 10; 7 # 10; 2 # 10]%Q) batch
  else map (fun _ => [6 # 10; 3 # 10; 1 # 10]%Q) batch.

Definition args : args_ns := mk_args "out" 128 None None.

Definition w : world QScore :=
  @mk_world QScore args
    (fun _ => ["A-Net-80.pth.tar"; "README.md"; "B-Net-60.pth.tar"])
    1 [1%Z] itoa scores (fun _ => None).

(** The run as the script computes it: the models return float32 scores,
    here the float32 values nearest to 0.1, 0.7, 0.2 and to 0.6, 0.3,
    0.1, which [conf_buff] takes in as binary64. *)
Definition scores32 (e : entry) (batch : list nat) : list (list float) :=
  if String.eqb (model_group_name e) "A"
  then map (fun _ => [0x1.99999ap-4; 0x1.666666p-1; 0x1.99999ap-3]%float) batch
  else map (fun _ => [0x1.333334p-1; 0x1.333334p-2; 0x1.99999ap-4]%float) batch.

Definition w32 : world FloatScore :=
  @mk_world FloatScore args (os_listdir w) 1 [1%Z] itoa scores32
            (fun _ => None).

(** The double and the float32 nearest to a decimal of the scenario. *)
Definition double_0_7 : float := 0x1.6666666666666p-1%float.
Definition double_0_3 : float := 0x1.3333333333333p-2%float.
Definition single_0_7 : float := 0x1.666666p-1%float.
Definition single_0_3 : float := 0x1.333334p-2%float.

End Scenario.

(** ** Vocabulary of the properties *)

(** The tally of one sample after the votes [(answer, accuracy)] of the
    models, in catalog order. *)
Definition vote_step (v : tally) (p : string * Z) : tally :=
  cast_vote (snd p) v (fst p).

Definition cast_votes (votes : list (string * Z)) : tally :=
  fold_left vote_step votes [].

Fixpoint find_index {A : Type} (p : A -> bool) (l : list A) : option nat :=
  match l with
  | [] => None
  | x :: l' => if p x then Some 0 else option_map S (find_index p l')
  end.

(** The catalog position of the first model that votes for [ans]. *)
Definition first_vote (votes : list (string * Z)) (ans : string) : option nat :=
  find_index (fun p => String.eqb (fst p) ans) votes.

Definition keys (v : tally) : list string := map fst v.

Definition total_weight (v : tally) : Z :=
  fold_right (fun p s => (snd p + s)%Z) 0%Z v.

Definition sum_acc (model_info : list entry) : Z :=
  fold_right (fun e s => (model_acc e + s)%Z) 0%Z model_info.

(** The text that a list of written pieces makes, and its length. *)
Definition join_pieces (pieces : list string) : string :=
  fold_right String.append EmptyString pieces.

Definition pieces_length (pieces : list string) : nat :=
  fold_right (fun p n => String.length p + n) 0 pieces.

(** The order of two finite binary64 values of the same sign, by exponent
    and then by mantissa. *)
Definition lex (e1 : Z) (m1 : positive) (e2 : Z) (m2 : positive) : comparison :=
  match Z.compare e1 e2 with
  | Lt => Lt
  | Gt => Gt
  | Eq => Pos.compare_cont Eq m1 m2
  end.

(** The checkpoint names of a listing that the catalog builder rejects:
    fewer than three dash-separated fields in the base name, or a third
    field that is not an integer. *)
Definition malformed (cp_file : string) : Prop :=
  let fields := split (rsplit_head cp_file "."%char 2) "-"%char in
  List.length fields < 3
  \/ exists group name acc_text rest,
       fields = group :: name :: acc_text :: rest /\ parse_int acc_text = None.

Section Vocabulary.

Context {SO : ScoreOps}.

(** [i] is the position of the first maximum of [r]: nothing in [r] is
    above [r[i]] and everything before position [i] is strictly below. *)
Definition first_max (r : row) (i : nat) : Prop :=
  exists x, nth_error r i = Some x
    /\ (forall j y, nth_error r j = Some y -> s_le y x = true)
    /\ (forall j y, j < i -> nth_error r j = Some y -> s_le x y = false).

(** A row without NaN. *)
Definition no_nan (r : row) : Prop := Forall (fun x => s_isnan x = false) r.

(** All score rows of one model's pass, in loader order. *)
Definition all_rows (w : world SO) (a : args_ns) (e : entry) : list row :=
  match data_loader (dataset_len w) (bs a) with
  | Ok batches => List.concat (model_scores w e batches)
  | Raise _ => []
  end.

(** The top answer of each row (lines 81 and 83). *)
Definition top_answers (itoa : list string) (rows : list row)
  : result (list string) :=
  ans_ids <- torch_max_dim1 rows ;; mapM (list_get itoa) ans_ids.

(** [ans] is the top-scoring answer of entry [e] for the sample at
    position [i]: the vocabulary entry at the [torch.max] position of
    the score row that the model returns for that sample. *)
Definition top_answer_at (w : world SO) (a : args_ns) (e : entry) (i : nat)
  (ans : string) : Prop :=
  exists (r : row) (ans_id : nat),
    nth_error (all_rows w a e) i = Some r
    /\ argmax r = Ok ans_id
    /\ nth_error (codebook_itoa w) ans_id = Some ans.

(** The same, by the scores: the position is that of the first maximum
    of the row. *)
Definition top_scoring_at (w : world SO) (a : args_ns) (e : entry) (i : nat)
  (ans : string) : Prop :=
  exists (r : row) (ans_id : nat),
    nth_error (all_rows w a e) i = Some r
    /\ first_max r ans_id
    /\ nth_error (codebook_itoa w) ans_id = Some ans.

(** One vote of weight [acc] for [answers[i]] in the tally at position
    [start + i]. *)
Fixpoint vote_at (acc : Z) (vote : list tally) (start : nat)
  (answers : list string) : list tally :=
  match vote with
  | [] => []
  | v :: vote' =>
      match start with
      | S s => v :: vote_at acc vote' s answers
      | O => match answers with
             | [] => vote
             | ans :: answers' => cast_vote acc v ans :: vote_at acc vote' 0 answers'
             end
      end
  end.

(** The scorer's contract: one score row per example of the batch, one
    score per vocabulary entry. *)
Definition one_row_per_example (w : world SO) (e : entry) : Prop :=
  forall batch, List.length (forward w e batch) = List.length batch.

Definition rows_over_vocabulary (w : world SO) (e : entry) : Prop :=
  forall batch,
    Forall (fun r => List.length r = List.length (codebook_itoa w))
           (forward w e batch).



End Vocabulary.

(** ** Rounding: three models of one family, binary64 sums *)

Module Rounding.

Definition itoa : list string := ["yes"; "no"].

Definition big : float := 0x1p+60%float.

Definition scores (e : entry) (batch : list nat) : list (list float) :=
  if String.eqb (model_name e) "A"
  then map (fun _ => [big; 0%float]) batch
  else if String.eqb (model_name e) "B"
  then map (fun _ => [1%float; 0%float]) batch
  else map (fun _ => [PrimFloat.opp big; 0.5%float]) batch.

Definition args : args_ns := mk_args "out" 128 None None.

Definition listing1 : list string :=
  ["att-A-70.pth.tar"; "att-B-70.pth.tar"; "att-C-70.pth.tar"].


Definition w : world FloatScore :=
  @mk_world FloatScore args (fun _ => listing1) 1 [7%Z] itoa scores
            (fun _ => None).

Definition model_A : entry := mk_entry "att" "A" 70 "out/att-A-70.pth.tar".
Definition model_B : entry := mk_entry "att" "B" 70 "out/att-B-70.pth.tar".
Definition model_C : entry := mk_entry "att" "C" 70 "out/att-C-70.pth.tar".

End Rounding.

(** ** Faults: a malformed checkpoint name, and a device that is full *)

Module Faults.

Definition listing : list string := ["a-b.pth.tar"; "c-d-1.pth.tar"; "e-f-2.pth.tar"].

Definition w_bad_name : world QScore :=
  @mk_world QScore Scenario.args (fun _ => listing) 1 [1%Z] Scenario.itoa
            Scenario.scores (fun _ => None).


(** An evaluation set of 300 questions, whose result texts are longer
    than the buffer of the file object, on a device that takes five
    characters of [result-conf.json]. *)
Definition w_long : world FloatScore :=
  @mk_world FloatScore Scenario.args (os_listdir Scenario.w) 300
            (map Z.of_nat (seq 1 300)) Scenario.itoa Scenario.scores32
            (fun f => if String.eqb f "out/result-conf.json" then Some 5 else None).

End Faults.

(** ** A tie: two models of equal accuracy that disagree on both questions *)

Module Tie.

Definition scores (e : entry) (batch : list nat) : list (list float) :=
  if String.eqb (model_group_name e) "A"
  then map (fun _ => [0.25; 0.5; 0.25]%float) batch
  else map (fun _ => [0.5; 0.25; 0.25]%float) batch.

Definition model_A : entry := mk_entry "A" "Net" 70 "out/A-Net-70.pth.tar".
Definition model_B : entry := mk_entry "B" "Net" 70 "out/B-Net-70.pth.tar".

Definition w : world FloatScore :=
  @mk_world FloatScore Scenario.args
    (fun _ => ["B-Net-70.pth.tar"; "A-Net-70.pth.tar"])
    2 [11%Z; 12%Z] Scenario.itoa scores (fun _ => None).

End Tie.

(** ** Vocabulary of further properties of the catalog and the run *)

From Stdlib Require Import Sorted DecimalPos DecimalZ.

(** The order of [sorted(model_info, key=itemgetter(0))]. *)
Definition group_le (x y : entry) : Prop :=
  String.leb (model_group_name x) (model_group_name y) = true.

Definition in_group (g : string) (e : entry) : bool :=
  String.eqb (model_group_name e) g.

Definition has_dash (s : string) : Prop := In "-"%char (chars s).

(** The name the naming convention gives to a checkpoint:
    [<group>-<name>-<accuracy><suffix>.pth.tar]. *)
Definition checkpoint_name (group name : string) (acc : Z) (suffix : string)
  : string :=
  group +++ "-" +++ name +++ "-" +++ py_str_int acc +++ suffix +++ ".pth.tar".

(** The sum of the accuracies of the votes cast for [ans]. *)
Definition votes_for (votes : list (string * Z)) (ans : string) : Z :=
  fold_right
    (fun p s => if String.eqb (fst p) ans then (snd p + s)%Z else s) 0%Z votes.

(** Every key of the tally is a vocabulary answer. *)
Definition keys_in (itoa : list string) (v : tally) : Prop :=
  forall k, In k (keys v) -> In k itoa.

(** A score row that numpy and [torch.max] accept against a vocabulary
    of [v] answers: not empty, and [v] wide or one wide. *)
Definition fits {SO : ScoreOps} (v : nat) (r : @row SO) : Prop :=
  r <> [] /\ (List.length r = v \/ List.length r = 1).

(** * The training script ([train.py])

    The parts of [train.py] that do not depend on the network: the
    running averages, the learning-rate schedule, the formatting of
    validation results and the epoch loop with its checkpoints.  The
    network, the loss and the evaluation are inputs: the losses and
    sizes of the batches of an epoch, and the accuracy that [validate]
    returns or the exception it raises, are given by the environment. *)

Module Train.

(** Exceptions: those of [ensemble.py] and two more. *)
Inductive error : Type :=
| TypeError (msg : string)
| ZeroDivisionError (msg : string)
| Other (e : exn).

Inductive outcome (A : Type) : Type :=
| Done (a : A)
| Fail (e : error).

Arguments Done {A} a.
Arguments Fail {A} e.

(** Python numbers as the script uses them: [int] is [Z]; [num] stands
    for [float], with the conversion of an [int] operand, the
    arithmetic the script applies and the comparison [<]. *)
Class NumOps : Type := {
  num : Type;
  of_int : Z -> num;
  n_add : num -> num -> num;
  n_mul : num -> num -> num;
  n_div : num -> num -> num;
  n_pow : num -> Z -> num;
  n_lt : num -> num -> bool }.

Definition QNum : NumOps := {|
  num := Q;
  of_int := inject_Z;
  n_add := Qplus;
  n_mul := Qmult;
  n_div := Qdiv;
  n_pow := Qpower;
  n_lt := fun a b => negb (Qle_bool b a) |}.


(** A value of an [argparse] option declared without [type=]: the
    default as written in the script, or the text of the command
    line. *)
Inductive cli (A : Type) : Type :=
| Default (a : A)
| Given (text : string).

Arguments Default {A} a.
Arguments Given {A} text.

(** [d[k] = x] on a [dict] kept in insertion order. *)
Fixpoint assoc_set {V : Type} (d : list (string * V)) (k : string) (x : V)
  : list (string * V) :=
  match d with
  | [] => [(k, x)]
  | (k', x') :: d' =>
      if String.eqb k' k then (k', x) :: d' else (k', x') :: assoc_set d' k x
  end.

Fixpoint assoc_get {V : Type} (d : list (string * V)) (k : string) : option V :=
  match d with
  | [] => None
  | (k', x) :: d' => if String.eqb k' k then Some x else assoc_get d' k
  end.

(** [range(start, stop)] *)
Definition range (start stop : Z) : list Z :=
  map (fun i => (start + Z.of_nat i)%Z) (seq 0 (Z.to_nat (stop - start))).

(** ['{:03}'.format(n)]: zero-padded to three characters, the sign
    included. *)
Definition zfill (width : nat) (s : string) : string :=
  str (repeat "0"%char (width - String.length s)) +++ s.

Definition format_03 (n : Z) : string :=
  if (n <? 0)%Z then "-" +++ zfill 2 (py_str_int (- n))
  else zfill 3 (py_str_int n).

(** Line 171. *)
Definition cp_fname (epoch : Z) : string :=
  "checkpoint-" +++ format_03 epoch +++ ".pth.tar".

Definition best_fname : string := "model-best.pth.tar".

(** Line 312: [max(0, (epoch - args.lr_decay_start) // 10 + 1)]. *)
Definition lr_exponent (epoch lr_decay_start : Z) : Z :=
  Z.max 0 ((epoch - lr_decay_start) / 10 + 1).

Section Numbers.

Context {NO : NumOps}.

(** ** [AverageMeter] *)

Record AverageMeter : Type := mk_meter {
  m_val : num;
  m_avg : num;
  m_sum : num;
  m_count : Z }.

(** [reset] (lines 298-302) *)
Definition reset : AverageMeter :=
  mk_meter (of_int 0) (of_int 0) (of_int 0) 0.

(** [update] (lines 304-308): the division of the last line raises when
    the count is zero, after the three assignments before it. *)
Definition update (m : AverageMeter) (val : num) (n : Z)
  : AverageMeter * outcome unit :=
  let sum' := n_add (m_sum m) (n_mul val (of_int n)) in
  let count' := (m_count m + n)%Z in
  if (count' =? 0)%Z
  then (mk_meter val (m_avg m) sum' count',
        Fail (ZeroDivisionError "float division by zero"))
  else (mk_meter val (n_div sum' (of_int count')) sum' count', Done tt).

(** A sequence of calls [update(val, n)], up to the first that raises. *)
Fixpoint updates (m : AverageMeter) (calls : list (num * Z))
  : AverageMeter * outcome unit :=
  match calls with
  | [] => (m, Done tt)
  | (val, n) :: rest =>
      match update m val n with
      | (m', Done _) => updates m' rest
      | (m', Fail e) => (m', Fail e)
      end
  end.

(** The weighted sum that [self.sum] accumulates. *)
Definition weighted_sum (calls : list (num * Z)) : num :=
  fold_left (fun s c => n_add s (n_mul (fst c) (of_int (snd c)))) calls (of_int 0).

Definition total_count (calls : list (num * Z)) : Z :=
  fold_right (fun c s => (snd c + s)%Z) 0%Z calls.

(** [train] (lines 213-247), as far as its result goes: [batches] holds
    the loss and the size of each batch; every [print_freq] batches a
    line is logged, the test being [i % args.print_freq == 0]. *)
Fixpoint train_loop (print_freq : Z) (losses : AverageMeter) (i : Z)
  (batches : list (num * Z)) : outcome num :=
  match batches with
  | [] => Done (m_avg losses)
  | (loss, size) :: rest =>
      match update losses loss size with
      | (_, Fail e) => Fail e
      | (losses', Done _) =>
          if (print_freq =? 0)%Z
          then Fail (ZeroDivisionError "integer division or modulo by zero")
          else train_loop print_freq losses' (i + 1) rest
      end
  end.

Definition train (print_freq : Z) (batches : list (num * Z)) : outcome num :=
  train_loop print_freq reset 0 batches.

(** ** [adjust_learning_rate] (lines 311-316) *)

(** A value of a parameter group: the learning rate and the like, or
    something the schedule does not look at. *)
Inductive gval : Type :=
| GNum (x : num)
| GOpaque (tag : nat).

Definition param_group : Type := list (string * gval).

Record train_args : Type := mk_train_args {
  start_epoch : Z;
  epochs : Z;
  print_freq : Z;
  lr_decay_start : cli Z;       (* default 40 *)
  lr_decay_factor : cli num     (* default 0.8 *) }.

Definition adjust_learning_rate (LEARNING_RATE : num) (args : train_args)
  (param_groups : list param_group) (epoch : Z)
  : list param_group * outcome num :=
  match lr_decay_start args with
  | Given _ =>
      (param_groups,
       Fail (TypeError "unsupported operand type(s) for -: 'int' and 'str'"))
  | Default decay_start =>
      let exponent := lr_exponent epoch decay_start in
      match lr_decay_factor args with
      | Given _ =>
          (param_groups,
           Fail (TypeError
                   "unsupported operand type(s) for ** or pow(): 'str' and 'int'"))
      | Default factor =>
          let lr := n_mul LEARNING_RATE (n_pow factor exponent) in
          (map (fun g => assoc_set g "lr" (GNum lr)) param_groups, Done lr)
      end
  end.

(** ** The epoch loop of [main] (lines 147-182) *)

(** What [torch.save] writes at line 179: the next epoch, the weights
    (named by the epoch that produced them) and the best accuracy so
    far. *)
Record checkpoint : Type := mk_checkpoint {
  ck_epoch : Z;
  ck_weights : Z;
  ck_best_acc : num }.

Record loop_state : Type := mk_loop_state {
  best_acc : num;
  best_epoch : Z;
  is_best : option bool;                    (* a local of [main], unbound at first *)
  saved : list (string * checkpoint);       (* the files written so far *)
  param_groups : list param_group }.

Record train_env : Type := mk_train_env {
  LEARNING_RATE : num;
  LOG_DIR : string;
  acc_of : Z -> num;                        (* what [validate] returns for an epoch *)
  batches_of : Z -> list (num * Z);         (* loss and size of each training batch *)
  validate_error : Z -> option error        (* what [validate] raises, if it does *) }.

Definition init_state (groups : list param_group) : loop_state :=
  mk_loop_state (of_int 0) (-1) None [] groups.

(** One iteration (lines 151-182). *)
Definition epoch_step (env : train_env) (args : train_args) (s : loop_state)
  (epoch : Z) : loop_state * outcome unit :=
  match adjust_learning_rate (LEARNING_RATE env) args (param_groups s) epoch with
  | (groups, Fail e) =>
      (mk_loop_state (best_acc s) (best_epoch s) (is_best s) (saved s) groups,
       Fail e)
  | (groups, Done _) =>
      let stopped := mk_loop_state (best_acc s) (best_epoch s) (is_best s)
                       (saved s) groups in
      match train (print_freq args) (batches_of env epoch) with
      | Fail e => (stopped, Fail e)                              (* line 154 *)
      | Done _ =>
          match validate_error env epoch with
          | Some e => (stopped, Fail e)                          (* line 155 *)
          | None =>
              let acc := acc_of env epoch in
              let improved := n_lt (best_acc s) acc in
              let is_best' := if improved then Some true else is_best s in
              let best_acc' := if improved then acc else best_acc s in
              let best_epoch' := if improved then epoch else best_epoch s in
              let cp_path := os_path_join (LOG_DIR env) (cp_fname epoch) in
              let state := mk_checkpoint (epoch + 1) epoch best_acc' in
              let saved1 := assoc_set (saved s) cp_path state in
              match is_best' with
              | None =>
                  (mk_loop_state best_acc' best_epoch' is_best' saved1 groups,
                   Fail (Other (UnboundLocalError "is_best")))
              | Some flag =>
                  let saved2 :=
                    if flag
                    then assoc_set saved1
                           (os_path_join (LOG_DIR env) best_fname) state
                    else saved1 in
                  (mk_loop_state best_acc' best_epoch' is_best' saved2 groups,
                   Done tt)
              end
          end
      end
  end.

Fixpoint epoch_loop (env : train_env) (args : train_args) (s : loop_state)
  (epoch_list : list Z) : loop_state * outcome unit :=
  match epoch_list with
  | [] => (s, Done tt)
  | epoch :: rest =>
      match epoch_step env args s epoch with
      | (s', Done _) => epoch_loop env args s' rest
      | (s', Fail e) => (s', Fail e)
      end
  end.

Definition main_epochs (env : train_env) (args : train_args)
  (groups : list param_group) : loop_state * outcome unit :=
  epoch_loop env args (init_state groups) (range (start_epoch args) (epochs args)).

End Numbers.

(** ** [format_result] (lines 278-285) and the loop of [validate]
    (lines 254-263) *)

Section Results.

Context {SO : ScoreOps}.

Definition format_result (que_ids : list Z) (scores : list row)
  (itoa : list string) : result (list answer_obj) :=
  ans_ids <- torch_max_dim1 scores ;;
  mapM (conf_answer itoa) (combine que_ids ans_ids).

(** [results.extend(format_result(sample[0], score, itoa))] over the
    batches of the loader. *)
Fixpoint validate_results (itoa : list string)
  (batches : list (list Z * list row)) (results : list answer_obj)
  : result (list answer_obj) :=
  match batches with
  | [] => Ok results
  | (que_ids, scores) :: rest =>
      formatted <- format_result que_ids scores itoa ;;
      validate_results itoa rest (results ++ formatted)
  end.

End Results.

End Train.

(** ** Vocabulary of the properties of the training script *)

(** Both schedule options are at their defaults. *)
Definition schedule_defaults {NO : Train.NumOps} (args : Train.train_args)
  : Prop :=
  (exists decay_start, Train.lr_decay_start args = Train.Default decay_start)
  /\ (exists factor, Train.lr_decay_factor args = Train.Default factor).

(** Training and validation do not raise at [epoch]. *)
Definition epoch_runs {NO : Train.NumOps} (env : Train.train_env)
  (args : Train.train_args) (epoch : Z) : Prop :=
  (exists loss,
      Train.train (Train.print_freq args) (Train.batches_of env epoch)
      = Train.Done loss)
  /\ Train.validate_error env epoch = None.


(** A run of the training script on rationals: three epochs with
    accuracies 50, 60, 55. *)
Module TrainScenario.

Definition args : Train.train_args :=
  @Train.mk_train_args Train.QNum 0 3 10 (Train.Default 40%Z)
    (Train.Default (8 # 10)%Q).

Definition acc (epoch : Z) : Q :=
  if (epoch =? 0)%Z then 50 else if (epoch =? 1)%Z then 60 else 55.

(** Two batches of 64 and 36 samples in every epoch. *)
Definition batches (epoch : Z) : list (Q * Z) :=
  [((7 # 10)%Q, 64%Z); ((5 # 10)%Q, 36%Z)].

Definition env : Train.train_env :=
  @Train.mk_train_env Train.QNum (1 # 1000)%Q "log" acc batches
    (fun _ => None).

(** The same, where the first epoch scores 0. *)
Definition env_flat : Train.train_env :=
  @Train.mk_train_env Train.QNum (1 # 1000)%Q "log" (fun _ => 0%Q) batches
    (fun _ => None).

(** The decay start given on the command line. *)
Definition args_cli : Train.train_args :=
  @Train.mk_train_args Train.QNum 0 3 10 (Train.Given "40")
    (Train.Default (8 # 10)%Q).

(** [--print-freq 0]. *)
Definition args_no_print : Train.train_args :=
  @Train.mk_train_args Train.QNum 0 3 0 (Train.Default 40%Z)
    (Train.Default (8 # 10)%Q).

End TrainScenario.

(** ** Word embeddings ([merge_embeddings], lines 185-196) *)

Module Embeddings.

Section Merge.

(** A [float32] matrix as the list of its rows; the numbers are only
    moved around. *)
Variable F : Type.

Definition matrix : Type := list (list F).

(** [load_embeddings(name)] (lines 199-210): the vocabulary and the
    matrix of a file of the data directory, or the exception that
    reading it raises. *)
Variable load_embeddings : string -> result (list string * matrix).

(** [np.hstack] on two-dimensional arrays: they must agree on the number
    of rows, and row [i] of the result is the rows [i] of the arrays one
    after the other. *)
Definition hstack (arrays : list matrix) : result matrix :=
  match arrays with
  | [] => Raise (ValueError "need at least one array to concatenate")
  | first :: others =>
      if forallb (fun m => List.length m =? List.length first) others
      then Ok (map (fun i => List.concat (map (fun m => nth i m []) arrays))
                 (seq 0 (List.length first)))
      else Raise (ValueError
                    ("all the input array dimensions except for the "
                     +++ "concatenation axis must match exactly"))
  end.

(** [dict(zip(vocab, vecs))] *)
Definition dict_zip (vocab : list string) (vecs : matrix)
  : list (string * list F) :=
  fold_left (fun d kv => Train.assoc_set d (fst kv) (snd kv))
    (combine vocab vecs) [].

(** The loop over [names[1:]] (lines 191-195). *)
Fixpoint merge_loop (names : list string) (vecs_list : list matrix)
  (vecs : matrix) : result matrix :=
  match names with
  | [] => Ok vecs
  | name :: names' =>
      loaded <- load_embeddings name ;;
      let vecs_list := vecs_list ++ [snd loaded] in
      vecs <- hstack vecs_list ;;
      merge_loop names' vecs_list vecs
  end.

Definition merge_embeddings (embedding_names : string)
  : result (list (string * list F)) :=
  match split embedding_names "+" with
  | [] => Raise (IndexError "list index out of range")
  | name :: rest =>
      loaded <- load_embeddings name ;;
      let (vocab, vecs) := loaded in
      vecs <- match rest with
              | [] => Ok vecs
              | _ :: _ => merge_loop rest [vecs] vecs
              end ;;
      Ok (dict_zip vocab vecs)
  end.

End Merge.

Arguments hstack {F} arrays.
Arguments dict_zip {F} vocab vecs.
Arguments merge_loop {F} load_embeddings names vecs_list vecs.
Arguments merge_embeddings {F} load_embeddings embedding_names.

(** Two embedding files of two words each. *)
Definition glove (name : string) : result (list string * matrix Z) :=
  if String.eqb name "glove.50d"
  then Ok (["cat"; "dog"], [[1; 2]; [3; 4]]%Z)
  else if String.eqb name "glove.100d"
  then Ok (["the"; "of"], [[5; 6; 7]; [8; 9; 10]]%Z)
  else Raise (OSError "No such file or directory").

End Embeddings.

(** ** Plotting ([Ploter], lines 319-335) *)

Module Plot.

Section Visdom.

(** The plotted values and what [viz.line] returns. *)
Variables Y Win : Type.

(** The calls made on the Visdom client. *)
Inductive call : Type :=
| VizLine (x : Z) (y : Y) (legend : list string)
| VizUpdateTrace (x : Z) (y : Y) (win : Win) (name : string).

(** What [viz.line] returns, given the calls made before it: [None] is
    Python's [None], [Some] any other value. *)
Variable viz_line : list call -> Z -> Y -> list string -> option Win.

Record Ploter : Type := mk_ploter {
  win : option Win;
  viz : list call }.

(** [__init__] *)
Definition init : Ploter := mk_ploter None [].

Definition append (p : Ploter) (x : Z) (y : Y) (name : string) : Ploter :=
  match win p with
  | Some w => mk_ploter (win p) (viz p ++ [VizUpdateTrace x y w name])
  | None =>
      mk_ploter (viz_line (viz p) x y [name]) (viz p ++ [VizLine x y [name]])
  end.

Definition appends (p : Ploter) (points : list (Z * Y * string)) : Ploter :=
  fold_left (fun p pt => append p (fst (fst pt)) (snd (fst pt)) (snd pt))
    points p.

(** The three calls of an epoch (lines 157-159). *)
Definition epoch_points (epoch : Z) (loss acc lr : Y) : list (Z * Y * string) :=
  [(epoch, loss, "train-loss"); (epoch, acc, "val-acc"); (epoch, lr, "lr")].

End Visdom.

Arguments VizLine {Y Win} x y legend.
Arguments VizUpdateTrace {Y Win} x y win name.
Arguments mk_ploter {Y Win} win viz.
Arguments win {Y Win} p.
Arguments viz {Y Win} p.
Arguments append {Y Win} viz_line p x y name.
Arguments appends {Y Win} viz_line p points.
Arguments epoch_points {Y} epoch loss acc lr.

End Plot.

(** * Properties *)

(** ** The definitions at work *)

Example parse_checkpoint_ex :
  parse_checkpoint "out" "att-MultiAtt-6312-best.pth.tar"
  = Ok (mk_entry "att" "MultiAtt" 6312 "out/att-MultiAtt-6312-best.pth.tar").
Proof. reflexivity. Qed.

Example parse_checkpoint_short :
  parse_checkpoint "out" "a-b.pth.tar"
  = Raise (ValueError "not enough values to unpack (expected at least 3, got 2)").
Proof. reflexivity. Qed.

Example parse_checkpoint_bad_int :
  parse_checkpoint "out" "a-b-6x.pth.tar"
  = Raise (ValueError "invalid literal for int() with base 10: '6x'").
Proof. reflexivity. Qed.

Example int_of_str_ex :
  map parse_int [" 12 "; "+7"; "1_000"; "007"; "1__0"; "_1"; "1_"; "+"; "6 3"]
  = [Some 12%Z; Some 7%Z; Some 1000%Z; Some 7%Z; None; None; None; None; None].
Proof. reflexivity. Qed.

Example sorted_by_group_stable :
  map model_name
    (sorted_by_group [mk_entry "b" "1" 0 "p"; mk_entry "a" "2" 0 "p";
                      mk_entry "b" "3" 0 "p"; mk_entry "a" "4" 0 "p"])
  = ["2"; "4"; "1"; "3"].
Proof. reflexivity. Qed.


Example main_body_scenario :
  exists st,
    main_body Scenario.w Scenario.args no_effects = (st, Ok tt)
    /\ trace st = [Inference Scenario.model_A; Inference Scenario.model_B]
    /\ fs_read (files st) "out/result-conf.json"
       = Some (json_dumps [mk_answer 1 "no"])
    /\ fs_read (files st) "out/result-vote.json"
       = Some (json_dumps [mk_answer 1 "no"]).
Proof. eexists. split; [vm_compute; reflexivity |]. repeat split. Qed.

Example json_dumps_ex :
  json_dumps [mk_answer 42 "a b"; mk_answer 7 "no"]
  = str (chars "[{" ++ [dquote] ++ chars "question_id" ++ [dquote]
         ++ chars ": 42, " ++ [dquote] ++ chars "answer" ++ [dquote]
         ++ chars ": " ++ [dquote] ++ chars "a b" ++ [dquote]
         ++ chars "}, {" ++ [dquote] ++ chars "question_id" ++ [dquote]
         ++ chars ": 7, " ++ [dquote] ++ chars "answer" ++ [dquote]
         ++ chars ": " ++ [dquote] ++ chars "no" ++ [dquote] ++ chars "}]").
Proof. reflexivity. Qed.

(** ** [main] as written *)

(** C10: [main] reads its local variable [args] at line 28, before the
    assignment of line 33, so every invocation raises the unbound-local
    error there: the directory is not listed, no model runs, no file is
    written and no configuration call is made. *)
Theorem main_raises_unbound_local :
  forall (SO : ScoreOps) (w : world SO) (st : effects),
    main w st = (st, Raise (UnboundLocalError "args")).
Proof. intros SO w st. reflexivity. Qed.

(** ** The worked run *)

(** C2, as the script computes it: with vocabulary yes/no/two, one
    question, model A (accuracy 80) and model B (accuracy 60) returning
    the float32 scores nearest to 0.1, 0.7, 0.2 and to 0.6, 0.3, 0.1,
    the binary64 confidence sums are 0x1.6666674p-1, 1 and
    0x1.3333338p-2, that is 0.7 + 17/671088640, 1 and
    0.3 + 3/671088640: within 3e-8 of 0.7, 1.0, 0.3.  The confidence
    answer is "no", the tally is no: 80, yes: 60 and the vote answer is
    "no"; the body of [main] writes both answers. *)
Theorem scenario_two_models :
  build_catalog "out" (os_listdir Scenario.w32 "out")
    = Ok [Scenario.model_A; Scenario.model_B]
  /\ (exists b : buffers FloatScore,
         run_models Scenario.w32 Scenario.args
           [Scenario.model_A; Scenario.model_B] (init_buffers 1 3) = Ok b
         /\ conf_buff b = [[0x1.6666674p-1; 1; 0x1.3333338p-2]%float]
         /\ map exact_value [0x1.6666674p-1; 1; 0x1.3333338p-2]%float
            = map (fun q => Some (Qred q))
                [(7 # 10) + (17 # 671088640); 1; (3 # 10) + (3 # 671088640)]%Q
         /\ Forall2
              (fun x c => exists q, exact_value x = Some q
                                    /\ (Qabs (q - c) < 3 # 100000000)%Q)
              [0x1.6666674p-1; 1; 0x1.3333338p-2]%float [7 # 10; 1; 3 # 10]%Q
         /\ vote_buff b = [[("no", 80%Z); ("yes", 60%Z)]]
         /\ finalize Scenario.w32 b = Ok ([mk_answer 1 "no"], [mk_answer 1 "no"]))
  /\ exists st,
       main_body Scenario.w32 Scenario.args no_effects = (st, Ok tt)
       /\ trace st = [Inference Scenario.model_A; Inference Scenario.model_B]
       /\ fs_read (files st) "out/result-conf.json"
          = Some (json_dumps [mk_answer 1 "no"])
       /\ fs_read (files st) "out/result-vote.json"
          = Some (json_dumps [mk_answer 1 "no"]).
Proof.
  split; [reflexivity |]. split.
  - eexists. split; [vm_compute; reflexivity |].
    split; [reflexivity |]. split; [vm_compute; reflexivity |].
    split; [| split; reflexivity].
    repeat constructor; eexists; (split; [vm_compute; reflexivity |]);
      vm_compute; reflexivity.
  - eexists. split; [vm_compute; reflexivity |]. repeat split.
Qed.

(** C2 as stated fails on the sums: the first and the third confidence
    sum of that run are neither the double nor the float32 nearest to
    0.7 and 0.3: they are above 7/10 and 3/10 by 17/671088640 and
    3/671088640. *)
Lemma scenario_sums_not_exact :
  exists (b : buffers FloatScore) (s1 s2 s3 : float),
    run_models Scenario.w32 Scenario.args
      [Scenario.model_A; Scenario.model_B] (init_buffers 1 3) = Ok b
    /\ conf_buff b = [[s1; s2; s3]]
    /\ PrimFloat.eqb s1 Scenario.double_0_7 = false
    /\ PrimFloat.eqb s1 Scenario.single_0_7 = false
    /\ PrimFloat.eqb s3 Scenario.double_0_3 = false
    /\ PrimFloat.eqb s3 Scenario.single_0_3 = false
    /\ (exists q1, exact_value s1 = Some q1 /\ (q1 - (7 # 10) == 17 # 671088640)%Q)
    /\ (exists q3, exact_value s3 = Some q3 /\ (q3 - (3 # 10) == 3 # 671088640)%Q).
Proof.
  eexists. eexists. eexists. eexists.
  split; [vm_compute; reflexivity |].
  split; [reflexivity |].
  repeat (split; [reflexivity |]).
  split; eexists; (split; [vm_compute; reflexivity | reflexivity]).
Qed.

(** ** Exact scores *)

Lemma QScore_exact : ExactScore QScore.
Proof.
  constructor; simpl.
  - intros a b. unfold Qplus. f_equal; [ring | apply Pos.mul_comm].
  - intros [an ad] [bn bd] [cn cd]. unfold Qplus. simpl. f_equal.
    + rewrite !Pos2Z.inj_mul. ring.
    + symmetry. apply Pos.mul_assoc.
  - intros a b. destruct (Qlt_le_dec a b) as [H | H].
    + left. apply Qle_bool_iff. apply Qlt_le_weak. exact H.
    + right. apply Qle_bool_iff. exact H.
  - intros a b c Hab Hbc. apply Qle_bool_iff.
    apply Qle_trans with b; apply Qle_bool_iff; assumption.
  - reflexivity.
Qed.

(** ** The error monad *)

Lemma bind_ok {A B : Type} (c : result A) (k : A -> result B) (y : B) :
  bind c k = Ok y -> exists x, c = Ok x /\ k x = Ok y.
Proof.
  destruct c as [x | e]; simpl; intros H; [exists x; auto | discriminate].
Qed.

Ltac inv_bind H :=
  let x := fresh "x" in
  let Hx := fresh "Hx" in
  apply bind_ok in H; destruct H as (x & Hx & H).

Lemma mapM_length {A B : Type} (f : A -> result B) (l : list A) (l' : list B) :
  mapM f l = Ok l' -> List.length l' = List.length l.
Proof.
  revert l'. induction l as [| x l IH]; simpl; intros l' H.
  - inversion H. reflexivity.
  - inv_bind H. inv_bind H. inversion H. simpl. f_equal. apply IH. assumption.
Qed.

Lemma mapM_Forall2 {A B : Type} (f : A -> result B) (l : list A) (l' : list B) :
  mapM f l = Ok l' -> Forall2 (fun x y => f x = Ok y) l l'.
Proof.
  revert l'. induction l as [| x l IH]; simpl; intros l' H.
  - inversion H. constructor.
  - inv_bind H. inv_bind H. inversion H. constructor; auto.
Qed.

Lemma mapM_app {A B : Type} (f : A -> result B) (l1 l2 : list A) :
  mapM f (l1 ++ l2)
  = (ys1 <- mapM f l1 ;; ys2 <- mapM f l2 ;; Ok (ys1 ++ ys2)).
Proof.
  induction l1 as [| x l1 IH]; simpl.
  - destruct (mapM f l2); reflexivity.
  - destruct (f x) as [y | e]; simpl; [| reflexivity].
    rewrite IH. destruct (mapM f l1) as [ys1 | e]; simpl; [| reflexivity].
    destruct (mapM f l2); reflexivity.
Qed.

Lemma mapM_total {A B : Type} (f : A -> result B) (l : list A) :
  Forall (fun x => exists y, f x = Ok y) l -> exists l', mapM f l = Ok l'.
Proof.
  induction 1 as [| x l [y Hy] _ [l' Hl']]; simpl.
  - eexists; reflexivity.
  - rewrite Hy, Hl'. simpl. eexists; reflexivity.
Qed.

(** ** Binary64 scores *)

Lemma SFcompare_refl (x : spec_float) :
  x <> S754_nan -> SFcompare x x = Some Eq.
Proof.
  destruct x as [s | s | | s m e]; simpl; intros H; try congruence.
  - destruct s; reflexivity.
  - destruct s; rewrite Z.compare_refl;
      change (Pos.compare_cont Eq m m) with (Pos.compare m m);
      rewrite Pos.compare_refl; reflexivity.
Qed.

Lemma is_nan_spec (f : float) :
  PrimFloat.is_nan f = false <-> Prim2SF f <> S754_nan.
Proof.
  unfold PrimFloat.is_nan. rewrite eqb_spec. unfold SFeqb. split.
  - intros H E. rewrite E in H. simpl in H. discriminate.
  - intros H. rewrite SFcompare_refl by exact H. reflexivity.
Qed.

Lemma lex_spec (e1 : Z) (m1 : positive) (e2 : Z) (m2 : positive) :
  match lex e1 m1 e2 m2 with
  | Lt => (e1 < e2)%Z \/ (e1 = e2 /\ (m1 < m2)%positive)
  | Eq => e1 = e2 /\ m1 = m2
  | Gt => (e2 < e1)%Z \/ (e1 = e2 /\ (m2 < m1)%positive)
  end.
Proof.
  unfold lex. change (Pos.compare_cont Eq m1 m2) with (Pos.compare m1 m2).
  destruct (Z.compare_spec e1 e2); [| auto | auto].
  destruct (Pos.compare_spec m1 m2); auto.
Qed.

Lemma lex_opp (e1 : Z) (m1 : positive) (e2 : Z) (m2 : positive) :
  match Z.compare e1 e2 with
  | Lt => Gt
  | Gt => Lt
  | Eq => CompOpp (Pos.compare_cont Eq m1 m2)
  end = CompOpp (lex e1 m1 e2 m2).
Proof. unfold lex. destruct (Z.compare e1 e2); reflexivity. Qed.

Lemma SFcompare_finite (s1 s2 : bool) (m1 m2 : positive) (e1 e2 : Z) :
  SFcompare (S754_finite s1 m1 e1) (S754_finite s2 m2 e2)
  = Some match s1, s2 with
         | true, false => Lt
         | false, true => Gt
         | false, false => lex e1 m1 e2 m2
         | true, true => CompOpp (lex e1 m1 e2 m2)
         end.
Proof. destruct s1, s2; simpl; try reflexivity. rewrite lex_opp. reflexivity. Qed.

Lemma SFcompare_antisym (x y : spec_float) :
  SFcompare y x = option_map CompOpp (SFcompare x y).
Proof.
  destruct x as [s1 | s1 | | s1 m1 e1], y as [s2 | s2 | | s2 m2 e2];
    try reflexivity;
    try (destruct s1; reflexivity); try (destruct s2; reflexivity);
    try (destruct s1, s2; reflexivity).
  rewrite !SFcompare_finite.
  pose proof (lex_spec e1 m1 e2 m2). pose proof (lex_spec e2 m2 e1 m1).
  destruct s1, s2; simpl; try reflexivity;
    destruct (lex e1 m1 e2 m2), (lex e2 m2 e1 m1); simpl; try reflexivity;
    exfalso; lia.
Qed.

Lemma SFleb_total (x y : spec_float) :
  x <> S754_nan -> y <> S754_nan -> SFleb x y = true \/ SFleb y x = true.
Proof.
  intros Hx Hy. unfold SFleb. rewrite (SFcompare_antisym x y).
  destruct (SFcompare x y) as [[| |] |] eqn:E; simpl; auto.
  destruct x, y; simpl in E; try congruence.
Qed.

Ltac lex_cases :=
  repeat match goal with
         | |- context [lex ?e1 ?m1 ?e2 ?m2] =>
             let H := fresh "H" in
             pose proof (lex_spec e1 m1 e2 m2) as H;
             destruct (lex e1 m1 e2 m2)
         end.

Lemma SFleb_trans (x y z : spec_float) :
  SFleb x y = true -> SFleb y z = true -> SFleb x z = true.
Proof.
  unfold SFleb.
  destruct x as [s1 | s1 | | s1 m1 e1], y as [s2 | s2 | | s2 m2 e2],
           z as [s3 | s3 | | s3 m3 e3];
    rewrite ?SFcompare_finite;
    repeat match goal with s : bool |- _ => destruct s end;
    simpl; try discriminate; try reflexivity; try (intros; discriminate);
    lex_cases; simpl; try discriminate; try reflexivity;
    try (intros; discriminate); intros _ _; exfalso; lia.
Qed.

Lemma float_leb_total (a b : float) :
  PrimFloat.is_nan a = false -> PrimFloat.is_nan b = false ->
  PrimFloat.leb a b = true \/ PrimFloat.leb b a = true.
Proof.
  intros Ha Hb. rewrite !leb_spec. apply SFleb_total; apply is_nan_spec; assumption.
Qed.

Lemma float_leb_trans (a b c : float) :
  PrimFloat.leb a b = true -> PrimFloat.leb b c = true -> PrimFloat.leb a c = true.
Proof. rewrite !leb_spec. apply SFleb_trans. Qed.

Lemma SFadd_comm (x y : spec_float) : SF64add x y = SF64add y x.
Proof.
  unfold SF64add.
  destruct x as [s1 | s1 | | s1 m1 e1], y as [s2 | s2 | | s2 m2 e2];
    try reflexivity; try (destruct s1, s2; reflexivity).
  unfold SFadd. rewrite (Z.min_comm e1 e2). rewrite Z.add_comm. reflexivity.
Qed.

Lemma float_add_comm (a b : float) : PrimFloat.add a b = PrimFloat.add b a.
Proof. apply Prim2SF_inj. rewrite !add_spec. apply SFadd_comm. Qed.



Lemma FloatScore_ordered : OrderedScore FloatScore.
Proof.
  constructor; simpl.
  - apply float_leb_total.
  - apply float_leb_trans.
Qed.


Lemma ExactScore_ordered (SO : ScoreOps) : ExactScore SO -> OrderedScore SO.
Proof.
  intros ES. constructor.
  - intros a b _ _. apply s_le_total.
  - apply s_le_trans.
Qed.

Lemma ExactScore_swap (SO : ScoreOps) : ExactScore SO -> SwapScore SO.
Proof.
  intros ES. constructor. intros a b.
  rewrite !s_add_assoc. f_equal. apply s_add_comm.
Qed.

Section Argmax.

Context {SO : ScoreOps} {OS : OrderedScore SO}.

Lemma o_le_refl (x : score) : s_isnan x = false -> s_le x x = true.
Proof. intros H. destruct (o_le_total x x H H); assumption. Qed.

(** The scan, started after the prefix [pre] whose first maximum is
    [best] at [best_i], ends on the first maximum of the whole row. *)
Lemma max_scan_first_max (r pre : row) (best_i : nat) (best : score) :
  no_nan (pre ++ r) ->
  nth_error pre best_i = Some best ->
  (forall j y, nth_error pre j = Some y -> s_le y best = true) ->
  (forall j y, j < best_i -> nth_error pre j = Some y -> s_le best y = false) ->
  first_max (pre ++ r) (max_scan best_i best (List.length pre) r).
Proof.
  revert pre best_i best.
  induction r as [| value r IH]; intros pre best_i best Hnan Hnth Hmax Hfirst;
    simpl.
  - rewrite app_nil_r. exists best. auto.
  - assert (Hall : forall x, In x (pre ++ value :: r) -> s_isnan x = false)
      by (apply Forall_forall; exact Hnan).
    assert (Hb : s_isnan best = false).
    { apply Hall. apply in_or_app. left. eapply nth_error_In. exact Hnth. }
    assert (Hv : s_isnan value = false).
    { apply Hall. apply in_or_app. right. left. reflexivity. }
    rewrite Hb.
    replace (pre ++ value :: r) with ((pre ++ [value]) ++ r) in *
      by (rewrite <- app_assoc; reflexivity).
    replace (S (List.length pre)) with (List.length (pre ++ [value]))
      by (rewrite length_app; simpl; lia).
    destruct (s_le value best) eqn:Hle; simpl.
    + apply IH.
      * exact Hnan.
      * rewrite nth_error_app1; [exact Hnth |].
        apply nth_error_Some. congruence.
      * intros j y Hj.
        destruct (Nat.lt_ge_cases j (List.length pre)) as [Hlt | Hge].
        -- rewrite nth_error_app1 in Hj by exact Hlt. eauto.
        -- rewrite nth_error_app2 in Hj by exact Hge.
           destruct (j - List.length pre) as [| k]; simpl in Hj.
           ++ inversion Hj; subst. exact Hle.
           ++ destruct k; discriminate.
      * intros j y Hlt Hj.
        assert (best_i < List.length pre)
          by (apply nth_error_Some; congruence).
        rewrite nth_error_app1 in Hj by lia. eauto.
    + assert (Hbv : s_le best value = true)
        by (destruct (o_le_total best value Hb Hv); congruence).
      apply IH.
      * exact Hnan.
      * rewrite nth_error_app2 by lia. rewrite Nat.sub_diag. reflexivity.
      * intros j y Hj.
        destruct (Nat.lt_ge_cases j (List.length pre)) as [Hlt | Hge].
        -- rewrite nth_error_app1 in Hj by exact Hlt.
           apply o_le_trans with best; eauto.
        -- rewrite nth_error_app2 in Hj by exact Hge.
           destruct (j - List.length pre) as [| k]; simpl in Hj.
           ++ inversion Hj; subst. apply o_le_refl. exact Hv.
           ++ destruct k; discriminate.
      * intros j y Hlt Hj.
        rewrite nth_error_app1 in Hj by exact Hlt.
        destruct (s_le value y) eqn:Hvy; [| reflexivity].
        assert (s_le value best = true)
          by (apply o_le_trans with y; eauto).
        congruence.
Qed.

Lemma argmax_first_max (r : row) (i : nat) :
  no_nan r -> argmax r = Ok i -> first_max r i.
Proof.
  destruct r as [| value r]; simpl; [discriminate |].
  intros Hnan H. inversion H; subst.
  assert (Hv : s_isnan value = false) by (inversion Hnan; assumption).
  apply (max_scan_first_max r [value] 0 value).
  - exact Hnan.
  - reflexivity.
  - intros [| [| j]] y Hj; simpl in Hj; try discriminate.
    inversion Hj; subst. apply o_le_refl. exact Hv.
  - intros j y Hlt. lia.
Qed.

Lemma torch_max_first_max (t : list row) (ans_ids : list nat) :
  Forall no_nan t -> torch_max_dim1 t = Ok ans_ids -> Forall2 first_max t ans_ids.
Proof.
  intros Hnan H. apply mapM_Forall2 in H.
  induction H as [| r i t ids Hr _ IH]; constructor.
  - apply argmax_first_max; [| exact Hr]. inversion Hnan; assumption.
  - apply IH. inversion Hnan; assumption.
Qed.

End Argmax.

(** C6: every [torch.max] over a score vector -- the per-model top answer
    of line 81 on the float32 scores and the final one of line 89 on the
    binary64 sums -- returns the position of the first maximum of a row
    that holds no NaN, so an exact tie goes to the lowest vocabulary
    index; on such a row that is not empty it does return a position.
    The order of the scores is any [<=] that is transitive and total on
    the values that are not NaN, as that of binary64 is. *)
Theorem argmax_ties_lowest_index :
  forall (SO : ScoreOps), OrderedScore SO ->
    (forall (t : list row) (ans_ids : list nat),
        Forall no_nan t ->
        torch_max_dim1 t = Ok ans_ids -> Forall2 first_max t ans_ids)
    /\ (forall (v : nat) (conf : list row) (ans_ids : list nat),
        Forall no_nan conf ->
        final_argmax v conf = Ok ans_ids -> Forall2 first_max conf ans_ids)
    /\ (forall r : row,
        r <> [] -> no_nan r -> exists i, argmax r = Ok i /\ first_max r i).
Proof.
  intros SO OS. split; [apply torch_max_first_max |]. split.
  - intros v conf ans_ids Hnan H. unfold final_argmax in H.
    destruct (v =? 0); [discriminate |]. apply torch_max_first_max; assumption.
  - intros r Hr Hnan. destruct r as [| value r]; [congruence |].
    eexists. split; [reflexivity |].
    apply argmax_first_max; [exact Hnan | reflexivity].
Qed.

Lemma argmax_ties_lowest_index_witness :
  OrderedScore FloatScore
  /\ Forall (@no_nan FloatScore) [[0.5; 0.75; 0.75; 0.25]%float]
  /\ @torch_max_dim1 FloatScore [[0.5; 0.75; 0.75; 0.25]%float] = Ok [1]
  /\ Forall2 (@first_max FloatScore) [[0.5; 0.75; 0.75; 0.25]%float] [1].
Proof.
  split; [exact FloatScore_ordered |].
  assert (Hnan : Forall (@no_nan FloatScore) [[0.5; 0.75; 0.75; 0.25]%float])
    by (repeat constructor).
  split; [exact Hnan |]. split; [reflexivity |].
  apply (proj1 (argmax_ties_lowest_index FloatScore FloatScore_ordered)).
  - exact Hnan.
  - reflexivity.
Defined.

(** ** Catalog building *)

Lemma insert_by_group_length (e : entry) (l : list entry) :
  List.length (insert_by_group e l) = S (List.length l).
Proof.
  induction l as [| x l IH]; simpl; [reflexivity |].
  destruct (String.leb _ _); simpl; [reflexivity | rewrite IH; reflexivity].
Qed.

Lemma sorted_by_group_length (l : list entry) :
  List.length (sorted_by_group l) = List.length l.
Proof.
  induction l as [| x l IH]; simpl; [reflexivity |].
  rewrite insert_by_group_length, IH. reflexivity.
Qed.

Lemma build_catalog_length (d : string) (files : list string) (cat : list entry) :
  build_catalog d files = Ok cat ->
  1 < List.length cat
  /\ List.length cat = List.length (filter is_checkpoint files).
Proof.
  unfold build_catalog. intros H. inv_bind H.
  destruct (1 <? _) eqn:Hlen; [| discriminate].
  inversion H; subst. apply Nat.ltb_lt in Hlen. split; [exact Hlen |].
  rewrite sorted_by_group_length. eapply mapM_length; eassumption.
Qed.

Lemma build_catalog_few (d : string) (files : list string) :
  List.length (filter is_checkpoint files) < 2 ->
  exists e, build_catalog d files = Raise e.
Proof.
  intros Hfew. destruct (build_catalog d files) as [cat | e] eqn:H.
  - apply build_catalog_length in H. lia.
  - exists e. reflexivity.
Qed.

(** An error of the catalog builder stops [main_body] on the spot. *)
Lemma main_body_catalog_error {SO : ScoreOps} (w : world SO) (a : args_ns)
  (st : effects) (e : exn) :
  build_catalog (model_dir a) (os_listdir w (model_dir a)) = Raise e ->
  main_body w a st = (st, Raise e).
Proof.
  intros H. unfold main_body, bindM, liftR. rewrite H. reflexivity.
Qed.

(** C4: when fewer than two names of the listing end in [.pth.tar], the
    run stops with an exception and the effects are what they were: no
    model has run and no file was created or changed.  This holds for
    the body of [main] from line 34 on, and for [main] itself. *)
Theorem too_few_checkpoints_abort :
  forall (SO : ScoreOps) (w : world SO) (a : args_ns) (st : effects),
    List.length (filter is_checkpoint (os_listdir w (model_dir a))) < 2 ->
    (exists e, main_body w a st = (st, Raise e))
    /\ (exists e, main w st = (st, Raise e)).
Proof.
  intros SO w a st Hfew. split.
  - destruct (build_catalog_few (model_dir a) _ Hfew) as [e He].
    exists e. apply main_body_catalog_error. exact He.
  - eexists. reflexivity.
Qed.

Lemma too_few_checkpoints_abort_witness :
  List.length (filter is_checkpoint ["A-Net-80.pth.tar"; "README.md"]) < 2
  /\ exists e,
       main_body
         (@mk_world QScore Scenario.args
            (fun _ => ["A-Net-80.pth.tar"; "README.md"]) 1 [1%Z]
            Scenario.itoa Scenario.scores (fun _ => None))
         Scenario.args no_effects = (no_effects, Raise e).
Proof.
  split; [simpl; lia |].
  apply (too_few_checkpoints_abort QScore
           (@mk_world QScore Scenario.args
              (fun _ => ["A-Net-80.pth.tar"; "README.md"]) 1 [1%Z]
              Scenario.itoa Scenario.scores (fun _ => None))
           Scenario.args no_effects).
  simpl. lia.
Defined.

Lemma parse_checkpoint_malformed (d f : string) :
  malformed f ->
  exists msg, parse_checkpoint d f = Raise (ValueError msg)
    /\ ((exists got, got < 3 /\ ValueError msg = unpack_error got)
        \/ (exists acc_text,
               msg = "invalid literal for int() with base 10: "
                     +++ py_repr acc_text)).
Proof.
  unfold malformed, parse_checkpoint.
  destruct (split (rsplit_head f "."%char 2) "-"%char)
    as [| g [| n [| t rest]]] eqn:Hsplit; simpl;
    intros [Hlen | (g' & n' & t' & rest' & Heq & Hint)];
    try discriminate; try lia;
    try (eexists; split; [reflexivity | left; eexists; split; [| reflexivity]; lia]).
  inversion Heq; subst. unfold int_of_str. rewrite Hint. simpl.
  eexists. split; [reflexivity |]. right. eexists. reflexivity.
Qed.

Lemma parse_checkpoint_error (d f : string) (e : exn) :
  parse_checkpoint d f = Raise e -> malformed f.
Proof.
  unfold malformed, parse_checkpoint.
  destruct (split (rsplit_head f "."%char 2) "-"%char)
    as [| g [| n [| t rest]]] eqn:Hsplit; simpl; intros H;
    try (left; lia).
  right. exists g, n, t, rest. split; [reflexivity |].
  unfold int_of_str in H. destruct (parse_int t); [discriminate | reflexivity].
Qed.

(** [mapM] raises what its first failing element raises. *)
Lemma mapM_first_error {A B : Type} (f : A -> result B) (l : list A) :
  (exists x e, In x l /\ f x = Raise e) ->
  exists x e, In x l /\ f x = Raise e /\ mapM f l = Raise e.
Proof.
  induction l as [| y l IH]; intros (x & e & Hin & Hx); [destruct Hin |].
  simpl. destruct (f y) as [z | e'] eqn:Hy.
  - destruct Hin as [-> | Hin]; [congruence |].
    destruct IH as (x' & e'' & Hin' & Hx' & Hm); [eauto |].
    exists x', e''. rewrite Hm. simpl. auto.
  - exists y, e'. simpl. auto.
Qed.





(** ** Writing the two result files *)


Lemma fs_read_write_other (fs : list (string * string))
  (name other content : string) :
  name <> other ->
  fs_read (fs_write fs name content) other = fs_read fs other.
Proof.
  intros Hne. induction fs as [| [n c] fs IH]; simpl.
  - destruct (String.eqb name other) eqn:Hn; [| reflexivity].
    apply String.eqb_eq in Hn. contradiction.
  - destruct (String.eqb n name) eqn:Hn; simpl.
    + apply String.eqb_eq in Hn. subst n.
      destruct (String.eqb name other) eqn:Ho; [| reflexivity].
      apply String.eqb_eq in Ho. contradiction.
    + rewrite IH. reflexivity.
Qed.

Lemma append_cancel_l (a b c : string) : a +++ b = a +++ c -> b = c.
Proof.
  induction a as [| x a IH]; simpl; intros H; [exact H |].
  inversion H. auto.
Qed.


(** *** The pieces of [json.dump] and the buffer of the file object *)

Lemma append_assoc (a b c : string) : (a +++ b) +++ c = a +++ b +++ c.
Proof. induction a as [| x a IH]; simpl; [reflexivity | rewrite IH; reflexivity]. Qed.

Lemma append_length (a b : string) :
  String.length (a +++ b) = String.length a + String.length b.
Proof. induction a as [| x a IH]; simpl; [reflexivity | rewrite IH; reflexivity]. Qed.

Lemma join_pieces_app (p q : list string) :
  join_pieces (p ++ q) = join_pieces p +++ join_pieces q.
Proof.
  induction p as [| x p IH]; simpl; [reflexivity |].
  rewrite IH, append_assoc. reflexivity.
Qed.

Lemma join_object_chunks (o : answer_obj) :
  join_pieces (json_object_chunks o) = json_object o.
Proof. reflexivity. Qed.

Lemma join_list_chunks (o : answer_obj) (l : list answer_obj) (buf : string) :
  join_pieces (json_list_chunks buf (o :: l))
  = buf +++ String.concat ", " (map json_object (o :: l)) +++ "]".
Proof.
  revert o buf. induction l as [| o' l IH]; intros o buf.
  - cbn [json_list_chunks join_pieces fold_right map String.concat].
    change (fold_right String.append EmptyString (json_object_chunks o ++ ["]"]))
      with (join_pieces (json_object_chunks o ++ ["]"])).
    rewrite join_pieces_app, join_object_chunks. reflexivity.
  - change (json_list_chunks buf (o :: o' :: l))
      with (buf :: json_object_chunks o ++ json_list_chunks ", " (o' :: l)).
    cbn [join_pieces fold_right].
    change (fold_right String.append EmptyString
              (json_object_chunks o ++ json_list_chunks ", " (o' :: l)))
      with (join_pieces (json_object_chunks o ++ json_list_chunks ", " (o' :: l))).
    rewrite join_pieces_app, join_object_chunks, IH.
    change (String.concat ", " (map json_object (o :: o' :: l)))
      with (json_object o +++ ", "
            +++ String.concat ", " (map json_object (o' :: l))).
    rewrite !append_assoc. reflexivity.
Qed.

(** The pieces written by [json.dump] make up the text of [json.dumps]. *)
Lemma join_json_chunks (l : list answer_obj) :
  join_pieces (json_chunks l) = json_dumps l.
Proof.
  destruct l as [| o l]; [reflexivity |].
  unfold json_chunks, json_dumps. apply join_list_chunks.
Qed.

Lemma join_pieces_length (pieces : list string) :
  String.length (join_pieces pieces) = pieces_length pieces.
Proof.
  induction pieces as [| p pieces IH]; simpl; [reflexivity |].
  rewrite append_length, IH. reflexivity.
Qed.

Lemma json_chunks_length (l : list answer_obj) :
  pieces_length (json_chunks l) = String.length (json_dumps l).
Proof. rewrite <- join_pieces_length, join_json_chunks. reflexivity. Qed.


(** What reaches the device during the writes is part of the text. *)
Lemma flush_scan_bound (pieces : list string) :
  forall sent pending : nat,
    flush_scan sent pending pieces <= sent + pending + pieces_length pieces.
Proof.
  induction pieces as [| p pieces IH]; intros sent pending; simpl; [lia |].
  destruct (chunk_size <? pending + String.length p).
  - specialize (IH (sent + (pending + String.length p)) 0). lia.
  - specialize (IH sent (pending + String.length p)). lia.
Qed.

Section Dump.

Context {SO : ScoreOps}.

Lemma dump_to_effects (w : world SO) (fname : string) (obj : list answer_obj)
  (st st' : effects) (r : result unit) :
  dump_to w fname obj st = (st', r) ->
  trace st' = trace st
  /\ forall f, f <> fname -> fs_read (files st') f = fs_read (files st) f.
Proof.
  unfold dump_to. intros H.
  destruct (io_fault w fname) as [k |];
    [destruct (k <? String.length (json_dumps obj)) |];
    inversion H; subst; simpl; (split; [reflexivity |]);
    intros f Hf; apply fs_read_write_other; congruence.
Qed.



Lemma dump_to_flushed (obj : list answer_obj) (k : nat) :
  k < flush_scan 0 0 (json_chunks obj) -> k < String.length (json_dumps obj).
Proof.
  intros H. pose proof (flush_scan_bound (json_chunks obj) 0 0) as Hb.
  rewrite json_chunks_length in Hb. lia.
Qed.

End Dump.




(** The long text: on the evaluation set of 300 questions the writes of
    [result-conf.json] hand the device 8193 of the 11292 characters
    before [json.dump] returns, so the device that takes five characters
    makes the run raise, with those five characters under the final name
    and no [result-vote.json]. *)
Example long_text_raises :
  exists (st' : effects) (text : string),
    main_body Faults.w_long Scenario.args no_effects = (st', Raise no_space)
    /\ fs_read (files st') "out/result-conf.json" = Some text
    /\ String.length text = 5
    /\ fs_read (files st') "out/result-vote.json" = None
    /\ exists conf_result vote_result,
         ensemble Faults.w_long Scenario.args
           [Scenario.model_A; Scenario.model_B] = Ok (conf_result, vote_result)
         /\ N.of_nat (String.length (json_dumps conf_result)) = 11292%N
         /\ N.of_nat (flush_scan 0 0 (json_chunks conf_result)) = 8193%N.
Proof.
  eexists. eexists. split; [vm_compute; reflexivity |].
  split; [reflexivity |]. split; [reflexivity |]. split; [reflexivity |].
  eexists. eexists. split; [vm_compute; reflexivity |].
  split; vm_compute; reflexivity.
Qed.


(** ** The vote tally *)

Lemma keys_dict_set_old (v : tally) (k : string) (x : Z) :
  In k (keys v) -> keys (dict_set v k x) = keys v.
Proof.
  induction v as [| [k' x'] v IH]; simpl; intros Hin; [destruct Hin |].
  destruct (String.eqb k' k) eqn:Hk; simpl; [reflexivity |].
  f_equal. apply IH. destruct Hin as [-> | Hin]; [| exact Hin].
  rewrite String.eqb_refl in Hk. discriminate.
Qed.

Lemma keys_dict_set_new (v : tally) (k : string) (x : Z) :
  ~ In k (keys v) -> keys (dict_set v k x) = keys v ++ [k].
Proof.
  induction v as [| [k' x'] v IH]; simpl; intros Hnin; [reflexivity |].
  destruct (String.eqb k' k) eqn:Hk; simpl.
  - apply String.eqb_eq in Hk. tauto.
  - f_equal. apply IH. tauto.
Qed.

Lemma keys_cast_vote (acc : Z) (v : tally) (k : string) :
  (In k (keys v) /\ keys (cast_vote acc v k) = keys v)
  \/ (~ In k (keys v) /\ keys (cast_vote acc v k) = keys v ++ [k]).
Proof.
  unfold cast_vote. destruct (in_dec string_dec k (keys v)) as [Hin | Hnin].
  - left. split; [exact Hin | apply keys_dict_set_old; exact Hin].
  - right. split; [exact Hnin | apply keys_dict_set_new; exact Hnin].
Qed.

Lemma cast_vote_not_empty (acc : Z) (v : tally) (k : string) :
  cast_vote acc v k <> [].
Proof.
  unfold cast_vote. destruct v as [| [k' x'] v]; simpl; [discriminate |].
  destruct (String.eqb k' k); discriminate.
Qed.

Lemma dict_get_split (l1 l2 : tally) (a : string) (x d : Z) :
  ~ In a (keys l1) -> dict_get (l1 ++ (a, x) :: l2) a d = x.
Proof.
  induction l1 as [| [k' x'] l1 IH]; simpl; intros Hnin.
  - rewrite String.eqb_refl. reflexivity.
  - destruct (String.eqb k' a) eqn:Hk.
    + apply String.eqb_eq in Hk. tauto.
    + apply IH. tauto.
Qed.

Lemma total_weight_dict_set (v : tally) (k : string) (x : Z) :
  total_weight (dict_set v k x) = (total_weight v - dict_get v k 0 + x)%Z.
Proof.
  induction v as [| [k' x'] v IH]; simpl; [lia |].
  destruct (String.eqb k' k); simpl; [lia | rewrite IH; lia].
Qed.

Lemma total_weight_cast_vote (acc : Z) (v : tally) (k : string) :
  total_weight (cast_vote acc v k) = (total_weight v + acc)%Z.
Proof. unfold cast_vote. rewrite total_weight_dict_set. lia. Qed.

Lemma cast_votes_snoc (votes : list (string * Z)) (k : string) (acc : Z) :
  cast_votes (votes ++ [(k, acc)]) = cast_vote acc (cast_votes votes) k.
Proof. unfold cast_votes. rewrite fold_left_app. reflexivity. Qed.

(** [max] returns the first item of greatest weight: the items before it
    weigh strictly less, the items after it weigh no more. *)
Lemma max_by_weight_first (items l1 mid : tally) (best : string * Z) :
  (forall p, In p l1 -> (snd p < snd best)%Z) ->
  (forall p, In p mid -> (snd p <= snd best)%Z) ->
  exists l1' l2',
    l1 ++ best :: mid ++ items = l1' ++ max_by_weight best items :: l2'
    /\ (forall p, In p l1' -> (snd p < snd (max_by_weight best items))%Z)
    /\ (forall p, In p l2' -> (snd p <= snd (max_by_weight best items))%Z).
Proof.
  revert l1 mid best.
  induction items as [| it items IH]; intros l1 mid best Hl1 Hmid; simpl.
  - exists l1, mid. rewrite app_nil_r. auto.
  - destruct (snd best <? snd it)%Z eqn:Hlt.
    + apply Z.ltb_lt in Hlt.
      destruct (IH (l1 ++ best :: mid) [] it) as (l1' & l2' & Heq & H1 & H2).
      * intros p Hp. apply in_app_or in Hp.
        destruct Hp as [Hp | [<- | Hp]]; [apply Hl1 in Hp | | apply Hmid in Hp]; lia.
      * intros p [].
      * exists l1', l2'. split; [| auto].
        rewrite <- Heq. rewrite <- app_assoc. reflexivity.
    + apply Z.ltb_ge in Hlt.
      destruct (IH l1 (mid ++ [it]) best) as (l1' & l2' & Heq & H1 & H2).
      * exact Hl1.
      * intros p Hp. apply in_app_or in Hp.
        destruct Hp as [Hp | [<- | []]]; [apply Hmid; exact Hp | exact Hlt].
      * exists l1', l2'. split; [| auto].
        rewrite <- Heq. rewrite <- app_assoc. reflexivity.
Qed.

Lemma top_vote_first (v : tally) (a : string) :
  top_vote v = Ok a ->
  exists l1 x l2,
    v = l1 ++ (a, x) :: l2
    /\ (forall p, In p l1 -> (snd p < x)%Z)
    /\ (forall p, In p l2 -> (snd p <= x)%Z).
Proof.
  unfold top_vote, most_common_1. destruct v as [| it v]; [discriminate |].
  destruct (max_by_weight it v) as [k x] eqn:Hmax. intros H. inversion H; subst k.
  destruct (max_by_weight_first v [] [] it) as (l1 & l2 & Heq & H1 & H2);
    try (intros p []).
  rewrite Hmax in *. simpl in *. exists l1, x, l2. auto.
Qed.

Lemma top_vote_total (v : tally) : v <> [] -> exists a, top_vote v = Ok a.
Proof.
  unfold top_vote, most_common_1. destruct v as [| it v]; [congruence |].
  intros _. destruct (max_by_weight it v) as [k x]. exists k. reflexivity.
Qed.

(** *** Insertion order is the order of the first votes *)

Lemma find_index_bound {A : Type} (p : A -> bool) (l : list A) (i : nat) :
  find_index p l = Some i -> i < List.length l.
Proof.
  revert i. induction l as [| x l IH]; simpl; intros i H; [discriminate |].
  destruct (p x); [inversion H; lia |].
  destruct (find_index p l) as [j |]; [| discriminate].
  inversion H. specialize (IH j eq_refl). lia.
Qed.

Lemma find_index_snoc {A : Type} (p : A -> bool) (l : list A) (x : A) :
  find_index p (l ++ [x])
  = match find_index p l with
    | Some i => Some i
    | None => if p x then Some (List.length l) else None
    end.
Proof.
  induction l as [| y l IH]; simpl.
  - destruct (p x); reflexivity.
  - destruct (p y); [reflexivity |]. rewrite IH.
    destruct (find_index p l); simpl; [reflexivity |].
    destruct (p x); reflexivity.
Qed.

Lemma list_last_case {A : Type} (l : list A) :
  l = [] \/ exists l' x, l = l' ++ [x].
Proof.
  destruct l as [| y l]; [left; reflexivity | right].
  destruct (exists_last (l := y :: l)) as (l' & x & H); [discriminate |].
  eauto.
Qed.

Lemma cast_votes_order (votes : list (string * Z)) :
  NoDup (keys (cast_votes votes))
  /\ (forall k, In k (keys (cast_votes votes)) <-> first_vote votes k <> None)
  /\ (forall k1 a k2 b,
         keys (cast_votes votes) = k1 ++ a :: k2 -> In b k2 ->
         exists i j, first_vote votes a = Some i
                     /\ first_vote votes b = Some j /\ i < j).
Proof.
  induction votes as [| [k acc] votes (Hnd & Hin & Hord)] using rev_ind.
  - split; [constructor |]. split.
    + intros k. unfold first_vote. simpl. split; [tauto | intros H; congruence].
    + intros [| ? ?] a k2 b H; discriminate.
  - rewrite cast_votes_snoc. unfold first_vote in *.
    assert (Hfv : forall x,
               find_index (fun p => String.eqb (fst p) x) (votes ++ [(k, acc)])
               = match find_index (fun p => String.eqb (fst p) x) votes with
                 | Some i => Some i
                 | None => if String.eqb k x then Some (List.length votes) else None
                 end)
      by (intros x; rewrite find_index_snoc; reflexivity).
    destruct (keys_cast_vote acc (cast_votes votes) k) as [[Hk Hkeys] | [Hk Hkeys]];
      rewrite Hkeys.
    + split; [exact Hnd |]. split.
      * intros x. rewrite Hfv. rewrite Hin.
        destruct (find_index (fun p => String.eqb (fst p) x) votes) eqn:Hf;
          [split; congruence |].
        destruct (String.eqb k x) eqn:Hkx; [| tauto].
        apply String.eqb_eq in Hkx. subst x. apply Hin in Hk. congruence.
      * intros k1 a k2 b Heq Hb.
        destruct (Hord k1 a k2 b Heq Hb) as (i & j & Hi & Hj & Hlt).
        exists i, j. rewrite !Hfv, Hi, Hj. auto.
    + assert (Hnone : find_index (fun p => String.eqb (fst p) k) votes = None).
      { destruct (find_index (fun p => String.eqb (fst p) k) votes) eqn:Hf;
          [| reflexivity].
        exfalso. apply Hk. apply Hin. congruence. }
      split.
      { apply NoDup_app; [exact Hnd | repeat constructor; intros [] |].
        intros x Hx [<- | []]. contradiction. }
      split.
      * intros x. rewrite Hfv, in_app_iff, Hin. simpl.
        destruct (find_index (fun p => String.eqb (fst p) x) votes) eqn:Hf.
        -- split; [congruence | left; congruence].
        -- destruct (String.eqb k x) eqn:Hkx.
           ++ apply String.eqb_eq in Hkx. split; [intros _; discriminate | auto].
           ++ apply String.eqb_neq in Hkx. split; [| congruence].
              intros [H | [H | []]]; congruence.
      * intros k1 a k2 b Heq Hb.
        destruct (list_last_case k2) as [-> | (k2' & y & ->)]; [destruct Hb |].
        change (k1 ++ a :: k2' ++ [y]) with (k1 ++ (a :: k2') ++ [y]) in Heq.
        rewrite app_assoc in Heq. apply app_inj_tail in Heq.
        destruct Heq as [Heq <-].
        assert (Ha : In a (keys (cast_votes votes)))
          by (rewrite Heq; apply in_elt).
        apply Hin in Ha.
        destruct (find_index (fun p => String.eqb (fst p) a) votes) as [i |] eqn:Hi;
          [| congruence].
        apply in_app_or in Hb. destruct Hb as [Hb | [<- | []]].
        -- destruct (Hord k1 a k2' b Heq Hb) as (i' & j & Hi' & Hj & Hlt).
           exists i', j. rewrite !Hfv, Hi, Hj. split; [congruence | auto].
        -- exists i, (List.length votes). rewrite !Hfv, Hi, Hnone.
           rewrite String.eqb_refl.
           split; [reflexivity |]. split; [reflexivity |].
           eapply find_index_bound; eassumption.
Qed.


(** ** One inference pass *)

Section Pass.

Context {SO : ScoreOps}.

Lemma radd_length (x r : row) : List.length (radd x r) = List.length x.
Proof.
  revert r. induction x as [| a x IH]; intros [| b r]; simpl; auto.
Qed.

Lemma iadd_at_length (conf : list row) (start : nat) (rows : list row) :
  List.length (iadd_at conf start rows) = List.length conf.
Proof.
  revert start rows.
  induction conf as [| c conf IH]; intros [| s] [| r rows]; simpl; auto.
Qed.

Lemma iadd_at_nil (conf : list row) (start : nat) :
  iadd_at conf start [] = conf.
Proof.
  revert start. induction conf as [| c conf IH]; intros [| s]; simpl;
    try reflexivity.
  f_equal. apply IH.
Qed.

Lemma iadd_at_widths (v : nat) (conf : list row) (start : nat) (rows : list row) :
  Forall (fun c => List.length c = v) conf ->
  Forall (fun c => List.length c = v) (iadd_at conf start rows).
Proof.
  intros H. revert start rows.
  induction H as [| c conf Hc H IH]; intros [| s] [| r rows]; simpl;
    try constructor; auto.
  rewrite radd_length. exact Hc.
Qed.

(** Two slices that follow each other are one slice. *)
Lemma iadd_at_app (conf : list row) (start : nat) (r1 r2 : list row) :
  iadd_at (iadd_at conf start r1) (start + List.length r1) r2
  = iadd_at conf start (r1 ++ r2).
Proof.
  revert start r1.
  induction conf as [| c conf IH]; intros start r1; [reflexivity |].
  destruct start as [| s].
  - destruct r1 as [| r r1]; simpl; [reflexivity |].
    f_equal. apply (IH 0 r1).
  - simpl. f_equal. apply IH.
Qed.

Lemma vote_at_length (acc : Z) (vote : list tally) (start : nat)
  (answers : list string) :
  List.length (vote_at acc vote start answers) = List.length vote.
Proof.
  revert start answers.
  induction vote as [| v vote IH]; intros [| s] [| ans answers]; simpl; auto.
Qed.

Lemma vote_at_nil (acc : Z) (vote : list tally) (start : nat) :
  vote_at acc vote start [] = vote.
Proof.
  revert start. induction vote as [| v vote IH]; intros [| s]; simpl;
    try reflexivity.
  f_equal. apply IH.
Qed.

Lemma vote_at_app (acc : Z) (vote : list tally) (start : nat)
  (a1 a2 : list string) :
  vote_at acc (vote_at acc vote start a1) (start + List.length a1) a2
  = vote_at acc vote start (a1 ++ a2).
Proof.
  revert start a1.
  induction vote as [| v vote IH]; intros start a1; [reflexivity |].
  destruct start as [| s].
  - destruct a1 as [| ans a1]; simpl; [reflexivity |].
    f_equal. apply (IH 0 a1).
  - simpl. f_equal. apply IH.
Qed.

Lemma vote_at_step (acc : Z) (vote : list tally) (pos : nat) (v : tally)
  (ans : string) (answers : list string) :
  nth_error vote pos = Some v ->
  vote_at acc (list_set vote pos (cast_vote acc v ans)) (S pos) answers
  = vote_at acc vote pos (ans :: answers).
Proof.
  revert pos. induction vote as [| v0 vote IH]; intros [| p] H; simpl in *;
    try discriminate.
  - inversion H; subst. reflexivity.
  - f_equal. apply IH. exact H.
Qed.

Lemma list_set_length {A : Type} (l : list A) (i : nat) (x : A) :
  List.length (list_set l i x) = List.length l.
Proof.
  revert i. induction l as [| y l IH]; intros [| i]; simpl; auto.
Qed.

Lemma list_get_ok {A : Type} (l : list A) (i : nat) (x : A) :
  list_get l i = Ok x <-> nth_error l i = Some x.
Proof.
  unfold list_get. destruct (nth_error l i); split; intros H;
    inversion H; reflexivity.
Qed.

Lemma list_get_lt {A : Type} (l : list A) (i : nat) :
  i < List.length l -> exists x, list_get l i = Ok x.
Proof.
  intros H. unfold list_get. destruct (nth_error l i) as [x |] eqn:E.
  - exists x. reflexivity.
  - apply nth_error_None in E. lia.
Qed.

(** The loop of lines 82-85 casts one vote per row, in the tallies from
    [pos] on. *)
Lemma vote_rows_spec (itoa : list string) (acc : Z) (ans_ids : list nat) :
  forall (vote : list tally) (pos : nat) (vote' : list tally),
    vote_rows itoa acc vote pos ans_ids = Ok vote' ->
    exists answers,
      mapM (list_get itoa) ans_ids = Ok answers
      /\ vote' = vote_at acc vote pos answers
      /\ (ans_ids <> [] -> pos + List.length ans_ids <= List.length vote).
Proof.
  induction ans_ids as [| ans_id rest IH]; intros vote pos vote' H; simpl in H.
  - assert (vote' = vote) by (inversion H; reflexivity). subst vote'.
    exists []. split; [reflexivity |]. split.
    + symmetry. apply vote_at_nil.
    + congruence.
  - inv_bind H. rename x into ans, Hx into Hans.
    inv_bind H. rename x into v, Hx into Hv.
    apply IH in H. destruct H as (answers & Hmap & Hvote & Hlen).
    exists (ans :: answers). simpl. rewrite Hans, Hmap. simpl.
    apply list_get_ok in Hv.
    split; [reflexivity |]. split.
    + rewrite Hvote. apply vote_at_step. exact Hv.
    + intros _. assert (pos < List.length vote)
        by (apply nth_error_Some; congruence).
      destruct rest as [| r rest']; simpl; [lia |].
      rewrite list_set_length in Hlen. specialize (Hlen ltac:(discriminate)).
      simpl in Hlen. lia.
Qed.

Lemma vote_rows_total (itoa : list string) (acc : Z) (ans_ids : list nat) :
  forall (vote : list tally) (pos : nat) (answers : list string),
    mapM (list_get itoa) ans_ids = Ok answers ->
    pos + List.length ans_ids <= List.length vote ->
    vote_rows itoa acc vote pos ans_ids = Ok (vote_at acc vote pos answers).
Proof.
  induction ans_ids as [| ans_id rest IH]; intros vote pos answers Hmap Hlen;
    simpl in *.
  - inversion Hmap; subst. rewrite vote_at_nil. reflexivity.
  - inv_bind Hmap. rename x into ans, Hx into Hans.
    inv_bind Hmap. inversion Hmap; subst. rewrite Hans. simpl.
    destruct (list_get_lt vote pos) as [v Hv]; [lia |].
    rewrite Hv. simpl. rewrite (IH _ _ x Hx).
    + f_equal. apply vote_at_step. apply list_get_ok. exact Hv.
    + rewrite list_set_length. lia.
Qed.


Lemma conf_iadd_spec (v : nat) (conf : list row) (start : nat) (sc conf' : list row) :
  conf_iadd v conf start sc = Ok conf' ->
  conf' = iadd_at conf start (map (bcast v) sc).
Proof.
  unfold conf_iadd. destruct (_ && _); intros H; inversion H. reflexivity.
Qed.


Lemma conf_iadd_total (v : nat) (conf : list row) (start : nat) (sc : list row) :
  start + List.length sc <= List.length conf ->
  Forall (fun r => List.length r = v) sc ->
  conf_iadd v conf start sc = Ok (iadd_at conf start (map (bcast v) sc)).
Proof.
  intros Hlen Hw. unfold conf_iadd.
  replace (Nat.min (List.length sc) (List.length conf - start))
    with (List.length sc) by lia.
  rewrite Nat.eqb_refl. simpl.
  replace (forallb _ sc) with true; [reflexivity |].
  symmetry. apply forallb_forall. intros r Hr.
  rewrite Forall_forall in Hw. rewrite (Hw r Hr), Nat.eqb_refl. reflexivity.
Qed.

Lemma top_answers_app (itoa : list string) (r1 r2 : list row)
  (a1 a2 : list string) :
  top_answers itoa r1 = Ok a1 -> top_answers itoa r2 = Ok a2 ->
  top_answers itoa (r1 ++ r2) = Ok (a1 ++ a2).
Proof.
  unfold top_answers, torch_max_dim1. intros H1 H2.
  inv_bind H1. inv_bind H2. rewrite mapM_app, Hx, Hx0. simpl.
  rewrite mapM_app, H1, H2. reflexivity.
Qed.

Lemma top_answers_length (itoa : list string) (rows : list row)
  (answers : list string) :
  top_answers itoa rows = Ok answers -> List.length answers = List.length rows.
Proof.
  unfold top_answers, torch_max_dim1. intros H. inv_bind H.
  apply mapM_length in H, Hx. congruence.
Qed.

Lemma top_answers_in_vocabulary (itoa : list string) (rows : list row)
  (answers : list string) :
  top_answers itoa rows = Ok answers -> Forall (fun ans => In ans itoa) answers.
Proof.
  unfold top_answers. intros H. inv_bind H. apply mapM_Forall2 in H.
  clear Hx. induction H as [| i ans ids answers Hi _ IH]; [constructor |].
  constructor; [| exact IH].
  apply list_get_ok in Hi. eapply nth_error_In. exact Hi.
Qed.

(** The batches of a pass, taken together: the rows of all batches are
    added to the confidence buffer from [start] on, and each row casts
    one vote. *)
Lemma batches_spec (itoa : list string) (acc : Z) (scs : list (list row)) :
  forall (start : nat) (b : buffers SO) (st' : nat * buffers SO),
    foldM (batch_step itoa acc) (start, b) scs = Ok st' ->
    fst st' = start + List.length (List.concat scs)
    /\ conf_buff (snd st')
       = iadd_at (conf_buff b) start
           (map (bcast (List.length itoa)) (List.concat scs))
    /\ exists answers,
         top_answers itoa (List.concat scs) = Ok answers
         /\ vote_buff (snd st') = vote_at acc (vote_buff b) start answers.
Proof.
  induction scs as [| sc scs IH]; intros start b st' H; simpl in H.
  - inversion H; subst. simpl. split; [lia |]. split.
    + symmetry. apply iadd_at_nil.
    + exists []. split; [reflexivity |].
      symmetry. apply vote_at_nil.
  - inv_bind H. destruct x as [start1 b1]. unfold batch_step in Hx.
    inv_bind Hx. rename x into conf1, Hx0 into Hconf.
    inv_bind Hx. rename x into ans_ids, Hx0 into Hmax.
    inv_bind Hx. rename x into vote1, Hx0 into Hvote.
    inversion Hx; subst start1 b1. clear Hx.
    apply IH in H. simpl in H.
    destruct H as (Hfst & Hc & answers2 & Htop2 & Hv).
    apply conf_iadd_spec in Hconf.
    apply vote_rows_spec in Hvote.
    destruct Hvote as (answers1 & Hmap1 & Hvote & _).
    assert (Htop1 : top_answers itoa sc = Ok answers1).
    { unfold top_answers. rewrite Hmax. simpl. exact Hmap1. }
    assert (Hlen1 : List.length answers1 = List.length sc)
      by (eapply top_answers_length; eassumption).
    simpl. rewrite length_app, map_app. split; [lia |]. split.
    + rewrite Hc, Hconf. rewrite <- iadd_at_app, length_map. reflexivity.
    + exists (answers1 ++ answers2). split.
      * apply top_answers_app; assumption.
      * rewrite Hv, Hvote. rewrite <- vote_at_app, Hlen1. reflexivity.
Qed.


End Pass.

(** ** The loop over the catalog *)

Lemma chunks_concat (fuel n : nat) :
  0 < n ->
  forall l : list nat, List.length l <= fuel -> List.concat (chunks fuel n l) = l.
Proof.
  intros Hn. induction fuel as [| fuel IH]; intros l Hlen.
  - destruct l; [reflexivity | simpl in Hlen; lia].
  - destruct l as [| x l]; [reflexivity |].
    change (chunks (S fuel) n (x :: l))
      with (firstn n (x :: l) :: chunks fuel n (skipn n (x :: l))).
    simpl List.concat. rewrite IH.
    + apply firstn_skipn.
    + rewrite length_skipn. lia.
Qed.

Lemma concat_map_length {A B : Type} (f : list A -> list B) (ls : list (list A)) :
  (forall l, List.length (f l) = List.length l) ->
  List.length (List.concat (map f ls)) = List.length (List.concat ls).
Proof.
  intros Hf. induction ls as [| l ls IH]; simpl; [reflexivity |].
  rewrite !length_app, Hf, IH. reflexivity.
Qed.

Lemma Forall2_compose {A B C : Type} (R : A -> B -> Prop) (S : B -> C -> Prop)
  (l1 : list A) (l2 : list B) (l3 : list C) :
  Forall2 R l1 l2 -> Forall2 S l2 l3 ->
  Forall2 (fun a c => exists b, R a b /\ S b c) l1 l3.
Proof.
  intros H. revert l3. induction H as [| a b l1 l2 Hab _ IH]; intros l3 H3;
    inversion H3; subst; constructor; eauto.
Qed.

Lemma Forall2_repeat_l {A B : Type} (R : A -> B -> Prop) (x : A) (n : nat)
  (l : list B) :
  Forall2 R (repeat x n) l -> Forall (R x) l /\ List.length l = n.
Proof.
  revert l. induction n as [| n IH]; simpl; intros l H; inversion H; subst.
  - split; [constructor | reflexivity].
  - destruct (IH _ H4) as [Hall Hlen]. split; [constructor; assumption |].
    simpl. congruence.
Qed.

Lemma total_weight_votes (model_info : list entry) :
  forall (answers : list string) (v : tally),
    List.length answers = List.length model_info ->
    total_weight (fold_left vote_step (combine answers (map model_acc model_info)) v)
    = (total_weight v + sum_acc model_info)%Z.
Proof.
  induction model_info as [| e l IH]; intros [| ans answers] v Hlen;
    simpl in *; try discriminate; try lia.
  rewrite IH by lia. unfold vote_step. simpl.
  rewrite total_weight_cast_vote. lia.
Qed.

Lemma keys_votes (votes : list (string * Z)) :
  forall (v : tally) (k : string),
    In k (keys (fold_left vote_step votes v)) ->
    In k (keys v) \/ In k (map fst votes).
Proof.
  induction votes as [| [ans acc] votes IH]; intros v k H; simpl in *; [auto |].
  apply IH in H. destruct H as [H | H]; [| auto].
  unfold vote_step in H. simpl in H.
  destruct (keys_cast_vote acc v ans) as [[_ Hk] | [_ Hk]]; rewrite Hk in H;
    [auto |].
  apply in_app_or in H. destruct H as [H | [H | []]]; auto.
Qed.

Lemma fold_votes_not_empty (votes : list (string * Z)) (v : tally) :
  votes <> [] -> fold_left vote_step votes v <> [].
Proof.
  destruct votes as [| p votes _] using rev_ind; [congruence |].
  intros _. rewrite fold_left_app. simpl. apply cast_vote_not_empty.
Qed.

Section Run.

Context {SO : ScoreOps}.

Lemma vote_at_full (acc : Z) (vote : list tally) :
  forall answers : list string,
    List.length answers = List.length vote ->
    Forall2 (fun v v' => exists ans, In ans answers /\ v' = cast_vote acc v ans)
            vote (vote_at acc vote 0 answers).
Proof.
  induction vote as [| v vote IH]; intros [| ans answers] Hlen; simpl in *;
    try discriminate; constructor.
  - exists ans. auto.
  - eapply Forall2_impl; [| apply IH; lia].
    intros t t' (ans' & Hin & Heq). exists ans'. auto.
Qed.

Lemma model_pass_spec (w : world SO) (a : args_ns) (b b' : buffers SO) (e : entry) :
  model_pass w a b e = Ok b' ->
  (0 < bs a)%Z
  /\ conf_buff b'
     = iadd_at (conf_buff b) 0
         (map (bcast (List.length (codebook_itoa w))) (all_rows w a e))
  /\ exists answers,
       top_answers (codebook_itoa w) (all_rows w a e) = Ok answers
       /\ vote_buff b' = vote_at (model_acc e) (vote_buff b) 0 answers.
Proof.
  unfold model_pass, all_rows, data_loader. intros H.
  destruct (bs a <=? 0)%Z eqn:Hbs; [discriminate |].
  apply Z.leb_gt in Hbs. simpl in H. inv_bind H. inversion H; subst b'.
  apply batches_spec in Hx. destruct Hx as (_ & Hc & Hv).
  split; [exact Hbs |]. split; assumption.
Qed.

Lemma model_pass_lengths (w : world SO) (a : args_ns) (b b' : buffers SO)
  (e : entry) :
  model_pass w a b e = Ok b' ->
  List.length (conf_buff b') = List.length (conf_buff b)
  /\ List.length (vote_buff b') = List.length (vote_buff b).
Proof.
  intros H. apply model_pass_spec in H.
  destruct H as (_ & -> & answers & _ & ->).
  rewrite iadd_at_length, vote_at_length. auto.
Qed.

Lemma model_pass_widths (w : world SO) (a : args_ns) (b b' : buffers SO)
  (e : entry) (v : nat) :
  model_pass w a b e = Ok b' ->
  Forall (fun c => List.length c = v) (conf_buff b) ->
  Forall (fun c => List.length c = v) (conf_buff b').
Proof.
  intros H Hw. apply model_pass_spec in H. destruct H as (_ & -> & _).
  apply iadd_at_widths. exact Hw.
Qed.


Lemma run_models_lengths (w : world SO) (a : args_ns) (model_info : list entry) :
  forall b b' : buffers SO,
    run_models w a model_info b = Ok b' ->
    List.length (conf_buff b') = List.length (conf_buff b)
    /\ List.length (vote_buff b') = List.length (vote_buff b).
Proof.
  unfold run_models.
  induction model_info as [| e l IH]; intros b b' H; simpl in H.
  - inversion H. auto.
  - inv_bind H. apply IH in H. apply model_pass_lengths in Hx.
    destruct H, Hx. split; congruence.
Qed.

Lemma run_models_widths (w : world SO) (a : args_ns) (model_info : list entry)
  (v : nat) :
  forall b b' : buffers SO,
    run_models w a model_info b = Ok b' ->
    Forall (fun c => List.length c = v) (conf_buff b) ->
    Forall (fun c => List.length c = v) (conf_buff b').
Proof.
  unfold run_models.
  induction model_info as [| e l IH]; intros b b' H Hw; simpl in H.
  - inversion H; subst. exact Hw.
  - inv_bind H. eapply IH; [exact H |]. eapply model_pass_widths; eassumption.
Qed.

(** A scorer that returns one row per example covers the evaluation set
    once in a pass. *)
Lemma all_rows_length (w : world SO) (a : args_ns) (e : entry) :
  (0 < bs a)%Z -> one_row_per_example w e ->
  List.length (all_rows w a e) = dataset_len w.
Proof.
  intros Hbs Hrow. unfold all_rows, data_loader.
  destruct (bs a <=? 0)%Z eqn:E; [apply Z.leb_le in E; lia |].
  unfold model_scores. rewrite concat_map_length by exact Hrow.
  rewrite chunks_concat; [apply length_seq | lia | rewrite length_seq; lia].
Qed.

(** After the passes of [model_info], each tally holds one vote per
    entry, cast in catalog order for an answer of the vocabulary. *)
Lemma run_models_votes (w : world SO) (a : args_ns) (model_info : list entry) :
  forall b b' : buffers SO,
    run_models w a model_info b = Ok b' ->
    (forall e, In e model_info -> one_row_per_example w e) ->
    List.length (vote_buff b) = dataset_len w ->
    Forall2
      (fun v v' =>
         exists answers,
           List.length answers = List.length model_info
           /\ Forall (fun ans => In ans (codebook_itoa w)) answers
           /\ v' = fold_left vote_step
                     (combine answers (map model_acc model_info)) v)
      (vote_buff b) (vote_buff b').
Proof.
  unfold run_models.
  induction model_info as [| e l IH]; intros b b' H Hrows Hlen; simpl in H.
  - inversion H; subst b'. clear H Hlen Hrows.
    induction (vote_buff b) as [| v vs IHv]; [constructor |].
    constructor; [| exact IHv].
    exists []. simpl. auto.
  - inv_bind H. rename x into b1, Hx into Hpass.
    pose proof (model_pass_lengths _ _ _ _ _ Hpass) as [_ Hlen1].
    apply model_pass_spec in Hpass.
    destruct Hpass as (Hbs & _ & answers & Htop & Hvote).
    assert (Hcover : List.length answers = List.length (vote_buff b)).
    { rewrite (top_answers_length _ _ _ Htop), Hlen.
      apply all_rows_length; [exact Hbs |]. apply Hrows. left. reflexivity. }
    pose proof (vote_at_full (model_acc e) (vote_buff b) answers Hcover) as H1.
    rewrite <- Hvote in H1.
    assert (H2 := IH b1 b' H (fun e' He' => Hrows e' (or_intror He'))
                     ltac:(congruence)).
    eapply Forall2_impl; [| exact (Forall2_compose _ _ _ _ _ H1 H2)].
    intros v v' (v1 & (ans & Hans & ->) & (rest & Hrl & Hrv & ->)).
    exists (ans :: rest). simpl. split; [congruence |].
    split; [| reflexivity]. constructor; [| exact Hrv].
    pose proof (top_answers_in_vocabulary _ _ _ Htop) as Hvoc.
    rewrite Forall_forall in Hvoc. apply Hvoc. exact Hans.
Qed.

Lemma Forall2_nth_error_r {A B : Type} (R : A -> B -> Prop) (l : list A)
  (l' : list B) (i : nat) (y : B) :
  Forall2 R l l' -> nth_error l' i = Some y ->
  exists x, nth_error l i = Some x /\ R x y.
Proof.
  intros H. revert i. induction H as [| x0 y0 l l' Hxy _ IH]; intros i Hi.
  - destruct i; discriminate.
  - destruct i as [| i]; simpl in *.
    + inversion Hi; subst. eauto.
    + apply IH. exact Hi.
Qed.

Lemma vote_at_nth (acc : Z) (vote : list tally) :
  forall (answers : list string) (i : nat) (v' : tally),
    List.length answers = List.length vote ->
    nth_error (vote_at acc vote 0 answers) i = Some v' ->
    exists v ans,
      nth_error vote i = Some v /\ nth_error answers i = Some ans
      /\ v' = cast_vote acc v ans.
Proof.
  induction vote as [| v vote IH]; intros [| ans answers] i v' Hlen H;
    simpl in *; try discriminate.
  - destruct i; discriminate.
  - destruct i as [| i]; simpl in *.
    + inversion H; subst. eauto.
    + apply IH; [lia | exact H].
Qed.

Lemma top_answers_nth (itoa : list string) (rows : list row)
  (answers : list string) (i : nat) (ans : string) :
  top_answers itoa rows = Ok answers ->
  nth_error answers i = Some ans ->
  exists (r : row) (ans_id : nat),
    nth_error rows i = Some r /\ argmax r = Ok ans_id
    /\ nth_error itoa ans_id = Some ans.
Proof.
  unfold top_answers, torch_max_dim1. intros H Hi. inv_bind H.
  apply mapM_Forall2 in Hx, H.
  destruct (Forall2_nth_error_r _ _ _ _ _ H Hi) as (ans_id & Hid & Hget).
  destruct (Forall2_nth_error_r _ _ _ _ _ Hx Hid) as (r & Hr & Harg).
  exists r, ans_id. split; [exact Hr |]. split; [exact Harg |].
  apply list_get_ok. exact Hget.
Qed.

(** After the passes of [model_info], the tally of the sample at
    position [i] has taken one vote per entry, in catalog order, each
    for the entry's top-scoring answer on that sample. *)
Lemma run_models_votes_at (w : world SO) (a : args_ns) (model_info : list entry) :
  forall (b b' : buffers SO),
    run_models w a model_info b = Ok b' ->
    (forall e, In e model_info -> one_row_per_example w e) ->
    List.length (vote_buff b) = dataset_len w ->
    forall (i : nat) (v' : tally),
      nth_error (vote_buff b') i = Some v' ->
      exists (v : tally) (answers : list string),
        nth_error (vote_buff b) i = Some v
        /\ Forall2 (fun e ans => top_answer_at w a e i ans) model_info answers
        /\ v' = fold_left vote_step
                  (combine answers (map model_acc model_info)) v.
Proof.
  unfold run_models.
  induction model_info as [| e l IH]; intros b b' H Hrows Hlen i v' Hi;
    simpl in H.
  - inversion H; subst b'. exists v', []. split; [exact Hi |].
    split; [constructor | reflexivity].
  - inv_bind H. rename x into b1, Hx into Hpass.
    pose proof (model_pass_lengths _ _ _ _ _ Hpass) as [_ Hlen1].
    destruct (IH b1 b' H (fun e' He' => Hrows e' (or_intror He'))
                ltac:(congruence) i v' Hi) as (v1 & rest & Hv1 & Hrest & ->).
    apply model_pass_spec in Hpass.
    destruct Hpass as (Hbs & _ & answers & Htop & Hvote).
    assert (Hcover : List.length answers = List.length (vote_buff b)).
    { rewrite (top_answers_length _ _ _ Htop), Hlen.
      apply all_rows_length; [exact Hbs |]. apply Hrows. left. reflexivity. }
    rewrite Hvote in Hv1.
    destruct (vote_at_nth _ _ _ _ _ Hcover Hv1) as (v & ans & Hv & Hans & ->).
    exists v, (ans :: rest). split; [exact Hv |]. split; [| reflexivity].
    constructor; [| exact Hrest].
    destruct (top_answers_nth _ _ _ _ _ Htop Hans) as (r & ans_id & Hr & Ha & Hg).
    exists r, ans_id. auto.
Qed.

(** On rows without NaN the [torch.max] position is that of the first
    maximum. *)
Lemma top_answer_is_top_scoring {OS : OrderedScore SO} (w : world SO)
  (a : args_ns) (e : entry) (i : nat) (ans : string) :
  Forall no_nan (all_rows w a e) ->
  top_answer_at w a e i ans -> top_scoring_at w a e i ans.
Proof.
  intros Hnan (r & ans_id & Hr & Harg & Hget).
  exists r, ans_id. split; [exact Hr |]. split; [| exact Hget].
  apply argmax_first_max; [| exact Harg].
  rewrite Forall_forall in Hnan. apply Hnan. eapply nth_error_In. exact Hr.
Qed.

End Run.

(** C7: after the passes of the first [k] catalog entries, each of which
    returns one score row per example, every sample has a tally, and the
    tally of the sample at position [i] is what one vote per entry makes
    of the empty tally: in catalog order, each entry votes for its
    top-scoring answer on that sample with its accuracy as weight: the
    vocabulary entry at the [torch.max] position of its score row, which
    on rows without NaN is the position of the first maximum.  So the
    weights of a tally add up to the sum of those accuracies, and every
    key of a tally is a vocabulary answer. *)
Theorem tally_one_vote_per_entry :
  forall (SO : ScoreOps) (w : world SO) (a : args_ns)
         (model_info : list entry) (k : nat) (b : buffers SO),
    run_models w a (firstn k model_info)
      (init_buffers (dataset_len w) (List.length (codebook_itoa w))) = Ok b ->
    (forall e, In e (firstn k model_info) -> one_row_per_example w e) ->
    List.length (vote_buff b) = dataset_len w
    /\ (forall (i : nat) (v : tally),
           nth_error (vote_buff b) i = Some v ->
           (exists answers,
               Forall2 (fun e ans => top_answer_at w a e i ans)
                 (firstn k model_info) answers
               /\ v = cast_votes
                        (combine answers (map model_acc (firstn k model_info))))
           /\ total_weight v = sum_acc (firstn k model_info)
           /\ forall ans, In ans (keys v) -> In ans (codebook_itoa w))
    /\ (OrderedScore SO ->
        (forall e, In e (firstn k model_info) -> Forall no_nan (all_rows w a e)) ->
        forall (i : nat) (v : tally),
          nth_error (vote_buff b) i = Some v ->
          exists answers,
            Forall2 (fun e ans => top_scoring_at w a e i ans)
              (firstn k model_info) answers
            /\ v = cast_votes
                     (combine answers (map model_acc (firstn k model_info)))).
Proof.
  intros SO w a model_info k b Hrun Hrows.
  set (prefix := firstn k model_info) in *.
  pose proof (run_models_lengths w a prefix _ _ Hrun) as [_ Hlen].
  simpl in Hlen. rewrite repeat_length in Hlen.
  split; [exact Hlen |].
  assert (Hvotes : forall (i : nat) (v : tally),
             nth_error (vote_buff b) i = Some v ->
             exists answers,
               Forall2 (fun e ans => top_answer_at w a e i ans) prefix answers
               /\ v = cast_votes (combine answers (map model_acc prefix))).
  { intros i v Hi.
    destruct (run_models_votes_at w a prefix _ _ Hrun Hrows
                ltac:(simpl; apply repeat_length) i v Hi)
      as (v0 & answers & Hv0 & Htops & ->).
    simpl in Hv0. apply nth_error_In in Hv0. apply repeat_spec in Hv0.
    subst v0. exists answers. split; [exact Htops | reflexivity]. }
  split; [| intros OS Hnan i v Hi;
            destruct (Hvotes i v Hi) as (answers & Htops & ->);
            exists answers; split; [| reflexivity];
            clear Hvotes Hrun Hrows Hi; revert Hnan;
            induction Htops as [| e ans l answers He _ IH]; intros Hnan;
            constructor;
            [apply top_answer_is_top_scoring;
             [apply Hnan; left; reflexivity | exact He]
            | apply IH; intros e' He'; apply Hnan; right; exact He']].
  intros i v Hi.
  destruct (Hvotes i v Hi) as (answers & Htops & ->).
  assert (Hal : List.length answers = List.length prefix)
    by (symmetry; eapply Forall2_length; exact Htops).
  split; [| split].
  - exists answers. split; [exact Htops | reflexivity].
  - unfold cast_votes. rewrite total_weight_votes by exact Hal. simpl. lia.
  - intros ans Hk. unfold cast_votes in Hk. apply keys_votes in Hk. destruct Hk as [[] | Hk].
    apply in_map_iff in Hk. destruct Hk as ([ans' acc] & Heq & Hin).
    simpl in Heq. subst ans'. apply in_combine_l in Hin.
    destruct (In_nth_error _ _ Hin) as [j Hj].
    destruct (Forall2_nth_error_r _ _ _ _ _ Htops Hj)
      as (e & _ & r & ans_id & _ & _ & Hg).
    eapply nth_error_In. exact Hg.
Qed.

Lemma scenario32_rows (e : entry) : one_row_per_example Scenario.w32 e.
Proof.
  intros batch. unfold Scenario.w32, Scenario.scores32. simpl.
  destruct (String.eqb (model_group_name e) "A"); apply length_map.
Qed.

Lemma tally_one_vote_per_entry_witness :
  run_models Scenario.w32 Scenario.args
    (firstn 2 [Scenario.model_A; Scenario.model_B])
    (init_buffers 1 3)
  = Ok (@mk_buffers FloatScore [[0x1.6666674p-1; 1; 0x1.3333338p-2]%float]
                   [[("no", 80%Z); ("yes", 60%Z)]])
  /\ (exists answers,
         Forall2 (fun e ans => top_answer_at Scenario.w32 Scenario.args e 0 ans)
           [Scenario.model_A; Scenario.model_B] answers
         /\ [("no", 80%Z); ("yes", 60%Z)]
            = cast_votes
                (combine answers
                   (map model_acc [Scenario.model_A; Scenario.model_B])))
  /\ total_weight [("no", 80%Z); ("yes", 60%Z)] = 140%Z
  /\ forall ans, In ans (keys [("no", 80%Z); ("yes", 60%Z)]) ->
                 In ans Scenario.itoa.
Proof.
  split; [vm_compute; reflexivity |].
  apply (proj1 (proj2 (tally_one_vote_per_entry FloatScore Scenario.w32 Scenario.args
                  [Scenario.model_A; Scenario.model_B] 2
                  (@mk_buffers FloatScore
                     [[0x1.6666674p-1; 1; 0x1.3333338p-2]%float]
                     [[("no", 80%Z); ("yes", 60%Z)]])
                  ltac:(vm_compute; reflexivity)
                  (fun e _ => scenario32_rows e)))
          0 [("no", 80%Z); ("yes", 60%Z)] eq_refl).
Defined.

(** ** A run that succeeds *)

Section Success.

Context {SO : ScoreOps}.

Lemma max_scan_bound (r : row) :
  forall (best_i : nat) (best : score) (i : nat),
    best_i < i -> max_scan best_i best i r < i + List.length r.
Proof.
  induction r as [| value r IH]; intros best_i best i Hlt; simpl; [lia |].
  destruct (s_isnan best); [lia |].
  destruct (negb (s_le value best)).
  - specialize (IH i value (S i) ltac:(lia)). lia.
  - specialize (IH best_i best (S i) ltac:(lia)). lia.
Qed.

Lemma argmax_bound (r : row) (i : nat) : argmax r = Ok i -> i < List.length r.
Proof.
  destruct r as [| value r]; simpl; intros H; inversion H.
  pose proof (max_scan_bound r 0 value 1 ltac:(lia)). lia.
Qed.

Lemma top_answers_total (itoa : list string) (rows : list row) :
  itoa <> [] ->
  Forall (fun r => List.length r = List.length itoa) rows ->
  exists answers, top_answers itoa rows = Ok answers.
Proof.
  intros Hne H. induction H as [| r rows Hr _ [answers IH]].
  - exists []. reflexivity.
  - assert (Hpos : 0 < List.length itoa)
      by (destruct itoa; [congruence | simpl; lia]).
    destruct r as [| value r]; [simpl in Hr; lia |].
    destruct (list_get_lt itoa (max_scan 0 value 1 r)) as [ans Hans].
    { rewrite <- Hr. apply argmax_bound. reflexivity. }
    exists ([ans] ++ answers).
    apply (top_answers_app itoa [value :: r] rows); [| exact IH].
    unfold top_answers. simpl. rewrite Hans. reflexivity.
Qed.

Lemma batches_total (itoa : list string) (acc : Z) (scs : list (list row)) :
  itoa <> [] ->
  Forall (Forall (fun r => List.length r = List.length itoa)) scs ->
  forall (start : nat) (b : buffers SO),
    start + List.length (List.concat scs) <= List.length (conf_buff b) ->
    start + List.length (List.concat scs) <= List.length (vote_buff b) ->
    exists st', foldM (batch_step itoa acc) (start, b) scs = Ok st'.
Proof.
  intros Hne H. induction H as [| sc scs Hsc _ IH]; intros start b Hc Hv;
    simpl in *.
  - eauto.
  - rewrite length_app in Hc, Hv.
    destruct (top_answers_total itoa sc Hne Hsc) as [answers Htop].
    unfold top_answers in Htop. inv_bind Htop. rename x into ans_ids.
    assert (Hids : List.length ans_ids = List.length sc)
      by (eapply mapM_length; exact Hx).
    rewrite conf_iadd_total by (unfold row in *; first [assumption | lia]).
    simpl.
    rewrite Hx. simpl.
    rewrite (vote_rows_total _ _ _ _ _ _ Htop) by (unfold row in *; lia).
    simpl. apply IH; simpl.
    + rewrite iadd_at_length. unfold row in *. lia.
    + rewrite vote_at_length. unfold row in *. lia.
Qed.

Lemma model_pass_total (w : world SO) (a : args_ns) (b : buffers SO) (e : entry) :
  (0 < bs a)%Z ->
  codebook_itoa w <> [] ->
  one_row_per_example w e ->
  rows_over_vocabulary w e ->
  List.length (conf_buff b) = dataset_len w ->
  List.length (vote_buff b) = dataset_len w ->
  exists b', model_pass w a b e = Ok b'.
Proof.
  intros Hbs Hne Hrow Hvoc Hc Hv.
  pose proof (all_rows_length w a e Hbs Hrow) as Hlen.
  unfold model_pass. unfold all_rows in Hlen.
  destruct (data_loader (dataset_len w) (bs a)) as [batches | err] eqn:Hdl.
  - simpl.
    destruct (batches_total (codebook_itoa w) (model_acc e)
                (model_scores w e batches) Hne) with (start := 0) (b := b)
      as [st' Hst']; try (simpl; lia).
    + unfold model_scores. apply Forall_forall. intros sc Hin.
      apply in_map_iff in Hin. destruct Hin as (batch & <- & _). apply Hvoc.
    + rewrite Hst'. simpl. eauto.
  - unfold data_loader in Hdl.
    destruct (bs a <=? 0)%Z eqn:E; [apply Z.leb_le in E; lia | discriminate].
Qed.

Lemma run_models_total (w : world SO) (a : args_ns) (model_info : list entry) :
  (0 < bs a)%Z ->
  codebook_itoa w <> [] ->
  (forall e, In e model_info ->
             one_row_per_example w e /\ rows_over_vocabulary w e) ->
  forall b : buffers SO,
    List.length (conf_buff b) = dataset_len w ->
    List.length (vote_buff b) = dataset_len w ->
    exists b', run_models w a model_info b = Ok b'.
Proof.
  intros Hbs Hne. unfold run_models.
  induction model_info as [| e l IH]; intros Hok b Hc Hv; simpl.
  - eauto.
  - destruct (Hok e (or_introl eq_refl)) as [Hrow Hvoc].
    destruct (model_pass_total w a b e Hbs Hne Hrow Hvoc Hc Hv) as [b1 H1].
    rewrite H1. simpl.
    destruct (model_pass_lengths _ _ _ _ _ H1) as [Hc1 Hv1].
    apply IH; [| congruence | congruence].
    intros e' He'. apply Hok. right. exact He'.
Qed.

Lemma combine_fst {A B : Type} (l : list A) (l' : list B) :
  List.length l <= List.length l' -> map fst (combine l l') = l.
Proof.
  revert l'. induction l as [| x l IH]; intros [| y l'] H; simpl in *;
    try reflexivity; try lia.
  f_equal. apply IH. lia.
Qed.

Lemma conf_answers_ids (itoa : list string) (ps : list (Z * nat))
  (conf_result : list answer_obj) :
  mapM (conf_answer itoa) ps = Ok conf_result ->
  map question_id conf_result = map fst ps.
Proof.
  revert conf_result. induction ps as [| p ps IH]; intros cr H; simpl in H.
  - inversion H. reflexivity.
  - inv_bind H. inv_bind H. inversion H; subst. simpl.
    unfold conf_answer in Hx. inv_bind Hx. inversion Hx; subst. simpl.
    f_equal. apply IH. exact Hx0.
Qed.

(** Both result lists carry the question ids of [que_id], in order. *)
Lemma finalize_ids (w : world SO) (b : buffers SO)
  (conf_result vote_result : list answer_obj) :
  finalize w b = Ok (conf_result, vote_result) ->
  List.length (conf_buff b) = List.length (que_id w) ->
  List.length (vote_buff b) = List.length (que_id w) ->
  map question_id conf_result = que_id w
  /\ map question_id vote_result = que_id w.
Proof.
  unfold finalize, final_argmax. intros H Hc Hv.
  inv_bind H. rename x into ans_ids, Hx into Hmax.
  inv_bind H. rename x into cr, Hx into Hcr.
  inv_bind H. rename x into votes, Hx into Hvotes.
  inversion H; subst. clear H.
  destruct (_ =? 0); [discriminate |].
  apply mapM_length in Hmax, Hvotes. split.
  - rewrite (conf_answers_ids _ _ _ Hcr). apply combine_fst. lia.
  - rewrite map_map. simpl. apply combine_fst. lia.
Qed.

Lemma finalize_total (w : world SO) (b : buffers SO) :
  codebook_itoa w <> [] ->
  Forall (fun c => List.length c = List.length (codebook_itoa w)) (conf_buff b) ->
  Forall (fun v : tally => v <> []) (vote_buff b) ->
  exists res, finalize w b = Ok res.
Proof.
  intros Hne Hw Hv. unfold finalize, final_argmax.
  assert (Hpos : 0 < List.length (codebook_itoa w))
    by (destruct (codebook_itoa w); [congruence | simpl; lia]).
  destruct (List.length (codebook_itoa w) =? 0) eqn:E;
    [apply Nat.eqb_eq in E; lia |].
  destruct (mapM_total argmax (conf_buff b)) as [ans_ids Hids].
  { eapply Forall_impl; [| exact Hw]. intros r Hr.
    destruct r as [| value r]; [simpl in Hr; lia |]. eexists. reflexivity. }
  unfold torch_max_dim1. rewrite Hids. simpl.
  assert (Hbound : Forall (fun i => i < List.length (codebook_itoa w)) ans_ids).
  { apply mapM_Forall2 in Hids. clear E Hv.
    induction Hids as [| r i rows ids Hri _ IH]; [constructor |].
    inversion Hw; subst. constructor; [| apply IH; assumption].
    apply argmax_bound in Hri. lia. }
  destruct (mapM_total (conf_answer (codebook_itoa w))
              (combine (que_id w) ans_ids)) as [cr Hcr].
  { apply Forall_forall. intros [q i] Hin. apply in_combine_r in Hin.
    rewrite Forall_forall in Hbound.
    destruct (list_get_lt (codebook_itoa w) i (Hbound i Hin)) as [ans Hans].
    unfold conf_answer. simpl. rewrite Hans. simpl. eauto. }
  rewrite Hcr. simpl.
  destruct (mapM_total top_vote (vote_buff b)) as [votes Hvotes].
  { eapply Forall_impl; [| exact Hv]. intros v. apply top_vote_total. }
  rewrite Hvotes. simpl. eauto.
Qed.

(** The loop with its trace agrees with the loop without. *)
Lemma accumulate_run (w : world SO) (a : args_ns) (model_info : list entry) :
  forall (b b' : buffers SO) (st : effects),
    run_models w a model_info b = Ok b' ->
    accumulate w a model_info b st
    = (mk_effects (files st) (trace st ++ map Inference model_info), Ok b').
Proof.
  unfold run_models.
  induction model_info as [| e l IH]; intros b b' st H; simpl in *.
  - inversion H; subst. unfold retM. rewrite app_nil_r. destruct st; reflexivity.
  - inv_bind H. unfold bindM, emit, liftR. rewrite Hx.
    rewrite (IH _ _ _ H). simpl. rewrite <- app_assoc. reflexivity.
Qed.

Lemma write_outputs_ok (w : world SO) (a : args_ns)
  (res : list answer_obj * list answer_obj) (st : effects) :
  (forall f, io_fault w f = None) ->
  write_outputs w a res st
  = (mk_effects
       (fs_write (fs_write (files st) (conf_fname a) (json_dumps (fst res)))
                 (vote_fname a) (json_dumps (snd res)))
       (trace st), Ok tt).
Proof.
  intros Hio. unfold write_outputs, bindM, dump_to. rewrite !Hio. reflexivity.
Qed.

End Success.

(** C8: whenever the ensemble returns its two lists for an evaluation
    set with one question id per sample, each list has one object per
    sample and its question ids are those of [que_id], in that order.
    And it does return them: for a catalog that [build_catalog] accepts
    (so, of two entries at least), a positive batch size, a vocabulary
    that is not empty, scorers that return one row per example with one
    score per answer, and writes that do not fail, the body of [main]
    runs every entry in catalog order and writes both lists into their
    files. *)
Theorem outputs_cover_sample_index :
  forall (SO : ScoreOps) (w : world SO) (a : args_ns),
    (forall (model_info : list entry)
            (conf_result vote_result : list answer_obj),
        ensemble w a model_info = Ok (conf_result, vote_result) ->
        List.length (que_id w) = dataset_len w ->
        map question_id conf_result = que_id w
        /\ map question_id vote_result = que_id w
        /\ List.length conf_result = dataset_len w
        /\ List.length vote_result = dataset_len w)
    /\ (forall (model_info : list entry) (st : effects),
           build_catalog (model_dir a) (os_listdir w (model_dir a))
             = Ok model_info ->
           (0 < bs a)%Z ->
           codebook_itoa w <> [] ->
           List.length (que_id w) = dataset_len w ->
           (forall e, In e model_info ->
                      one_row_per_example w e /\ rows_over_vocabulary w e) ->
           (forall f, io_fault w f = None) ->
           exists conf_result vote_result,
             ensemble w a model_info = Ok (conf_result, vote_result)
             /\ main_body w a st
                = (mk_effects
                     (fs_write
                        (fs_write (files st) (conf_fname a)
                                  (json_dumps conf_result))
                        (vote_fname a) (json_dumps vote_result))
                     (trace st ++ map Inference model_info), Ok tt)).
Proof.
  intros SO w a. split.
  - intros model_info cr vr H Hq. unfold ensemble in H. inv_bind H.
    rename x into b, Hx into Hrun.
    apply run_models_lengths in Hrun. simpl in Hrun.
    rewrite !repeat_length in Hrun. destruct Hrun as [Hc Hv].
    destruct (finalize_ids w b cr vr H) as [H1 H2]; try congruence.
    repeat split; try assumption.
    + rewrite <- Hq, <- H1 at 1. symmetry. apply length_map.
    + rewrite <- Hq, <- H2 at 1. symmetry. apply length_map.
  - intros model_info st Hcat Hbs Hne Hq Hok Hio.
    set (b0 := init_buffers (dataset_len w) (List.length (codebook_itoa w))).
    destruct (run_models_total w a model_info Hbs Hne Hok b0) as [b Hrun];
      try (simpl; apply repeat_length).
    assert (Hw : Forall (fun c => List.length c = List.length (codebook_itoa w))
                        (conf_buff b)).
    { eapply run_models_widths; [exact Hrun |]. simpl.
      apply Forall_forall. intros c Hc. apply repeat_spec in Hc. subst c.
      apply repeat_length. }
    assert (Hv : Forall (fun v : tally => v <> []) (vote_buff b)).
    { pose proof (run_models_votes w a model_info _ _ Hrun
                    (fun e He => proj1 (Hok e He))) as H.
      simpl in H. specialize (H (repeat_length _ _)).
      apply Forall2_repeat_l in H. destruct H as [H _].
      eapply Forall_impl; [| exact H].
      intros v (answers & Hal & _ & ->). apply fold_votes_not_empty.
      apply build_catalog_length in Hcat. destruct Hcat as [Hcat _].
      destruct answers as [| ans answers]; [simpl in Hal; lia |].
      destruct model_info as [| e l]; [simpl in Hcat; lia |]. discriminate. }
    destruct (finalize_total w b Hne Hw Hv) as [[cr vr] Hfin].
    exists cr, vr. split.
    + unfold ensemble. fold b0. rewrite Hrun. simpl. exact Hfin.
    + unfold main_body, bindM, liftR. rewrite Hcat. fold b0.
      rewrite (accumulate_run w a model_info b0 b st Hrun).
      rewrite Hfin. rewrite write_outputs_ok by exact Hio. reflexivity.
Qed.

Lemma outputs_cover_sample_index_witness :
  build_catalog (model_dir Scenario.args)
    (os_listdir Scenario.w (model_dir Scenario.args))
  = Ok [Scenario.model_A; Scenario.model_B]
  /\ exists conf_result vote_result,
       ensemble Scenario.w Scenario.args [Scenario.model_A; Scenario.model_B]
         = Ok (conf_result, vote_result)
       /\ main_body Scenario.w Scenario.args no_effects
          = (mk_effects
               (fs_write
                  (fs_write (files no_effects) (conf_fname Scenario.args)
                            (json_dumps conf_result))
                  (vote_fname Scenario.args) (json_dumps vote_result))
               (trace no_effects
                  ++ map Inference [Scenario.model_A; Scenario.model_B]),
             Ok tt).
Proof.
  split; [reflexivity |].
  apply (proj2 (outputs_cover_sample_index QScore Scenario.w Scenario.args)
           [Scenario.model_A; Scenario.model_B] no_effects).
  - reflexivity.
  - reflexivity.
  - discriminate.
  - reflexivity.
  - intros e _. split; intros batch; unfold Scenario.w, Scenario.scores; simpl;
      destruct (String.eqb (model_group_name e) "A");
      try apply length_map;
      apply Forall_forall; intros r Hr; apply in_map_iff in Hr;
      destruct Hr as (i & <- & _); reflexivity.
  - reflexivity.
Defined.

(** ** Reordering the catalog *)

Section Reorder.

Context {SO : ScoreOps} {ES : ExactScore SO}.




End Reorder.

Section ReorderVotes.

Context {SO : ScoreOps}.









End ReorderVotes.

Section ReorderRun.

Context {SO : ScoreOps} {ES : ExactScore SO}.




End ReorderRun.

Section ReorderFirstTwo.

Context {SO : ScoreOps} {SS : SwapScore SO}.

Lemma radd_nil_r (x : row) : radd x [] = x.
Proof. destruct x; reflexivity. Qed.





End ReorderFirstTwo.



(** The pairs of the three checkpoints below, in both orders. *)
Example two_entries_either_order :
  map (fun l => option_map fst
                  (match ensemble Rounding.w Rounding.args l with
                   | Ok res => Some res
                   | Raise _ => None
                   end))
    [[Rounding.model_A; Rounding.model_B]; [Rounding.model_B; Rounding.model_A];
     [Rounding.model_A; Rounding.model_C]; [Rounding.model_C; Rounding.model_A];
     [Rounding.model_B; Rounding.model_C]; [Rounding.model_C; Rounding.model_B]]
  = [Some [mk_answer 7 "yes"]; Some [mk_answer 7 "yes"];
     Some [mk_answer 7 "no"]; Some [mk_answer 7 "no"];
     Some [mk_answer 7 "no"]; Some [mk_answer 7 "no"]].
Proof. vm_compute. reflexivity. Qed.


(** ** Ties in the vote *)

Lemma top_vote_two_equal (a b : string) (acc : Z) :
  a <> b -> top_vote (cast_vote acc (cast_vote acc [] a) b) = Ok a.
Proof.
  intros Hab. unfold cast_vote, top_vote. simpl.
  destruct (String.eqb a b) eqn:E; [apply String.eqb_eq in E; contradiction |].
  simpl. rewrite Z.add_0_r, Z.ltb_irrefl. reflexivity.
Qed.

Lemma combine_snd {A B : Type} (l : list A) (l' : list B) :
  List.length l' <= List.length l -> map snd (combine l l') = l'.
Proof.
  revert l'. induction l as [| x l IH]; intros [| y l'] H; simpl in *;
    try reflexivity; try lia.
  f_equal. apply IH. lia.
Qed.

Section TwoModels.

Context {SO : ScoreOps}.

Lemma two_passes_votes (acc : Z) (as1 as2 : list string) :
  Forall2 (fun x y : string => x <> y) as1 as2 ->
  mapM top_vote
    (vote_at acc (vote_at acc (repeat [] (List.length as1)) 0 as1) 0 as2)
  = Ok as1.
Proof.
  induction 1 as [| a1 a2 as1 as2 Hne _ IH]; [reflexivity |].
  simpl. rewrite (top_vote_two_equal a1 a2 acc Hne). simpl.
  rewrite IH. reflexivity.
Qed.

(** Two entries of equal accuracy whose top answers differ on every
    sample: the vote result is the first entry's answers. *)
Lemma two_models_tie (w : world SO) (a : args_ns) (e1 e2 : entry)
  (conf_result vote_result : list answer_obj) (as1 as2 : list string) :
  ensemble w a [e1; e2] = Ok (conf_result, vote_result) ->
  model_acc e1 = model_acc e2 ->
  one_row_per_example w e1 ->
  top_answers (codebook_itoa w) (all_rows w a e1) = Ok as1 ->
  top_answers (codebook_itoa w) (all_rows w a e2) = Ok as2 ->
  Forall2 (fun x y : string => x <> y) as1 as2 ->
  List.length (que_id w) = dataset_len w ->
  map answer vote_result = as1.
Proof.
  intros H Hacc Hrow H1 H2 Hne Hq. unfold ensemble, run_models in H.
  inv_bind H. rename x into b, Hx into Hrun. simpl in Hrun.
  inv_bind Hrun. rename x into b1, Hx into Hp1.
  inv_bind Hrun. rename x into b2, Hx into Hp2.
  inversion Hrun; subst b2. clear Hrun.
  apply model_pass_spec in Hp1, Hp2.
  destruct Hp1 as (Hbs & _ & as1' & Ht1 & Hv1).
  destruct Hp2 as (_ & _ & as2' & Ht2 & Hv2).
  assert (as1' = as1) by congruence. assert (as2' = as2) by congruence.
  subst as1' as2'.
  assert (Hlen : List.length as1 = dataset_len w).
  { rewrite (top_answers_length _ _ _ H1).
    apply all_rows_length; assumption. }
  simpl in Hv1. rewrite <- Hlen in Hv1.
  rewrite Hv1, <- Hacc in Hv2.
  unfold finalize in H.
  inv_bind H. inv_bind H. inv_bind H. rename x1 into votes, Hx1 into Hvotes.
  inversion H; subst. clear H.
  rewrite Hv2, two_passes_votes in Hvotes by exact Hne.
  inversion Hvotes; subst votes.
  rewrite map_map. simpl. apply combine_snd. lia.
Qed.

(** The run succeeds on a catalog that is not empty, for a positive batch
    size, a vocabulary that is not empty and scorers that return one row
    per example with one score per answer. *)
Lemma ensemble_total (w : world SO) (a : args_ns) (model_info : list entry) :
  model_info <> [] ->
  (0 < bs a)%Z ->
  codebook_itoa w <> [] ->
  (forall e, In e model_info ->
             one_row_per_example w e /\ rows_over_vocabulary w e) ->
  exists conf_result vote_result,
    ensemble w a model_info = Ok (conf_result, vote_result).
Proof.
  intros Hcat Hbs Hne Hok.
  set (b0 := init_buffers (dataset_len w) (List.length (codebook_itoa w))).
  destruct (run_models_total w a model_info Hbs Hne Hok b0) as [b Hrun];
    try (simpl; apply repeat_length).
  assert (Hw : Forall (fun c => List.length c = List.length (codebook_itoa w))
                      (conf_buff b)).
  { eapply run_models_widths; [exact Hrun |]. simpl.
    apply Forall_forall. intros c Hc. apply repeat_spec in Hc. subst c.
    apply repeat_length. }
  assert (Hv : Forall (fun v : tally => v <> []) (vote_buff b)).
  { pose proof (run_models_votes w a model_info _ _ Hrun
                  (fun e He => proj1 (Hok e He))) as H.
    simpl in H. specialize (H (repeat_length _ _)).
    apply Forall2_repeat_l in H. destruct H as [H _].
    eapply Forall_impl; [| exact H].
    intros v (answers & Hal & _ & ->). apply fold_votes_not_empty.
    destruct answers as [| ans answers];
      [destruct model_info; [congruence | discriminate] |].
    destruct model_info as [| e l]; [congruence | discriminate]. }
  destruct (finalize_total w b Hne Hw Hv) as [[cr vr] Hfin].
  exists cr, vr. unfold ensemble. fold b0. rewrite Hrun. simpl. exact Hfin.
Qed.

Lemma ensemble_ids (w : world SO) (a : args_ns) (model_info : list entry)
  (conf_result vote_result : list answer_obj) :
  ensemble w a model_info = Ok (conf_result, vote_result) ->
  List.length (que_id w) = dataset_len w ->
  map question_id conf_result = que_id w
  /\ map question_id vote_result = que_id w.
Proof.
  intros H Hq. unfold ensemble in H. inv_bind H.
  rename x into b, Hx into Hrun.
  apply run_models_lengths in Hrun. simpl in Hrun.
  rewrite !repeat_length in Hrun. destruct Hrun as [Hc Hv].
  apply (finalize_ids w b conf_result vote_result H); congruence.
Qed.

Lemma nth_error_combine_r {A B : Type} (l : list A) (l' : list B) (i : nat)
  (p : A * B) :
  nth_error (combine l l') i = Some p -> nth_error l' i = Some (snd p).
Proof.
  revert l' i. induction l as [| x l IH]; intros [| y l'] i H; simpl in H;
    try (destruct i; discriminate).
  destruct i as [| i]; simpl in *; [inversion H; reflexivity | eauto].
Qed.

(** The vote answer of the sample at position [i] is the result of
    [most_common] on the tally that the entries' top-scoring answers for
    that sample make, cast in catalog order. *)
Lemma ensemble_votes (w : world SO) (a : args_ns) (model_info : list entry)
  (conf_result vote_result : list answer_obj) :
  ensemble w a model_info = Ok (conf_result, vote_result) ->
  (forall e, In e model_info -> one_row_per_example w e) ->
  forall (i : nat) (o : answer_obj),
    nth_error vote_result i = Some o ->
    exists answers,
      Forall2 (fun e ans => top_answer_at w a e i ans) model_info answers
      /\ top_vote (cast_votes (combine answers (map model_acc model_info)))
         = Ok (answer o).
Proof.
  intros H Hrows i o Hi. unfold ensemble in H. inv_bind H.
  rename x into b, Hx into Hrun. unfold finalize in H.
  inv_bind H. inv_bind H. inv_bind H. rename x1 into votes, Hx1 into Hvotes.
  inversion H; subst conf_result vote_result. clear H.
  rewrite nth_error_map in Hi.
  destruct (nth_error (combine (que_id w) votes) i) as [p |] eqn:Hp;
    [| discriminate].
  simpl in Hi. inversion Hi; subst o. clear Hi.
  apply nth_error_combine_r in Hp. simpl.
  apply mapM_Forall2 in Hvotes.
  destruct (Forall2_nth_error_r _ _ _ _ _ Hvotes Hp) as (v & Hv & Htop).
  destruct (run_models_votes_at w a model_info _ _ Hrun Hrows
              ltac:(simpl; apply repeat_length) i v Hv)
    as (v0 & answers & Hv0 & Htops & ->).
  simpl in Hv0. apply nth_error_In in Hv0. apply repeat_spec in Hv0. subst v0.
  exists answers. split; [exact Htops | exact Htop].
Qed.

End TwoModels.

(** C1: when several answers of a tally share the greatest weight, the
    vote result is the one among them that entered the tally first,
    which is the one whose first voter comes first in catalog order; a
    tally with at least one vote does give a result; and two votes of
    equal weight for different answers leave the first answer.  The run
    of a catalog does produce its vote result, and the vote answer of
    each sample is that result for the tally that the entries'
    top-scoring answers make in catalog order.  For a catalog of two
    entries of equal accuracy whose top answers differ on every sample,
    the run produces the answers of the entry processed first. *)
Theorem vote_tie_goes_to_first_inserted :
  (forall (votes : list (string * Z)) (a : string),
      top_vote (cast_votes votes) = Ok a ->
      let v := cast_votes votes in
      (forall b x, In (b, x) v -> (x <= dict_get v a 0)%Z)
      /\ (forall b,
             b <> a -> In b (keys v) -> dict_get v b 0 = dict_get v a 0 ->
             (exists k1 k2, keys v = k1 ++ a :: k2 /\ In b k2)
             /\ exists i j, first_vote votes a = Some i
                            /\ first_vote votes b = Some j /\ i < j))
  /\ (forall votes : list (string * Z),
         votes <> [] -> exists a, top_vote (cast_votes votes) = Ok a)
  /\ (forall (a b : string) (acc : Z),
         a <> b -> top_vote (cast_votes [(a, acc); (b, acc)]) = Ok a)
  /\ (forall (SO : ScoreOps) (w : world SO) (a : args_ns)
             (model_info : list entry),
         model_info <> [] ->
         (0 < bs a)%Z ->
         codebook_itoa w <> [] ->
         (forall e, In e model_info ->
                    one_row_per_example w e /\ rows_over_vocabulary w e) ->
         exists conf_result vote_result,
           ensemble w a model_info = Ok (conf_result, vote_result)
           /\ forall (i : nat) (o : answer_obj),
                nth_error vote_result i = Some o ->
                exists answers,
                  Forall2 (fun e ans => top_answer_at w a e i ans)
                    model_info answers
                  /\ top_vote
                       (cast_votes (combine answers (map model_acc model_info)))
                     = Ok (answer o))
  /\ (forall (SO : ScoreOps) (w : world SO) (a : args_ns) (e1 e2 : entry)
             (as1 as2 : list string),
         (0 < bs a)%Z ->
         codebook_itoa w <> [] ->
         List.length (que_id w) = dataset_len w ->
         one_row_per_example w e1 /\ rows_over_vocabulary w e1 ->
         one_row_per_example w e2 /\ rows_over_vocabulary w e2 ->
         model_acc e1 = model_acc e2 ->
         top_answers (codebook_itoa w) (all_rows w a e1) = Ok as1 ->
         top_answers (codebook_itoa w) (all_rows w a e2) = Ok as2 ->
         Forall2 (fun x y : string => x <> y) as1 as2 ->
         exists conf_result vote_result,
           ensemble w a [e1; e2] = Ok (conf_result, vote_result)
           /\ map answer vote_result = as1
           /\ map question_id vote_result = que_id w).
Proof.
  split; [| split; [| split; [| split]]].
  - intros votes a Htop v.
    destruct (cast_votes_order votes) as (Hnd & _ & Hord). fold v in Hnd, Hord.
    destruct (top_vote_first v a Htop) as (l1 & x & l2 & Heq & Hl1 & Hl2).
    assert (Hkeys : keys v = keys l1 ++ a :: keys l2).
    { rewrite Heq. unfold keys. rewrite map_app. reflexivity. }
    assert (Ha1 : ~ In a (keys l1)).
    { rewrite Hkeys in Hnd. apply NoDup_remove_2 in Hnd.
      intros H. apply Hnd. apply in_or_app. auto. }
    assert (Hwa : dict_get v a 0 = x)
      by (rewrite Heq; apply dict_get_split; exact Ha1).
    split.
    + intros b y Hin. rewrite Hwa. rewrite Heq in Hin.
      apply in_app_or in Hin. destruct Hin as [Hin | [Hin | Hin]].
      * apply Hl1 in Hin. simpl in Hin. lia.
      * inversion Hin. lia.
      * apply Hl2 in Hin. exact Hin.
    + intros b Hba Hb Htie.
      assert (Hb2 : In b (keys l2)).
      { rewrite Hkeys in Hb. apply in_app_or in Hb.
        destruct Hb as [Hb | [Hb | Hb]]; [| congruence | exact Hb].
        exfalso. unfold keys in Hb. apply in_map_iff in Hb.
        destruct Hb as ([b' y] & Hfst & Hin). simpl in Hfst. subst b'.
        apply in_split in Hin. destruct Hin as (m1 & m2 & Hm).
        assert (Hnd1 : NoDup (keys l1)).
        { rewrite Hkeys in Hnd. apply NoDup_app_remove_r in Hnd. exact Hnd. }
        assert (Hb1 : ~ In b (keys m1)).
        { rewrite Hm in Hnd1. unfold keys in Hnd1. rewrite map_app in Hnd1.
          simpl in Hnd1. apply NoDup_remove_2 in Hnd1.
          intros H. apply Hnd1. apply in_or_app. auto. }
        assert (Hwb : dict_get v b 0 = y).
        { rewrite Heq, Hm. rewrite <- app_assoc. simpl.
          apply dict_get_split. exact Hb1. }
        assert (Hy : (y < x)%Z).
        { apply (Hl1 (b, y)). rewrite Hm. apply in_elt. }
        lia. }
      split; [exists (keys l1), (keys l2); auto |].
      apply (Hord (keys l1) a (keys l2) b Hkeys Hb2).
  - intros votes Hne. apply top_vote_total.
    destruct votes as [| [k acc] votes _] using rev_ind; [congruence |].
    rewrite cast_votes_snoc. apply cast_vote_not_empty.
  - intros a b acc Hab. apply top_vote_two_equal. exact Hab.
  - intros SO w a model_info Hcat Hbs Hne Hok.
    destruct (ensemble_total w a model_info Hcat Hbs Hne Hok)
      as (cr & vr & Hrun).
    exists cr, vr. split; [exact Hrun |].
    apply (ensemble_votes w a model_info cr vr Hrun).
    intros e He. apply (proj1 (Hok e He)).
  - intros SO w a e1 e2 as1 as2 Hbs Hne Hq H1 H2 Hacc Ht1 Ht2 Hdiff.
    destruct (ensemble_total w a [e1; e2]) as (cr & vr & Hrun);
      [discriminate | exact Hbs | exact Hne | |].
    { intros e [<- | [<- | []]]; assumption. }
    exists cr, vr. split; [exact Hrun |]. split.
    + eapply two_models_tie; try eassumption. apply (proj1 H1).
    + apply (ensemble_ids w a [e1; e2] cr vr Hrun Hq).
Qed.

Lemma tie_rows (e : entry) :
  one_row_per_example Tie.w e /\ rows_over_vocabulary Tie.w e.
Proof.
  split; intros batch; unfold Tie.w, Tie.scores; simpl;
    destruct (String.eqb (model_group_name e) "A");
    try apply length_map;
    apply Forall_forall; intros r Hr; apply in_map_iff in Hr;
    destruct Hr as (i & <- & _); reflexivity.
Qed.

Lemma vote_tie_goes_to_first_inserted_witness :
  build_catalog "out" (os_listdir Tie.w "out") = Ok [Tie.model_A; Tie.model_B]
  /\ exists conf_result vote_result,
       ensemble Tie.w Scenario.args [Tie.model_A; Tie.model_B]
         = Ok (conf_result, vote_result)
       /\ map answer vote_result = ["no"; "no"]
       /\ map question_id vote_result = [11%Z; 12%Z].
Proof.
  split; [reflexivity |].
  apply (proj2 (proj2 (proj2 (proj2 vote_tie_goes_to_first_inserted)))
           FloatScore Tie.w Scenario.args Tie.model_A Tie.model_B
           ["no"; "no"] ["yes"; "yes"]).
  - reflexivity.
  - discriminate.
  - reflexivity.
  - apply tie_rows.
  - apply tie_rows.
  - reflexivity.
  - reflexivity.
  - reflexivity.
  - repeat constructor; discriminate.
Defined.

(** The same run with the two files listed the other way round is the
    same run, the catalog being sorted; with the groups exchanged it
    gives the other model's answers. *)
Example tie_follows_catalog_order :
  ensemble Tie.w Scenario.args [Tie.model_A; Tie.model_B]
    = Ok ([mk_answer 11 "yes"; mk_answer 12 "yes"],
          [mk_answer 11 "no"; mk_answer 12 "no"])
  /\ ensemble Tie.w Scenario.args [Tie.model_B; Tie.model_A]
     = Ok ([mk_answer 11 "yes"; mk_answer 12 "yes"],
           [mk_answer 11 "yes"; mk_answer 12 "yes"]).
Proof. split; vm_compute; reflexivity. Qed.

(** * Further properties *)

(** ** The catalog *)

Lemma leb_refl (s : string) : String.leb s s = true.
Proof. destruct (String.leb_total s s); assumption. Qed.

Lemma insert_by_group_hd (e : entry) (l : list entry) (x : entry) :
  HdRel group_le x l -> group_le x e -> HdRel group_le x (insert_by_group e l).
Proof.
  intros Hl He. destruct l as [| y l]; simpl; [constructor; exact He |].
  destruct (String.leb (model_group_name e) (model_group_name y));
    constructor; [exact He |].
  inversion Hl; assumption.
Qed.

Lemma insert_by_group_sorted (e : entry) (l : list entry) :
  Sorted group_le l -> Sorted group_le (insert_by_group e l).
Proof.
  induction 1 as [| x l Hs IH Hhd]; simpl; [repeat constructor |].
  destruct (String.leb (model_group_name e) (model_group_name x)) eqn:Hle.
  - constructor; [constructor; assumption | constructor; exact Hle].
  - constructor; [exact IH |].
    apply insert_by_group_hd; [exact Hhd |].
    unfold group_le.
    destruct (String.leb_total (model_group_name x) (model_group_name e));
      congruence.
Qed.

Lemma insert_by_group_perm (e : entry) (l : list entry) :
  Permutation (e :: l) (insert_by_group e l).
Proof.
  induction l as [| x l IH]; simpl; [reflexivity |].
  destruct (String.leb _ _); [reflexivity |].
  rewrite perm_swap. constructor. exact IH.
Qed.

Lemma insert_by_group_filter (g : string) (e : entry) (l : list entry) :
  filter (in_group g) (insert_by_group e l) = filter (in_group g) (e :: l).
Proof.
  induction l as [| x l IH]; [reflexivity |].
  simpl insert_by_group.
  destruct (String.leb (model_group_name e) (model_group_name x)) eqn:Hle;
    [reflexivity |].
  simpl in *. rewrite IH.
  destruct (in_group g e) eqn:He, (in_group g x) eqn:Hx; try reflexivity.
  unfold in_group in He, Hx. apply String.eqb_eq in He, Hx.
  rewrite He, Hx, leb_refl in Hle. discriminate.
Qed.

(** X1: [sorted(model_info, key=itemgetter(0))] returns the entries in
    non-decreasing order of group name, is a rearrangement of its input,
    and is stable: the entries of any one group keep the order they had. *)
Theorem sorted_by_group_stable_sort :
  forall l : list entry,
    Sorted group_le (sorted_by_group l)
    /\ Permutation l (sorted_by_group l)
    /\ forall g, filter (in_group g) (sorted_by_group l) = filter (in_group g) l.
Proof.
  induction l as [| e l (Hs & Hp & Hf)]; simpl.
  - repeat split; constructor.
  - split; [apply insert_by_group_sorted; exact Hs |]. split.
    + rewrite <- insert_by_group_perm. constructor. exact Hp.
    + intros g. rewrite insert_by_group_filter. simpl. rewrite Hf. reflexivity.
Qed.

Lemma split_on_not_nil (sep : ascii) (cs : list ascii) : split_on sep cs <> [].
Proof.
  destruct cs as [| c cs]; simpl; [discriminate |].
  destruct (Ascii.eqb c sep); [discriminate |].
  destruct (split_on sep cs); discriminate.
Qed.

Lemma split_on_fields (sep : ascii) (cs f : list ascii) :
  In f (split_on sep cs) -> ~ In sep f.
Proof.
  revert f. induction cs as [| c cs IH]; simpl; intros f Hin.
  - destruct Hin as [<- | []]. intros [].
  - destruct (Ascii.eqb c sep) eqn:Hc.
    + destruct Hin as [<- | Hin]; [intros [] | auto].
    + apply Ascii.eqb_neq in Hc.
      destruct (split_on sep cs) as [| f0 fs] eqn:Hs.
      * destruct Hin as [<- | []]. intros [H | []]. congruence.
      * destruct Hin as [<- | Hin].
        -- intros [H | H]; [congruence |]. revert H. apply IH. left. reflexivity.
        -- apply IH. right. exact Hin.
Qed.

Lemma chars_str (cs : list ascii) : chars (str cs) = cs.
Proof. apply list_ascii_of_string_of_list_ascii. Qed.

Lemma str_chars (s : string) : str (chars s) = s.
Proof. apply string_of_list_ascii_of_string. Qed.

Lemma split_fields_no_sep (s : string) (sep : ascii) (f : string) :
  In f (split s sep) -> ~ In sep (chars f).
Proof.
  unfold split. intros Hin. apply in_map_iff in Hin.
  destruct Hin as (cs & <- & Hcs). rewrite chars_str.
  eapply split_on_fields. exact Hcs.
Qed.

Lemma lstrip_incl (cs : list ascii) (c : ascii) : In c (lstrip cs) -> In c cs.
Proof.
  induction cs as [| x cs IH]; simpl; [auto |].
  destruct (is_space x); [intros H; right; auto | auto].
Qed.

Lemma strip_incl (cs : list ascii) (c : ascii) : In c (strip cs) -> In c cs.
Proof.
  unfold strip. intros H. apply in_rev in H. apply lstrip_incl in H.
  apply in_rev in H. apply lstrip_incl in H. exact H.
Qed.

Lemma digit_value_nonneg (c : ascii) : (0 <= digit_value c)%Z.
Proof. unfold digit_value. lia. Qed.

Lemma digits_value_nonneg (cs : list ascii) :
  forall (acc : Z) (b : bool) (z : Z),
    (0 <= acc)%Z -> digits_value acc b cs = Some z -> (0 <= z)%Z.
Proof.
  induction cs as [| c cs IH]; intros acc b z Hacc H; cbn [digits_value] in H.
  - destruct b; inversion H; subst; exact Hacc.
  - destruct (is_digit c).
    + eapply IH; [| exact H]. pose proof (digit_value_nonneg c). lia.
    + destruct (Ascii.eqb c "_"%char && b); [| discriminate].
      destruct cs; [discriminate |]. eapply IH; eassumption.
Qed.

(** [int] of a text without a minus sign is not negative. *)
Lemma parse_int_nonneg (text : string) (z : Z) :
  ~ has_dash text -> parse_int text = Some z -> (0 <= z)%Z.
Proof.
  unfold parse_int, has_dash. intros Hdash H.
  destruct (strip (chars text)) as [| c ds] eqn:Hs; [discriminate |].
  destruct (Ascii.eqb c "+"%char).
  - eapply digits_value_nonneg; [| exact H]. lia.
  - destruct (Ascii.eqb c "-"%char) eqn:Hc.
    + exfalso. apply Hdash. apply strip_incl. rewrite Hs. left.
      apply Ascii.eqb_eq in Hc. exact Hc.
    + eapply digits_value_nonneg; [| exact H]. lia.
Qed.

Lemma parse_checkpoint_fields (d f : string) (e : entry) :
  parse_checkpoint d f = Ok e ->
  cp_path e = os_path_join d f
  /\ (0 <= model_acc e)%Z
  /\ ~ has_dash (model_group_name e)
  /\ ~ has_dash (model_name e).
Proof.
  unfold parse_checkpoint.
  destruct (split (rsplit_head f "."%char 2) "-"%char)
    as [| g [| n [| t rest]]] eqn:Hsplit; simpl; try discriminate.
  unfold int_of_str. destruct (parse_int t) as [z |] eqn:Hint; [| discriminate].
  simpl. intros H. inversion H; subst e. clear H. simpl.
  assert (Hno : forall x, In x [g; n; t] -> ~ has_dash x).
  { intros x Hx. apply (split_fields_no_sep (rsplit_head f "."%char 2) "-"%char).
    rewrite Hsplit. simpl in *. tauto. }
  split; [reflexivity |]. split; [| split].
  - eapply parse_int_nonneg; [| exact Hint]. apply Hno. simpl. tauto.
  - apply Hno. simpl. tauto.
  - apply Hno. simpl. tauto.
Qed.

(** X2: every entry of a catalog that [build_catalog] returns is the
    parse of a file of the listing that ends in [.pth.tar]: its path is
    the directory joined with that file name, its accuracy is not
    negative, and neither its group nor its name contains a dash.  The
    catalog is sorted by group name and has one entry per such file. *)
Theorem catalog_entries_well_formed :
  forall (d : string) (files : list string) (model_info : list entry),
    build_catalog d files = Ok model_info ->
    Sorted group_le model_info
    /\ List.length model_info = List.length (filter is_checkpoint files)
    /\ Forall
         (fun e =>
            exists cp_file,
              In cp_file files
              /\ is_checkpoint cp_file = true
              /\ parse_checkpoint d cp_file = Ok e
              /\ cp_path e = os_path_join d cp_file
              /\ (0 <= model_acc e)%Z
              /\ ~ has_dash (model_group_name e)
              /\ ~ has_dash (model_name e))
         model_info.
Proof.
  intros d files cat H.
  pose proof (build_catalog_length d files cat H) as [_ Hlen].
  unfold build_catalog in H. inv_bind H. rename x into parsed.
  destruct (1 <? _); [| discriminate]. inversion H; subst cat. clear H.
  destruct (sorted_by_group_stable_sort parsed) as (Hs & Hp & _).
  split; [exact Hs |]. split; [exact Hlen |].
  apply Forall_forall. intros e He.
  apply (Permutation_in _ (Permutation_sym Hp)) in He.
  apply mapM_Forall2 in Hx.
  assert (Hex : exists f, In f (filter is_checkpoint files)
                          /\ parse_checkpoint d f = Ok e).
  { clear Hp Hs Hlen. induction Hx as [| f e' fs es Hf _ IH]; [destruct He |].
    destruct He as [<- | He].
    - exists f. split; [left; reflexivity | exact Hf].
    - destruct (IH He) as (f' & Hin & Hp'). exists f'. split; [right |]; auto. }
  destruct Hex as (f & Hin & Hparse). apply filter_In in Hin.
  destruct Hin as [Hin Hcp].
  destruct (parse_checkpoint_fields d f e Hparse) as (H1 & H2 & H3 & H4).
  exists f. repeat split; assumption.
Qed.

Lemma catalog_entries_well_formed_witness :
  build_catalog "out" ["B-Net-60.pth.tar"; "notes.txt"; "A-Net-80.pth.tar"]
    = Ok [Scenario.model_A; Scenario.model_B]
  /\ Sorted group_le [Scenario.model_A; Scenario.model_B].
Proof.
  split; [reflexivity |].
  apply (catalog_entries_well_formed "out"
           ["B-Net-60.pth.tar"; "notes.txt"; "A-Net-80.pth.tar"]
           [Scenario.model_A; Scenario.model_B]).
  reflexivity.
Defined.

(** ** The naming convention, there and back *)

Lemma chars_append (a b : string) : chars (a +++ b) = chars a ++ chars b.
Proof.
  induction a as [| c a IH]; simpl; [reflexivity |]. f_equal. exact IH.
Qed.

Lemma str_app (a b : list ascii) : str (a ++ b) = str a +++ str b.
Proof.
  induction a as [| c a IH]; simpl; [reflexivity |]. f_equal. exact IH.
Qed.

Lemma length_append (a b : string) :
  String.length (a +++ b) = String.length a + String.length b.
Proof.
  induction a as [| c a IH]; simpl; [reflexivity |]. rewrite IH. reflexivity.
Qed.

Lemma substring_all (s : string) : substring 0 (String.length s) s = s.
Proof.
  induction s as [| c s IH]; simpl; [reflexivity |]. rewrite IH. reflexivity.
Qed.

Lemma substring_append (a b : string) :
  substring (String.length a) (String.length b) (a +++ b) = b.
Proof.
  induction a as [| c a IH]; simpl; [apply substring_all | exact IH].
Qed.

Lemma endswith_append (a b : string) : endswith (a +++ b) b = true.
Proof.
  unfold endswith. rewrite length_append.
  replace (String.length a + String.length b - String.length b)
    with (String.length a) by lia.
  rewrite substring_append, String.eqb_refl.
  replace (String.length b <=? String.length a + String.length b) with true;
    [reflexivity |].
  symmetry. apply Nat.leb_le. lia.
Qed.

(** Stripping the two-part extension gives back what stands before it,
    dots included. *)
Lemma rsplit_head_pth_tar (base : list ascii) :
  rsplit_head (str (base ++ chars ".pth.tar")) "."%char 2 = str base.
Proof.
  unfold rsplit_head. rewrite chars_str, rev_app_distr. simpl.
  rewrite rev_involutive. reflexivity.
Qed.

Lemma split_on_one (sep : ascii) (f : list ascii) :
  ~ In sep f -> split_on sep f = [f].
Proof.
  induction f as [| c f IH]; simpl; intros Hn; [reflexivity |].
  destruct (Ascii.eqb c sep) eqn:Hc.
  - apply Ascii.eqb_eq in Hc. tauto.
  - rewrite IH by tauto. reflexivity.
Qed.

Lemma split_on_app (sep : ascii) (f rest : list ascii) :
  ~ In sep f -> split_on sep (f ++ sep :: rest) = f :: split_on sep rest.
Proof.
  induction f as [| c f IH]; simpl; intros Hn.
  - rewrite Ascii.eqb_refl. reflexivity.
  - destruct (Ascii.eqb c sep) eqn:Hc.
    + apply Ascii.eqb_eq in Hc. tauto.
    + rewrite IH by tauto. reflexivity.
Qed.

(** *** [int(str(z))] *)

Lemma digits_value_digit (c : ascii) (cs : list ascii) (acc : Z) (b : bool) :
  is_digit c = true ->
  digits_value acc b (c :: cs) = digits_value (10 * acc + digit_value c) true cs.
Proof. intros H. cbn [digits_value]. rewrite H. reflexivity. Qed.

Ltac digit_case IH :=
  cbn [NilEmpty.string_of_uint chars list_ascii_of_string Pos.of_uint_acc];
  rewrite digits_value_digit by reflexivity;
  rewrite <- IH; f_equal; unfold digit_value;
  match goal with
  | |- context [nat_of_ascii ?c] =>
      let v := eval vm_compute in (nat_of_ascii c) in
      change (nat_of_ascii c) with v
  end; lia.

Lemma digits_value_of_uint_acc (d : Decimal.uint) :
  forall acc : positive,
    digits_value (Zpos acc) true (chars (NilEmpty.string_of_uint d))
    = Some (Zpos (Pos.of_uint_acc d acc)).
Proof.
  induction d as [| d IH | d IH | d IH | d IH | d IH | d IH | d IH | d IH
                  | d IH | d IH]; intros acc;
    [reflexivity | digit_case IH ..].
Qed.

Ltac lead_case :=
  cbn [NilEmpty.string_of_uint chars list_ascii_of_string Pos.of_uint];
  rewrite digits_value_digit by reflexivity;
  cbn [Z.of_N]; rewrite <- digits_value_of_uint_acc; f_equal.

Lemma digits_value_of_uint (d : Decimal.uint) :
  d <> Decimal.Nil ->
  forall b : bool,
    digits_value 0 b (chars (NilEmpty.string_of_uint d))
    = Some (Z.of_N (Pos.of_uint d)).
Proof.
  induction d as [| d IH | d IH | d IH | d IH | d IH | d IH | d IH | d IH
                  | d IH | d IH]; intros Hne b;
    [congruence | | lead_case ..].
  cbn [NilEmpty.string_of_uint chars list_ascii_of_string Pos.of_uint].
  rewrite digits_value_digit by reflexivity.
  destruct d; try (apply IH; discriminate). reflexivity.
Qed.

Lemma uint_chars_digits (d : Decimal.uint) :
  Forall (fun c => is_digit c = true) (chars (NilEmpty.string_of_uint d)).
Proof.
  induction d; simpl; constructor; (reflexivity || assumption).
Qed.

Lemma is_digit_not_space (c : ascii) : is_digit c = true -> is_space c = false.
Proof.
  unfold is_digit, is_space. intros H.
  apply andb_true_iff in H. destruct H as [H1 H2].
  apply Nat.leb_le in H1, H2.
  repeat (apply orb_false_iff; split);
    try (apply andb_false_iff; (left; apply Nat.leb_gt; lia)
                               || (right; apply Nat.leb_gt; lia));
    apply Nat.eqb_neq; lia.
Qed.

Lemma lstrip_id (cs : list ascii) :
  Forall (fun c => is_space c = false) cs -> lstrip cs = cs.
Proof.
  intros H. destruct H as [| c cs Hc _]; simpl; [reflexivity |].
  rewrite Hc. reflexivity.
Qed.

Lemma strip_id (cs : list ascii) :
  Forall (fun c => is_space c = false) cs -> strip cs = cs.
Proof.
  intros H. unfold strip. rewrite (lstrip_id cs H).
  rewrite lstrip_id; [apply rev_involutive |].
  apply Forall_rev. exact H.
Qed.

Lemma py_str_int_pos (p : positive) :
  py_str_int (Zpos p) = NilEmpty.string_of_uint (Pos.to_uint p).
Proof.
  unfold py_str_int. simpl. unfold NilZero.string_of_uint.
  pose proof (Unsigned.to_uint_nonnil p).
  destruct (Pos.to_uint p); congruence.
Qed.

Lemma py_str_int_digits (z : Z) :
  (0 <= z)%Z -> Forall (fun c => is_digit c = true) (chars (py_str_int z)).
Proof.
  intros Hz. destruct z as [| p | p]; [| | lia].
  - repeat constructor.
  - rewrite py_str_int_pos. apply uint_chars_digits.
Qed.

Lemma py_str_int_no_dash (z : Z) : (0 <= z)%Z -> ~ has_dash (py_str_int z).
Proof.
  intros Hz Hd. pose proof (py_str_int_digits z Hz) as H.
  rewrite Forall_forall in H. apply H in Hd. discriminate.
Qed.

(** [int(str(z)) = z] for an [int] that is not negative. *)
Lemma parse_int_py_str_int (z : Z) :
  (0 <= z)%Z -> parse_int (py_str_int z) = Some z.
Proof.
  intros Hz. destruct z as [| p | p]; [reflexivity | | lia].
  unfold parse_int. rewrite strip_id.
  2:{ eapply Forall_impl; [| apply py_str_int_digits; lia].
      intros c. apply is_digit_not_space. }
  pose proof (py_str_int_digits (Zpos p) Hz) as Hd.
  pose proof (digits_value_of_uint (Pos.to_uint p)
                (Unsigned.to_uint_nonnil p) false) as Hv.
  rewrite Unsigned.of_to in Hv. rewrite <- py_str_int_pos in Hv.
  destruct (chars (py_str_int (Zpos p))) as [| c ds] eqn:Hc; [discriminate |].
  inversion Hd; subst.
  assert (Hplus : Ascii.eqb c "+"%char = false).
  { destruct (Ascii.eqb c "+"%char) eqn:E; [| reflexivity].
    apply Ascii.eqb_eq in E. subst c. discriminate. }
  assert (Hminus : Ascii.eqb c "-"%char = false).
  { destruct (Ascii.eqb c "-"%char) eqn:E; [| reflexivity].
    apply Ascii.eqb_eq in E. subst c. discriminate. }
  rewrite Hplus, Hminus. exact Hv.
Qed.

Ltac list_norm :=
  repeat progress (rewrite <- ?app_assoc, <- ?app_comm_cons; cbn [app]).

(** X3: the naming convention round-trips.  A file named
    [<group>-<name>-<accuracy>.pth.tar], or with a further dash-separated
    suffix before the extension, where group and name contain no dash
    and the accuracy is not negative, is recognised as a checkpoint and
    parsed to exactly that group, name and accuracy, with the file's
    path in the model directory. *)
Theorem checkpoint_name_round_trip :
  forall (d group name : string) (acc : Z) (suffix : string),
    ~ has_dash group ->
    ~ has_dash name ->
    (0 <= acc)%Z ->
    (suffix = EmptyString \/ exists rest, suffix = "-" +++ rest) ->
    is_checkpoint (checkpoint_name group name acc suffix) = true
    /\ parse_checkpoint d (checkpoint_name group name acc suffix)
       = Ok (mk_entry group name acc
               (os_path_join d (checkpoint_name group name acc suffix))).
Proof.
  intros d group name acc suffix Hg Hn Hacc Hsuf.
  set (base := chars group ++ "-"%char :: chars name ++ "-"%char
                 :: chars (py_str_int acc) ++ chars suffix).
  assert (Hname : checkpoint_name group name acc suffix
                  = str (base ++ chars ".pth.tar")).
  { rewrite <- (str_chars (checkpoint_name group name acc suffix)). f_equal.
    unfold checkpoint_name, base. rewrite !chars_append. list_norm.
    reflexivity. }
  split.
  - rewrite Hname, str_app. apply endswith_append.
  - unfold parse_checkpoint.
    rewrite Hname at 1. rewrite rsplit_head_pth_tar.
    unfold split. rewrite chars_str. unfold base.
    rewrite split_on_app by exact Hg.
    rewrite split_on_app by exact Hn.
    assert (Hd : ~ In "-"%char (chars (py_str_int acc)))
      by (apply py_str_int_no_dash; exact Hacc).
    assert (Hint : int_of_str (py_str_int acc) = Ok acc)
      by (unfold int_of_str; rewrite parse_int_py_str_int by exact Hacc;
          reflexivity).
    destruct Hsuf as [-> | (rest & ->)].
    + simpl (chars EmptyString). rewrite app_nil_r.
      rewrite split_on_one by exact Hd. simpl.
      rewrite !str_chars, Hint. reflexivity.
    + rewrite chars_append. simpl (chars "-"). simpl app at 2.
      rewrite split_on_app by exact Hd. simpl.
      rewrite !str_chars, Hint. reflexivity.
Qed.

Lemma no_dash_att : ~ has_dash "att".
Proof. unfold has_dash. simpl. intros H. intuition discriminate. Qed.

Lemma no_dash_MultiAtt : ~ has_dash "MultiAtt".
Proof. unfold has_dash. simpl. intros H. intuition discriminate. Qed.

Lemma checkpoint_name_round_trip_witness :
  checkpoint_name "att" "MultiAtt" 6312 "-best" = "att-MultiAtt-6312-best.pth.tar"
  /\ is_checkpoint (checkpoint_name "att" "MultiAtt" 6312 "-best") = true
  /\ parse_checkpoint "out" (checkpoint_name "att" "MultiAtt" 6312 "-best")
     = Ok (mk_entry "att" "MultiAtt" 6312
             (os_path_join "out" (checkpoint_name "att" "MultiAtt" 6312 "-best"))).
Proof.
  split; [reflexivity |].
  apply (checkpoint_name_round_trip "out" "att" "MultiAtt" 6312 "-best").
  - exact no_dash_att.
  - exact no_dash_MultiAtt.
  - lia.
  - right. exists "best". reflexivity.
Defined.

(** ** Weights and winners *)

Lemma dict_get_set_same (v : tally) (k : string) (x d : Z) :
  dict_get (dict_set v k x) k d = x.
Proof.
  induction v as [| [k' x'] v IH]; simpl.
  - rewrite String.eqb_refl. reflexivity.
  - destruct (String.eqb k' k) eqn:Hk; simpl; rewrite Hk; auto.
Qed.

Lemma dict_get_set_other (v : tally) (k k' : string) (x d : Z) :
  k <> k' -> dict_get (dict_set v k x) k' d = dict_get v k' d.
Proof.
  intros Hne. induction v as [| [k0 x0] v IH]; simpl.
  - destruct (String.eqb k k') eqn:E; [| reflexivity].
    apply String.eqb_eq in E. contradiction.
  - destruct (String.eqb k0 k) eqn:Hk; simpl.
    + apply String.eqb_eq in Hk. subst k0.
      destruct (String.eqb k k') eqn:E; [| reflexivity].
      apply String.eqb_eq in E. contradiction.
    + rewrite IH. reflexivity.
Qed.

Lemma votes_for_snoc (votes : list (string * Z)) (k ans : string) (acc : Z) :
  votes_for (votes ++ [(k, acc)]) ans
  = (votes_for votes ans + (if String.eqb k ans then acc else 0))%Z.
Proof.
  unfold votes_for. induction votes as [| [k' x] votes IH]; simpl.
  - destruct (String.eqb k ans); lia.
  - rewrite IH. destruct (String.eqb k' ans); lia.
Qed.

(** X4: the weight of an answer in a tally is the sum of the accuracies
    of the entries that voted for it; an answer nobody voted for has
    weight 0 (and no key). *)
Theorem weight_is_sum_of_accuracies :
  forall (votes : list (string * Z)) (ans : string),
    dict_get (cast_votes votes) ans 0 = votes_for votes ans.
Proof.
  intros votes ans.
  induction votes as [| [k acc] votes IH] using rev_ind; [reflexivity |].
  rewrite cast_votes_snoc, votes_for_snoc. unfold cast_vote.
  destruct (String.eqb k ans) eqn:E.
  - apply String.eqb_eq in E. subst k. rewrite dict_get_set_same, IH. lia.
  - apply String.eqb_neq in E. rewrite dict_get_set_other by exact E.
    rewrite IH. lia.
Qed.

Lemma dict_get_in (v : tally) (a : string) (x d : Z) :
  NoDup (keys v) -> In (a, x) v -> dict_get v a d = x.
Proof.
  intros Hnd Hin. apply in_split in Hin. destruct Hin as (l1 & l2 & ->).
  apply dict_get_split. unfold keys in Hnd. rewrite map_app in Hnd.
  simpl in Hnd. apply NoDup_remove_2 in Hnd.
  intros H. apply Hnd. apply in_or_app. left. exact H.
Qed.

Lemma top_vote_in_keys (v : tally) (a : string) :
  top_vote v = Ok a -> In a (keys v).
Proof.
  intros H. apply top_vote_first in H. destruct H as (l1 & x & l2 & -> & _).
  unfold keys. rewrite map_app. apply in_or_app. right. left. reflexivity.
Qed.

Lemma top_vote_greatest (v : tally) (a : string) :
  NoDup (keys v) -> top_vote v = Ok a ->
  forall b x, In (b, x) v -> (x <= dict_get v a 0)%Z.
Proof.
  intros Hnd H b x Hin.
  destruct (top_vote_first v a H) as (l1 & y & l2 & Heq & Hl1 & Hl2).
  assert (Hy : dict_get v a 0 = y).
  { apply dict_get_in; [exact Hnd |]. rewrite Heq. apply in_elt. }
  rewrite Hy. rewrite Heq in Hin. apply in_app_or in Hin.
  destruct Hin as [Hin | [Hin | Hin]].
  - apply Hl1 in Hin. simpl in Hin. lia.
  - inversion Hin. lia.
  - apply Hl2 in Hin. exact Hin.
Qed.

(** X5: an answer whose accumulated weight is strictly greater than that
    of every other answer of the tally is the vote result, wherever it
    stands in the tally. *)
Theorem strictly_heaviest_answer_wins :
  forall (votes : list (string * Z)) (a : string),
    In a (keys (cast_votes votes)) ->
    (forall b, In b (keys (cast_votes votes)) -> b <> a ->
               (dict_get (cast_votes votes) b 0
                < dict_get (cast_votes votes) a 0)%Z) ->
    top_vote (cast_votes votes) = Ok a.
Proof.
  intros votes a Ha Hstrict. set (v := cast_votes votes) in *.
  destruct (cast_votes_order votes) as (Hnd & _ & _). fold v in Hnd.
  destruct (top_vote_total v) as [a' Htop].
  { intros Hv. rewrite Hv in Ha. destruct Ha. }
  destruct (string_dec a' a) as [-> | Hne]; [exact Htop |].
  exfalso.
  pose proof (Hstrict a' (top_vote_in_keys v a' Htop) Hne) as Hlt.
  unfold keys in Ha. apply in_map_iff in Ha.
  destruct Ha as ([a0 x] & Hfst & Hin). simpl in Hfst. subst a0.
  pose proof (top_vote_greatest v a' Hnd Htop a x Hin) as Hle.
  rewrite (dict_get_in v a x 0 Hnd Hin) in Hlt. lia.
Qed.

Lemma strictly_heaviest_answer_wins_witness :
  top_vote (cast_votes [("yes", 30%Z); ("no", 40%Z); ("yes", 5%Z); ("no", 10%Z)])
  = Ok "no".
Proof.
  apply (strictly_heaviest_answer_wins
           [("yes", 30%Z); ("no", 40%Z); ("yes", 5%Z); ("no", 10%Z)] "no").
  - simpl. auto.
  - intros b [<- | [<- | []]] Hne; [reflexivity | exfalso; apply Hne; reflexivity].
Defined.

(** ** What a run emits and touches *)

Section Emitted.

Context {SO : ScoreOps}.

Lemma cast_vote_keys_in (itoa : list string) (acc : Z) (v : tally) (ans : string) :
  keys_in itoa v -> In ans itoa -> keys_in itoa (cast_vote acc v ans).
Proof.
  intros Hv Hans k Hk.
  destruct (keys_cast_vote acc v ans) as [[_ Heq] | [_ Heq]];
    rewrite Heq in Hk; [auto |].
  apply in_app_or in Hk. destruct Hk as [Hk | [<- | []]]; auto.
Qed.

Lemma vote_at_keys_in (itoa : list string) (acc : Z) (vote : list tally) :
  Forall (keys_in itoa) vote ->
  forall (start : nat) (answers : list string),
    Forall (fun ans => In ans itoa) answers ->
    Forall (keys_in itoa) (vote_at acc vote start answers).
Proof.
  induction 1 as [| v vote Hv Hvote IH]; intros start answers Hans;
    [constructor |].
  destruct start as [| s]; simpl.
  - destruct Hans as [| ans answers Ha Hans].
    + constructor; assumption.
    + constructor; [apply cast_vote_keys_in; assumption | apply IH; assumption].
  - constructor; [assumption | apply IH; assumption].
Qed.

Lemma run_models_keys_in (w : world SO) (a : args_ns) (model_info : list entry) :
  forall b b' : buffers SO,
    run_models w a model_info b = Ok b' ->
    Forall (keys_in (codebook_itoa w)) (vote_buff b) ->
    Forall (keys_in (codebook_itoa w)) (vote_buff b').
Proof.
  unfold run_models.
  induction model_info as [| e l IH]; intros b b' H Hk; simpl in H.
  - inversion H; subst. exact Hk.
  - inv_bind H. eapply IH; [exact H |].
    apply model_pass_spec in Hx. destruct Hx as (_ & _ & answers & Htop & ->).
    apply vote_at_keys_in; [exact Hk |].
    eapply top_answers_in_vocabulary. exact Htop.
Qed.

Lemma accumulate_effects (w : world SO) (a : args_ns) (model_info : list entry) :
  forall (b : buffers SO) (st st' : effects) (r : result (buffers SO)),
    accumulate w a model_info b st = (st', r) ->
    files st' = files st
    /\ exists k,
         k <= List.length model_info
         /\ trace st' = trace st ++ map Inference (firstn k model_info)
         /\ (forall b', r = Ok b' ->
                        k = List.length model_info
                        /\ run_models w a model_info b = Ok b')
         /\ (forall e, r = Raise e ->
                       0 < k /\ run_models w a (firstn k model_info) b = Raise e).
Proof.
  unfold run_models.
  induction model_info as [| x l IH]; intros b st st' r H; simpl in H.
  - unfold retM in H. inversion H; subst. split; [reflexivity |].
    exists 0. simpl. rewrite app_nil_r.
    repeat split; try lia; try congruence; intros; discriminate.
  - unfold bindM, emit, liftR in H.
    destruct (model_pass w a b x) as [b1 | err] eqn:Hp.
    + apply IH in H. simpl in H. destruct H as (Hf & k & Hk & Ht & Hok & Herr).
      split; [exact Hf |]. exists (S k). simpl. rewrite Hp. simpl.
      split; [lia |]. split; [rewrite Ht, <- app_assoc; reflexivity |].
      split.
      * intros b' Hr. destruct (Hok b' Hr). split; [lia | assumption].
      * intros e Hr. destruct (Herr e Hr). split; [lia | assumption].
    + inversion H; subst. simpl. split; [reflexivity |].
      exists 1. simpl. rewrite Hp. simpl.
      split; [lia |]. split; [reflexivity |].
      split; [intros; discriminate |].
      intros e Hr. inversion Hr; subst. split; [lia | reflexivity].
Qed.

End Emitted.

(** X6: every answer that the ensemble returns, in the confidence list
    and in the vote list, is a string of the vocabulary. *)
Theorem answers_from_vocabulary :
  forall (SO : ScoreOps) (w : world SO) (a : args_ns) (model_info : list entry)
         (conf_result vote_result : list answer_obj),
    ensemble w a model_info = Ok (conf_result, vote_result) ->
    Forall (fun o => In (answer o) (codebook_itoa w)) conf_result
    /\ Forall (fun o => In (answer o) (codebook_itoa w)) vote_result.
Proof.
  intros SO w a l cr vr H. unfold ensemble in H. inv_bind H.
  rename x into b, Hx into Hrun.
  assert (Hk : Forall (keys_in (codebook_itoa w)) (vote_buff b)).
  { eapply run_models_keys_in; [exact Hrun |]. simpl.
    apply Forall_forall. intros v Hv. apply repeat_spec in Hv. subst v.
    intros k []. }
  unfold finalize in H.
  inv_bind H. rename x into ans_ids.
  inv_bind H. rename x into cr', Hx0 into Hcr.
  inv_bind H. rename x into votes, Hx0 into Hvotes.
  inversion H; subst. clear H. split.
  - apply mapM_Forall2 in Hcr. clear Hx.
    induction Hcr as [| p o ps os Hp _ IH]; constructor; [| exact IH].
    unfold conf_answer in Hp. inv_bind Hp. inversion Hp; subst. simpl.
    apply list_get_ok in Hx. eapply nth_error_In. exact Hx.
  - apply Forall_forall. intros o Ho. apply in_map_iff in Ho.
    destruct Ho as ([q ans] & <- & Hin). simpl. apply in_combine_r in Hin.
    apply mapM_Forall2 in Hvotes. clear Hx Hcr.
    revert Hk. induction Hvotes as [| v x vs xs Hv _ IH]; intros Hk;
      [destruct Hin |].
    inversion Hk; subst. destruct Hin as [-> | Hin]; [| auto].
    match goal with Hkv : keys_in _ v |- _ => apply Hkv end.
    apply top_vote_in_keys. exact Hv.
Qed.

Lemma answers_from_vocabulary_witness :
  ensemble Scenario.w Scenario.args [Scenario.model_A; Scenario.model_B]
    = Ok ([mk_answer 1 "no"], [mk_answer 1 "no"])
  /\ Forall (fun o => In (answer o) Scenario.itoa) [mk_answer 1 "no"]
  /\ Forall (fun o => In (answer o) Scenario.itoa) [mk_answer 1 "no"].
Proof.
  split; [vm_compute; reflexivity |].
  apply (answers_from_vocabulary QScore Scenario.w Scenario.args
           [Scenario.model_A; Scenario.model_B]).
  vm_compute. reflexivity.
Defined.

(** X7: the body of [main] runs the models in catalog order and stops
    at the first one that fails.  Either catalog building raises and
    nothing has run, or the trace has grown by the inference of the
    first [k] catalog entries, in order; when the run succeeds [k] is
    the whole catalog. *)
Theorem models_run_in_catalog_order :
  forall (SO : ScoreOps) (w : world SO) (a : args_ns) (st st' : effects)
         (r : result unit),
    main_body w a st = (st', r) ->
    (exists e,
        build_catalog (model_dir a) (os_listdir w (model_dir a)) = Raise e
        /\ st' = st /\ r = Raise e)
    \/ (exists model_info k,
           build_catalog (model_dir a) (os_listdir w (model_dir a))
             = Ok model_info
           /\ k <= List.length model_info
           /\ trace st' = trace st ++ map Inference (firstn k model_info)
           /\ (r = Ok tt -> k = List.length model_info)
           /\ (k < List.length model_info ->
               0 < k
               /\ exists e,
                    r = Raise e
                    /\ run_models w a (firstn k model_info)
                         (init_buffers (dataset_len w)
                            (List.length (codebook_itoa w))) = Raise e)).
Proof.
  intros SO w a st st' r H. unfold main_body, bindM, liftR in H.
  destruct (build_catalog _ _) as [cat | e] eqn:Hcat.
  - right.
    destruct (accumulate w a cat _ st) as [st1 r1] eqn:Hacc.
    apply accumulate_effects in Hacc.
    destruct Hacc as (Hf & k & Hk & Ht & Hok & Herr).
    exists cat, k. split; [reflexivity |]. split; [exact Hk |].
    destruct r1 as [b | e].
    + destruct (Hok b eq_refl) as [-> _].
      assert (Htr : trace st' = trace st1).
      { destruct (finalize w b) as [res | e]; [| inversion H; reflexivity].
        unfold write_outputs, bindM in H.
        destruct (dump_to w (conf_fname a) _ st1) as [st2 r2] eqn:Hd1.
        apply dump_to_effects in Hd1. destruct Hd1 as [Ht1 _].
        destruct r2; [| inversion H; subst; exact Ht1].
        apply dump_to_effects in H. destruct H as [Ht2 _]. congruence. }
      split; [congruence |]. split; [reflexivity |]. lia.
    + inversion H; subst. split; [exact Ht |].
      split; [discriminate |]. intros _.
      destruct (Herr e eq_refl) as [Hpos Hrun]. split; [exact Hpos |].
      exists e. split; [reflexivity | exact Hrun].
  - left. inversion H; subst. exists e. auto.
Qed.

Lemma models_run_in_catalog_order_witness :
  main_body Faults.w_bad_name Scenario.args no_effects
    = (no_effects,
       Raise (ValueError "not enough values to unpack (expected at least 3, got 2)"))
  /\ ((exists e,
          build_catalog (model_dir Scenario.args)
            (os_listdir Faults.w_bad_name (model_dir Scenario.args)) = Raise e
          /\ no_effects = no_effects
          /\ Raise (ValueError "not enough values to unpack (expected at least 3, got 2)")
             = @Raise unit e)
      \/ (exists model_info k,
             build_catalog (model_dir Scenario.args)
               (os_listdir Faults.w_bad_name (model_dir Scenario.args))
               = Ok model_info
             /\ k <= List.length model_info
             /\ trace no_effects
                = trace no_effects ++ map Inference (firstn k model_info)
             /\ (Raise (ValueError "not enough values to unpack (expected at least 3, got 2)")
                 = Ok tt -> k = List.length model_info)
             /\ (k < List.length model_info ->
                 0 < k
                 /\ exists e,
                      Raise (ValueError "not enough values to unpack (expected at least 3, got 2)")
                      = @Raise unit e
                      /\ run_models Faults.w_bad_name Scenario.args
                           (firstn k model_info)
                           (init_buffers (dataset_len Faults.w_bad_name)
                              (List.length (codebook_itoa Faults.w_bad_name)))
                         = Raise e))).
Proof.
  split; [reflexivity |].
  apply (models_run_in_catalog_order QScore Faults.w_bad_name Scenario.args
           no_effects no_effects).
  reflexivity.
Defined.

(** X8: the body of [main] never touches a file other than its two
    result files, whatever the outcome; and when no write fails, a run
    that raises leaves every file as it was, the result files
    included. *)
Theorem only_result_files_written :
  forall (SO : ScoreOps) (w : world SO) (a : args_ns) (st st' : effects)
         (r : result unit),
    main_body w a st = (st', r) ->
    (forall f, f <> conf_fname a -> f <> vote_fname a ->
               fs_read (files st') f = fs_read (files st) f)
    /\ ((forall f, io_fault w f = None) ->
        forall e, r = Raise e -> files st' = files st).
Proof.
  intros SO w a st st' r H. unfold main_body, bindM, liftR in H.
  destruct (build_catalog _ _) as [cat | e0] eqn:Hcat;
    [| inversion H; subst; split; [reflexivity | reflexivity]].
  destruct (accumulate w a cat _ st) as [st1 r1] eqn:Hacc.
  apply accumulate_effects in Hacc. destruct Hacc as (Hf & _).
  destruct r1 as [b | e1];
    [| inversion H; subst; split; [intros; rewrite Hf; reflexivity
                                  | intros; exact Hf]].
  destruct (finalize w b) as [res | e2];
    [| inversion H; subst; split; [intros; rewrite Hf; reflexivity
                                  | intros; exact Hf]].
  split.
  - intros f Hc Hv. unfold write_outputs, bindM in H.
    destruct (dump_to w (conf_fname a) _ st1) as [st2 r2] eqn:Hd1.
    apply dump_to_effects in Hd1. destruct Hd1 as [_ H1].
    destruct r2.
    + apply dump_to_effects in H. destruct H as [_ H2].
      rewrite H2, H1, Hf by assumption. reflexivity.
    + inversion H; subst. rewrite H1, Hf by assumption. reflexivity.
  - intros Hio e Hr. subst r.
    rewrite write_outputs_ok in H by exact Hio. inversion H.
Qed.

Lemma only_result_files_written_witness :
  main_body Scenario.w Scenario.args
    (mk_effects [("out/notes.txt", "keep")] [])
  = (mk_effects
       [("out/notes.txt", "keep");
        ("out/result-conf.json", json_dumps [mk_answer 1 "no"]);
        ("out/result-vote.json", json_dumps [mk_answer 1 "no"])]
       [Inference Scenario.model_A; Inference Scenario.model_B], Ok tt)
  /\ (forall f, f <> conf_fname Scenario.args -> f <> vote_fname Scenario.args ->
        fs_read
          [("out/notes.txt", "keep");
           ("out/result-conf.json", json_dumps [mk_answer 1 "no"]);
           ("out/result-vote.json", json_dumps [mk_answer 1 "no"])] f
        = fs_read [("out/notes.txt", "keep")] f).
Proof.
  split; [vm_compute; reflexivity |].
  apply (proj1 (only_result_files_written QScore Scenario.w Scenario.args
                  (mk_effects [("out/notes.txt", "keep")] [])
                  (mk_effects
                     [("out/notes.txt", "keep");
                      ("out/result-conf.json", json_dumps [mk_answer 1 "no"]);
                      ("out/result-vote.json", json_dumps [mk_answer 1 "no"])]
                     [Inference Scenario.model_A; Inference Scenario.model_B])
                  (Ok tt) ltac:(vm_compute; reflexivity))).
Defined.

(** ** Score tensors that a pass accepts *)

Section Shapes.

Context {SO : ScoreOps}.

Lemma conf_iadd_widths (v : nat) (conf : list row) (start : nat)
  (sc conf' : list row) :
  conf_iadd v conf start sc = Ok conf' ->
  Forall (fun r => List.length r = v \/ List.length r = 1) sc.
Proof.
  unfold conf_iadd. intros H.
  match type of H with
  | (if ?c then _ else _) = _ => destruct c eqn:E; [| discriminate]
  end.
  apply andb_true_iff in E. destruct E as [_ E].
  apply Forall_forall. intros r Hr.
  rewrite forallb_forall in E. specialize (E r Hr).
  apply orb_true_iff in E. destruct E as [E | E]; apply Nat.eqb_eq in E; auto.
Qed.

Lemma torch_max_rows_not_empty (t : list row) (ans_ids : list nat) :
  torch_max_dim1 t = Ok ans_ids -> Forall (fun r : row => r <> []) t.
Proof.
  unfold torch_max_dim1. intros H. apply mapM_Forall2 in H.
  induction H as [| r i t ids Hr _ IH]; constructor; [| exact IH].
  destruct r; [discriminate | discriminate].
Qed.

Lemma batches_shapes (itoa : list string) (acc : Z) (scs : list (list row)) :
  forall (start : nat) (b : buffers SO) (st' : nat * buffers SO),
    foldM (batch_step itoa acc) (start, b) scs = Ok st' ->
    Forall (fits (List.length itoa)) (List.concat scs)
    /\ (List.concat scs = []
        \/ start + List.length (List.concat scs) <= List.length (vote_buff b)).
Proof.
  induction scs as [| sc scs IH]; intros start b st' H; simpl in *.
  - split; [constructor | left; reflexivity].
  - inv_bind H. destruct x as [start1 b1]. unfold batch_step in Hx.
    inv_bind Hx. rename x into conf1, Hx0 into Hconf.
    inv_bind Hx. rename x into ans_ids, Hx0 into Hmax.
    inv_bind Hx. rename x into vote1, Hx0 into Hvote.
    inversion Hx; subst start1 b1. clear Hx.
    apply IH in H. simpl in H. destruct H as [Hfit Hbound].
    pose proof (conf_iadd_widths _ _ _ _ _ Hconf) as Hw.
    pose proof (torch_max_rows_not_empty _ _ Hmax) as Hne.
    assert (Hids : List.length ans_ids = List.length sc)
      by (eapply mapM_length; exact Hmax).
    apply vote_rows_spec in Hvote.
    destruct Hvote as (answers & _ & -> & Hb).
    rewrite vote_at_length in Hbound.
    split.
    + apply Forall_app. split; [| exact Hfit].
      rewrite Forall_forall in *. intros r Hr. split; auto.
    + rewrite length_app.
      destruct sc as [| r sc'].
      * simpl in *. destruct Hbound as [-> | Hbound]; [left; reflexivity |].
        right. unfold row in *. lia.
      * right. destruct ans_ids as [| i ids]; [discriminate |].
        specialize (Hb ltac:(discriminate)).
        destruct Hbound as [-> | Hbound]; simpl in *; unfold row in *; lia.
Qed.

End Shapes.

(** X9: a pass that succeeds has been given score tensors that fit: no
    more rows in all than the buffers have samples, no empty row, and
    every row as wide as the vocabulary or one wide (which numpy
    broadcasts); the buffers keep their sizes.  So a model that returns
    too many rows, an empty row or a row of another width makes the run
    raise, while too few rows are not detected. *)
Theorem pass_accepts_only_fitting_scores :
  forall (SO : ScoreOps) (w : world SO) (a : args_ns) (b b' : buffers SO)
         (e : entry),
    model_pass w a b e = Ok b' ->
    List.length (all_rows w a e) <= List.length (vote_buff b)
    /\ Forall (fits (List.length (codebook_itoa w))) (all_rows w a e)
    /\ List.length (conf_buff b') = List.length (conf_buff b)
    /\ List.length (vote_buff b') = List.length (vote_buff b).
Proof.
  intros SO w a b b' e H.
  pose proof (model_pass_lengths w a b b' e H) as [Hc Hv].
  unfold model_pass, all_rows in *.
  destruct (data_loader (dataset_len w) (bs a)) as [batches | err];
    [| discriminate].
  simpl in H. inv_bind H. apply batches_shapes in Hx.
  destruct Hx as [Hfit Hbound].
  split; [| split; [exact Hfit | split; assumption]].
  destruct Hbound as [-> | Hbound]; simpl in *; lia.
Qed.

Lemma pass_accepts_only_fitting_scores_witness :
  model_pass Scenario.w Scenario.args (init_buffers 1 3) Scenario.model_A
  = Ok (@mk_buffers QScore [[1 # 10; 7 # 10; 2 # 10]%Q] [[("no", 80%Z)]])
  /\ List.length (all_rows Scenario.w Scenario.args Scenario.model_A) <= 1
  /\ Forall (fits 3) (all_rows Scenario.w Scenario.args Scenario.model_A).
Proof.
  split; [vm_compute; reflexivity |].
  destruct (pass_accepts_only_fitting_scores QScore Scenario.w Scenario.args
              (init_buffers 1 3)
              (@mk_buffers QScore [[1 # 10; 7 # 10; 2 # 10]%Q] [[("no", 80%Z)]])
              Scenario.model_A ltac:(vm_compute; reflexivity))
    as (H1 & H2 & _).
  split; [exact H1 | exact H2].
Defined.

(** A model that leaves a sample without a vote is not detected by the
    pass; the run then stops at line 94. *)
Example short_pass_raises_at_the_vote :
  exists b : buffers QScore,
    run_models
      (@mk_world QScore Scenario.args (os_listdir Scenario.w) 2 [1%Z; 2%Z]
         Scenario.itoa (fun e batch => firstn 1 (Scenario.scores e batch))
         (fun _ => None))
      Scenario.args [Scenario.model_A; Scenario.model_B] (init_buffers 2 3)
    = Ok b
    /\ vote_buff b = [[("no", 80%Z); ("yes", 60%Z)]; []]
    /\ finalize
         (@mk_world QScore Scenario.args (os_listdir Scenario.w) 2 [1%Z; 2%Z]
            Scenario.itoa (fun e batch => firstn 1 (Scenario.scores e batch))
            (fun _ => None)) b
       = Raise (IndexError "list index out of range").
Proof.
  eexists. split; [vm_compute; reflexivity |]. split; reflexivity.
Qed.

(** * The training script *)

(** ** The learning-rate schedule *)

(** X10: the decay exponent of [adjust_learning_rate] is 0 before epoch
    [lr_decay_start], is 1 at that epoch already, grows by one every ten
    epochs from there, and never decreases with the epoch. *)
Theorem lr_exponent_schedule :
  forall epoch decay_start : Z,
    ((epoch < decay_start)%Z -> Train.lr_exponent epoch decay_start = 0%Z)
    /\ ((decay_start <= epoch)%Z ->
        Train.lr_exponent epoch decay_start
        = ((epoch - decay_start) / 10 + 1)%Z
        /\ (1 <= Train.lr_exponent epoch decay_start)%Z
        /\ Train.lr_exponent (epoch + 10) decay_start
           = (Train.lr_exponent epoch decay_start + 1)%Z)
    /\ (forall epoch' : Z,
           (epoch <= epoch')%Z ->
           (Train.lr_exponent epoch decay_start
            <= Train.lr_exponent epoch' decay_start)%Z).
Proof.
  intros epoch decay_start. unfold Train.lr_exponent. split; [| split].
  - intros H. Z.div_mod_to_equations. lia.
  - intros H.
    replace (epoch + 10 - decay_start)%Z with (epoch - decay_start + 1 * 10)%Z
      by lia.
    rewrite Z.div_add by lia.
    Z.div_mod_to_equations. lia.
  - intros epoch' H.
    pose proof (Z.div_le_mono (epoch - decay_start) (epoch' - decay_start) 10
                  ltac:(lia) ltac:(lia)).
    lia.
Qed.

Lemma lr_exponent_schedule_witness :
  Train.lr_exponent 39 40 = 0%Z
  /\ Train.lr_exponent 40 40 = ((40 - 40) / 10 + 1)%Z
  /\ Train.lr_exponent (40 + 10) 40 = (Train.lr_exponent 40 40 + 1)%Z.
Proof.
  split; [apply (proj1 (lr_exponent_schedule 39 40)); lia |].
  destruct (proj1 (proj2 (lr_exponent_schedule 40 40)) ltac:(lia))
    as (H1 & _ & H3).
  split; [exact H1 | exact H3].
Defined.

Lemma assoc_get_set_same {V : Type} (d : list (string * V)) (k : string) (x : V) :
  Train.assoc_get (Train.assoc_set d k x) k = Some x.
Proof.
  induction d as [| [k' x'] d IH]; simpl.
  - rewrite String.eqb_refl. reflexivity.
  - destruct (String.eqb k' k) eqn:Hk; simpl; rewrite Hk; auto.
Qed.

Lemma assoc_get_set_other {V : Type} (d : list (string * V)) (k k' : string)
  (x : V) :
  k <> k' -> Train.assoc_get (Train.assoc_set d k x) k' = Train.assoc_get d k'.
Proof.
  intros Hne. induction d as [| [k0 x0] d IH]; simpl.
  - destruct (String.eqb k k') eqn:E; [| reflexivity].
    apply String.eqb_eq in E. contradiction.
  - destruct (String.eqb k0 k) eqn:Hk; simpl.
    + apply String.eqb_eq in Hk. subst k0.
      destruct (String.eqb k k') eqn:E; [| reflexivity].
      apply String.eqb_eq in E. contradiction.
    + rewrite IH. reflexivity.
Qed.

Lemma assoc_set_length {V : Type} (d : list (string * V)) (k : string) (x : V) :
  Train.assoc_get d k <> None ->
  map fst (Train.assoc_set d k x) = map fst d.
Proof.
  induction d as [| [k' x'] d IH]; simpl; [congruence |].
  destruct (String.eqb k' k) eqn:Hk; simpl; [reflexivity |].
  intros H. f_equal. apply IH. exact H.
Qed.

(** X11: with both schedule options at their defaults,
    [adjust_learning_rate] returns
    [LEARNING_RATE * lr_decay_factor ** exponent] and stores it under
    ['lr'] in every parameter group; the other entries of a group keep
    their values, no group is added or dropped, and a group that had an
    ['lr'] entry keeps its keys in order. *)
Theorem adjust_learning_rate_sets_every_group :
  forall (NO : Train.NumOps) (rate : Train.num) (args : Train.train_args)
         (groups : list Train.param_group) (epoch decay_start : Z)
         (factor : Train.num),
    Train.lr_decay_start args = Train.Default decay_start ->
    Train.lr_decay_factor args = Train.Default factor ->
    let lr := Train.n_mul rate
                (Train.n_pow factor (Train.lr_exponent epoch decay_start)) in
    exists groups',
      Train.adjust_learning_rate rate args groups epoch = (groups', Train.Done lr)
      /\ Forall2
           (fun g g' =>
              Train.assoc_get g' "lr" = Some (Train.GNum lr)
              /\ (forall k, k <> "lr" -> Train.assoc_get g' k = Train.assoc_get g k)
              /\ (Train.assoc_get g "lr" <> None -> map fst g' = map fst g))
           groups groups'.
Proof.
  intros NO rate args groups epoch decay_start factor Hs Hf lr.
  unfold Train.adjust_learning_rate. rewrite Hs, Hf. fold lr.
  eexists. split; [reflexivity |].
  induction groups as [| g groups IH]; simpl; constructor; [| exact IH].
  split; [apply assoc_get_set_same |]. split.
  - intros k Hk. apply assoc_get_set_other. congruence.
  - apply assoc_set_length.
Qed.

Lemma adjust_learning_rate_sets_every_group_witness :
  exists groups',
    @Train.adjust_learning_rate Train.QNum (1 # 1000)%Q
      (@Train.mk_train_args Train.QNum 0 200 10 (Train.Default 40%Z)
         (Train.Default (8 # 10)%Q))
      [[("params", Train.GOpaque 0); ("lr", @Train.GNum Train.QNum (1 # 1000)%Q)]]
      45
    = (groups',
       Train.Done (@Train.n_mul Train.QNum (1 # 1000)%Q
                     (@Train.n_pow Train.QNum (8 # 10)%Q (Train.lr_exponent 45 40))))
    /\ Forall2
         (fun g g' =>
            Train.assoc_get g' "lr"
            = Some (@Train.GNum Train.QNum
                      (@Train.n_mul Train.QNum (1 # 1000)%Q
                         (@Train.n_pow Train.QNum (8 # 10)%Q
                            (Train.lr_exponent 45 40))))
            /\ (forall k, k <> "lr" -> Train.assoc_get g' k = Train.assoc_get g k)
            /\ (Train.assoc_get g "lr" <> None -> map fst g' = map fst g))
         [[("params", Train.GOpaque 0); ("lr", @Train.GNum Train.QNum (1 # 1000)%Q)]]
         groups'.
Proof.
  apply (adjust_learning_rate_sets_every_group Train.QNum (1 # 1000)%Q
           (@Train.mk_train_args Train.QNum 0 200 10 (Train.Default 40%Z)
              (Train.Default (8 # 10)%Q))
           [[("params", Train.GOpaque 0);
             ("lr", @Train.GNum Train.QNum (1 # 1000)%Q)]]
           45 40 (8 # 10)%Q); reflexivity.
Defined.

(** ** [AverageMeter] *)

Lemma last_default {A : Type} (l : list A) (d d' : A) :
  l <> [] -> last l d = last l d'.
Proof.
  induction l as [| x l IH]; [congruence |]. intros _.
  destruct l as [| y l]; [reflexivity |].
  change (last (y :: l) d = last (y :: l) d'). apply IH. discriminate.
Qed.

Section Meter.

Context {NO : Train.NumOps}.

Lemma updates_positive (calls : list (Train.num * Z)) :
  Forall (fun c => (0 < snd c)%Z) calls ->
  forall m : Train.AverageMeter,
    (0 <= Train.m_count m)%Z ->
    exists m',
      Train.updates m calls = (m', Train.Done tt)
      /\ Train.m_count m' = (Train.m_count m + Train.total_count calls)%Z
      /\ Train.m_sum m'
         = fold_left
             (fun s c => Train.n_add s (Train.n_mul (fst c) (Train.of_int (snd c))))
             calls (Train.m_sum m)
      /\ (calls <> [] ->
          Train.m_val m' = fst (last calls (Train.m_val m, 0%Z))
          /\ Train.m_avg m'
             = Train.n_div (Train.m_sum m') (Train.of_int (Train.m_count m'))).
Proof.
  induction 1 as [| [val n] calls Hn _ IH]; intros m Hm; simpl in *.
  - exists m. repeat split; try lia. congruence.
  - unfold Train.update.
    destruct (Train.m_count m + n =? 0)%Z eqn:E; [apply Z.eqb_eq in E; lia |].
    set (m1 := Train.mk_meter val _ _ _).
    destruct (IH m1) as (m' & Hrun & Hc & Hs & Hlast); [simpl; lia |].
    exists m'. split; [exact Hrun |]. split; [rewrite Hc; simpl; lia |].
    split; [exact Hs |]. intros _.
    destruct calls as [| c calls'].
    + simpl in Hrun. inversion Hrun; subst m'. simpl. auto.
    + destruct (Hlast ltac:(discriminate)) as [Hv Ha]. split; [| exact Ha].
      rewrite Hv. change (last ((val, n) :: c :: calls') (Train.m_val m, 0%Z))
        with (last (c :: calls') (Train.m_val m, 0%Z)).
      f_equal. apply last_default. discriminate.
Qed.

End Meter.

(** X12: on a fresh [AverageMeter], calls [update(val, n)] with positive
    [n] never raise; afterwards [count] is the sum of the [n], [sum] is
    the sum of the [val * n] in call order, [val] is the last value and
    [avg] is [sum / count].  A call that brings the count to zero raises
    [ZeroDivisionError] after [val], [sum] and [count] have been
    overwritten, [avg] keeping its previous value. *)
Theorem average_meter_invariant :
  forall (NO : Train.NumOps),
    (forall calls : list (Train.num * Z),
        Forall (fun c => (0 < snd c)%Z) calls ->
        exists m,
          Train.updates Train.reset calls = (m, Train.Done tt)
          /\ Train.m_count m = Train.total_count calls
          /\ Train.m_sum m = Train.weighted_sum calls
          /\ (calls <> [] ->
              Train.m_val m = fst (last calls (Train.of_int 0, 0%Z))
              /\ Train.m_avg m
                 = Train.n_div (Train.weighted_sum calls)
                     (Train.of_int (Train.total_count calls))))
    /\ (forall (m : Train.AverageMeter) (val : Train.num) (n : Z),
           (Train.m_count m + n = 0)%Z ->
           Train.update m val n
           = (Train.mk_meter val (Train.m_avg m)
                (Train.n_add (Train.m_sum m) (Train.n_mul val (Train.of_int n))) 0,
              Train.Fail (Train.ZeroDivisionError "float division by zero"))).
Proof.
  intros NO. split.
  - intros calls Hpos.
    destruct (updates_positive calls Hpos Train.reset) as (m & Hrun & Hc & Hs & Hl);
      [simpl; lia |].
    exists m. split; [exact Hrun |]. split; [exact Hc |]. split; [exact Hs |].
    intros Hne. destruct (Hl Hne) as [Hv Ha]. split; [exact Hv |].
    rewrite Ha, Hs, Hc. reflexivity.
  - intros m val n H. unfold Train.update. rewrite H. reflexivity.
Qed.

Lemma average_meter_invariant_witness :
  exists m,
    @Train.updates Train.QNum Train.reset [((1 # 2)%Q, 4%Z); ((1 # 4)%Q, 2%Z)]
    = (m, Train.Done tt)
    /\ Train.m_count m = 6%Z
    /\ Qeq (@Train.m_avg Train.QNum m) (5 # 12).
Proof.
  destruct (proj1 (average_meter_invariant Train.QNum)
              [((1 # 2)%Q, 4%Z); ((1 # 4)%Q, 2%Z)])
    as (m & Hrun & Hc & _ & Hl).
  - repeat constructor.
  - exists m. split; [exact Hrun |]. split; [exact Hc |].
    destruct (Hl ltac:(discriminate)) as [_ Ha]. rewrite Ha. reflexivity.
Defined.

Section TrainLoss.

Context {NO : Train.NumOps}.

Lemma train_loop_updates (print_freq : Z) (batches : list (Train.num * Z)) :
  print_freq <> 0%Z ->
  forall (losses m : Train.AverageMeter) (i : Z),
    Train.updates losses batches = (m, Train.Done tt) ->
    Train.train_loop print_freq losses i batches = Train.Done (Train.m_avg m).
Proof.
  intros Hpf. induction batches as [| [loss size] rest IH];
    intros losses m i H; simpl in *.
  - inversion H. reflexivity.
  - destruct (Train.update losses loss size) as [m1 [[] | e]]; [| discriminate].
    destruct (print_freq =? 0)%Z eqn:E; [apply Z.eqb_eq in E; contradiction |].
    eapply IH. exact H.
Qed.

End TrainLoss.

(** X13: [train] returns the running average of the batch losses,
    weighted by batch size: the integer 0 for a loader without batches,
    and [sum(loss * size) / sum(size)] for batches of positive size when
    [print_freq] is not zero.  With [print_freq] zero and at least one
    batch of positive size it raises [ZeroDivisionError] at the first
    batch. *)
Theorem train_returns_weighted_mean :
  forall (NO : Train.NumOps) (print_freq : Z) (batches : list (Train.num * Z)),
    Train.train print_freq [] = Train.Done (Train.of_int 0)
    /\ (Forall (fun c => (0 < snd c)%Z) batches -> batches <> [] ->
        (print_freq <> 0%Z ->
         Train.train print_freq batches
         = Train.Done (Train.n_div (Train.weighted_sum batches)
                         (Train.of_int (Train.total_count batches))))
        /\ (print_freq = 0%Z ->
            Train.train print_freq batches
            = Train.Fail (Train.ZeroDivisionError
                            "integer division or modulo by zero"))).
Proof.
  intros NO print_freq batches. split; [reflexivity |].
  intros Hpos Hne. split.
  - intros Hpf.
    destruct (updates_positive batches Hpos Train.reset)
      as (m & Hrun & Hc & Hs & Hl); [simpl; lia |].
    unfold Train.train.
    rewrite (train_loop_updates print_freq batches Hpf _ m _ Hrun).
    destruct (Hl Hne) as [_ ->]. rewrite Hs, Hc. reflexivity.
  - intros ->. destruct batches as [| [loss size] rest]; [congruence |].
    inversion Hpos; subst. simpl in *. unfold Train.train. simpl.
    unfold Train.update. simpl.
    destruct (size =? 0)%Z eqn:E; [apply Z.eqb_eq in E; lia |]. reflexivity.
Qed.

(** ** The epoch loop *)

Lemma range_nil (start stop : Z) : (stop <= start)%Z -> Train.range start stop = [].
Proof.
  intros H. unfold Train.range.
  replace (Z.to_nat (stop - start)) with 0 by lia. reflexivity.
Qed.

Lemma range_cons (start stop : Z) :
  (start < stop)%Z ->
  Train.range start stop = start :: Train.range (start + 1) stop.
Proof.
  intros H. unfold Train.range.
  replace (Z.to_nat (stop - start)) with (S (Z.to_nat (stop - (start + 1))))
    by lia.
  simpl. f_equal; [lia |].
  rewrite <- seq_shift, map_map. apply map_ext. intros i. lia.
Qed.

Lemma range_snoc (start stop : Z) :
  (start < stop)%Z ->
  Train.range start stop = Train.range start (stop - 1) ++ [(stop - 1)%Z].
Proof.
  intros H. unfold Train.range.
  replace (Z.to_nat (stop - start)) with (S (Z.to_nat (stop - 1 - start)))
    by lia.
  rewrite seq_S, map_app. simpl. f_equal. f_equal. lia.
Qed.

Lemma os_path_join_inj (d a b : string) :
  prefix "/" a = false -> prefix "/" b = false ->
  os_path_join d a = os_path_join d b -> a = b.
Proof.
  unfold os_path_join. intros -> ->.
  destruct (String.eqb d EmptyString || endswith d "/"); intros H;
    apply append_cancel_l in H; [exact H |].
  simpl in H. inversion H. reflexivity.
Qed.

Lemma cp_path_not_best_path (d : string) (epoch : Z) :
  os_path_join d (Train.cp_fname epoch) <> os_path_join d Train.best_fname.
Proof.
  intros H. apply os_path_join_inj in H; [discriminate | reflexivity ..].
Qed.

Section Epochs.

Context {NO : Train.NumOps}.

Lemma epoch_loop_app (env : Train.train_env) (args : Train.train_args)
  (l1 l2 : list Z) :
  forall s : Train.loop_state,
    Train.epoch_loop env args s (l1 ++ l2)
    = match Train.epoch_loop env args s l1 with
      | (s1, Train.Done _) => Train.epoch_loop env args s1 l2
      | (s1, Train.Fail e) => (s1, Train.Fail e)
      end.
Proof.
  induction l1 as [| e l1 IH]; intros s; simpl; [reflexivity |].
  destruct (Train.epoch_step env args s e) as [s1 [[] | err]]; [apply IH |].
  reflexivity.
Qed.

(** An iteration that completes has trained and validated. *)
Lemma epoch_step_done (env : Train.train_env) (args : Train.train_args)
  (s s' : Train.loop_state) (epoch : Z) :
  Train.epoch_step env args s epoch = (s', Train.Done tt) ->
  epoch_runs env args epoch.
Proof.
  unfold Train.epoch_step, epoch_runs. intros H.
  destruct (Train.adjust_learning_rate _ _ _ _) as [groups [lr | err]];
    [| discriminate].
  destruct (Train.train _ _) as [loss | err]; [| discriminate].
  destruct (Train.validate_error env epoch); [discriminate |].
  split; [exists loss; reflexivity | reflexivity].
Qed.

(** One iteration with the schedule options at their defaults, when
    training and validation do not raise. *)
Lemma epoch_step_defaults (env : Train.train_env) (args : Train.train_args)
  (s : Train.loop_state) (epoch : Z) :
  schedule_defaults args ->
  epoch_runs env args epoch ->
  exists groups,
    let acc := Train.acc_of env epoch in
    let improved := Train.n_lt (Train.best_acc s) acc in
    let best_acc' := if improved then acc else Train.best_acc s in
    let best_epoch' := if improved then epoch else Train.best_epoch s in
    let is_best' := if improved then Some true else Train.is_best s in
    let state := Train.mk_checkpoint (epoch + 1) epoch best_acc' in
    let saved1 :=
      Train.assoc_set (Train.saved s)
        (os_path_join (Train.LOG_DIR env) (Train.cp_fname epoch)) state in
    Train.epoch_step env args s epoch
    = match is_best' with
      | None =>
          (Train.mk_loop_state best_acc' best_epoch' None saved1 groups,
           Train.Fail (Train.Other (UnboundLocalError "is_best")))
      | Some flag =>
          (Train.mk_loop_state best_acc' best_epoch' (Some flag)
             (if flag
              then Train.assoc_set saved1
                     (os_path_join (Train.LOG_DIR env) Train.best_fname) state
              else saved1) groups,
           Train.Done tt)
      end.
Proof.
  intros [[ds Hds] [f Hf]] [[loss Hloss] Hval].
  unfold Train.epoch_step, Train.adjust_learning_rate.
  rewrite Hds, Hf. cbv zeta. rewrite Hloss, Hval. eexists.
  destruct (Train.n_lt (Train.best_acc s) (Train.acc_of env epoch)).
  - reflexivity.
  - destruct (Train.is_best s); reflexivity.
Qed.




(** The flag is never [False]: unbound, or [True]. *)
Lemma epoch_step_flag (env : Train.train_env) (args : Train.train_args)
  (s s' : Train.loop_state) (epoch : Z) (r : Train.outcome unit) :
  Train.is_best s = None \/ Train.is_best s = Some true ->
  Train.epoch_step env args s epoch = (s', r) ->
  Train.is_best s' = None \/ Train.is_best s' = Some true.
Proof.
  intros Hflag H. unfold Train.epoch_step in H.
  destruct (Train.adjust_learning_rate _ _ _ _) as [groups [lr | err]];
    [| inversion H; subst; exact Hflag].
  destruct (Train.train _ _) as [loss | err];
    [| inversion H; subst; exact Hflag].
  destruct (Train.validate_error env epoch);
    [inversion H; subst; exact Hflag |].
  destruct (Train.n_lt (Train.best_acc s) (Train.acc_of env epoch)).
  - inversion H; subst. right. reflexivity.
  - destruct Hflag as [Hf | Hf]; rewrite Hf in H; inversion H; subst; simpl; auto.
Qed.

Lemma epoch_loop_flag (env : Train.train_env) (args : Train.train_args)
  (l : list Z) :
  forall (s s' : Train.loop_state) (r : Train.outcome unit),
    Train.is_best s = None \/ Train.is_best s = Some true ->
    Train.epoch_loop env args s l = (s', r) ->
    Train.is_best s' = None \/ Train.is_best s' = Some true.
Proof.
  induction l as [| e l IH]; intros s s' r Hflag H; simpl in H.
  - inversion H; subst. exact Hflag.
  - destruct (Train.epoch_step env args s e) as [s1 r1] eqn:Hstep.
    pose proof (epoch_step_flag env args s s1 e r1 Hflag Hstep) as Hflag1.
    destruct r1 as [[] | err]; [eapply IH; eassumption |].
    inversion H; subst. exact Hflag1.
Qed.

End Epochs.

(** X14: when training and validation of the first epoch return and its
    accuracy is not above 0, the training loop raises the unbound-local
    error for [is_best] at the end of that epoch: the flag is assigned
    only when the accuracy improves.  The epoch's checkpoint has been
    written by then, and there is no [model-best.pth.tar]. *)
Theorem first_epoch_without_improvement_raises :
  forall (NO : Train.NumOps) (env : Train.train_env) (args : Train.train_args)
         (groups : list Train.param_group),
    schedule_defaults args ->
    (Train.start_epoch args < Train.epochs args)%Z ->
    epoch_runs env args (Train.start_epoch args) ->
    Train.n_lt (Train.of_int 0) (Train.acc_of env (Train.start_epoch args))
      = false ->
    exists s,
      Train.main_epochs env args groups
        = (s, Train.Fail (Train.Other (UnboundLocalError "is_best")))
      /\ Train.saved s
         = [(os_path_join (Train.LOG_DIR env)
               (Train.cp_fname (Train.start_epoch args)),
             Train.mk_checkpoint (Train.start_epoch args + 1)
               (Train.start_epoch args) (Train.of_int 0))]
      /\ Train.assoc_get (Train.saved s)
           (os_path_join (Train.LOG_DIR env) Train.best_fname) = None.
Proof.
  intros NO env args groups Hdef Hrange Hruns Hacc.
  unfold Train.main_epochs. rewrite range_cons by exact Hrange. simpl.
  destruct (epoch_step_defaults env args (Train.init_state groups)
              (Train.start_epoch args) Hdef Hruns) as [groups' Heq].
  cbv zeta in Heq. simpl in Heq. rewrite Hacc in Heq. rewrite Heq.
  eexists. split; [reflexivity |]. simpl. split; [reflexivity |].
  destruct (String.eqb _ _) eqn:E; [| reflexivity].
  apply String.eqb_eq in E. apply cp_path_not_best_path in E. destruct E.
Qed.

Lemma train_scenario_defaults : schedule_defaults TrainScenario.args.
Proof. split; eexists; reflexivity. Qed.

Lemma first_epoch_without_improvement_raises_witness :
  exists s,
    @Train.main_epochs Train.QNum TrainScenario.env_flat TrainScenario.args []
      = (s, Train.Fail (Train.Other (UnboundLocalError "is_best")))
    /\ Train.saved s
       = [(os_path_join "log" (Train.cp_fname 0),
           @Train.mk_checkpoint Train.QNum (0 + 1) 0 (inject_Z 0))]
    /\ Train.assoc_get (Train.saved s) (os_path_join "log" Train.best_fname)
       = None.
Proof.
  apply (first_epoch_without_improvement_raises Train.QNum
           TrainScenario.env_flat TrainScenario.args []).
  - exact train_scenario_defaults.
  - simpl. lia.
  - split; [eexists; vm_compute; reflexivity | reflexivity].
  - reflexivity.
Defined.

(** With [--print-freq 0] the first epoch stops in [train], before
    validation and before any checkpoint. *)
Example print_freq_zero_stops_in_train :
  @Train.main_epochs Train.QNum TrainScenario.env_flat
    TrainScenario.args_no_print []
  = (Train.init_state [],
     Train.Fail (Train.ZeroDivisionError "integer division or modulo by zero")).
Proof. vm_compute. reflexivity. Qed.

(** X15: when the training loop completes, [model-best.pth.tar] is a
    copy of the checkpoint of the last epoch, whichever epoch was best:
    once an epoch has improved, [is_best] stays true and every later
    epoch copies its checkpoint over it. *)
Theorem model_best_is_last_checkpoint :
  forall (NO : Train.NumOps) (env : Train.train_env) (args : Train.train_args)
         (groups : list Train.param_group) (s : Train.loop_state),
    schedule_defaults args ->
    (Train.start_epoch args < Train.epochs args)%Z ->
    Train.main_epochs env args groups = (s, Train.Done tt) ->
    let last_epoch := (Train.epochs args - 1)%Z in
    Train.assoc_get (Train.saved s)
      (os_path_join (Train.LOG_DIR env) Train.best_fname)
    = Some (Train.mk_checkpoint (last_epoch + 1) last_epoch (Train.best_acc s))
    /\ Train.assoc_get (Train.saved s)
         (os_path_join (Train.LOG_DIR env) (Train.cp_fname last_epoch))
       = Some (Train.mk_checkpoint (last_epoch + 1) last_epoch (Train.best_acc s)).
Proof.
  intros NO env args groups s Hdef Hrange H last_epoch.
  unfold Train.main_epochs in H. rewrite range_snoc in H by exact Hrange.
  fold last_epoch in H. rewrite epoch_loop_app in H.
  destruct (Train.epoch_loop env args (Train.init_state groups)
              (Train.range (Train.start_epoch args) last_epoch))
    as [s1 r1] eqn:Hloop.
  assert (Hflag : Train.is_best s1 = None \/ Train.is_best s1 = Some true).
  { eapply epoch_loop_flag; [| exact Hloop]. left. reflexivity. }
  destruct r1 as [[] | err]; [| discriminate].
  simpl in H.
  destruct (Train.epoch_step env args s1 last_epoch) as [s2 r2] eqn:Hstep.
  destruct r2 as [[] | err]; [| discriminate].
  inversion H; subst s2. clear H.
  pose proof (epoch_step_done env args s1 s last_epoch Hstep) as Hruns.
  rename Hstep into H.
  destruct (epoch_step_defaults env args s1 last_epoch Hdef Hruns)
    as [groups' Heq].
  cbv zeta in Heq. rewrite Heq in H. clear Heq.
  destruct (Train.n_lt (Train.best_acc s1) (Train.acc_of env last_epoch)).
  - inversion H; subst s. simpl. split; [apply assoc_get_set_same |].
    rewrite assoc_get_set_other
      by (intros E; symmetry in E; revert E; apply cp_path_not_best_path).
    apply assoc_get_set_same.
  - destruct Hflag as [Hf | Hf]; rewrite Hf in H; [discriminate |].
    inversion H; subst s. simpl. split; [apply assoc_get_set_same |].
    rewrite assoc_get_set_other
      by (intros E; symmetry in E; revert E; apply cp_path_not_best_path).
    apply assoc_get_set_same.
Qed.

Lemma model_best_is_last_checkpoint_witness :
  exists s,
    @Train.main_epochs Train.QNum TrainScenario.env TrainScenario.args []
      = (s, Train.Done tt)
    /\ Train.best_epoch s = 1%Z
    /\ Train.assoc_get (Train.saved s) (os_path_join "log" Train.best_fname)
       = Some (@Train.mk_checkpoint Train.QNum (2 + 1) 2 (Train.best_acc s)).
Proof.
  eexists. split; [vm_compute; reflexivity |]. split; [reflexivity |].
  apply (model_best_is_last_checkpoint Train.QNum TrainScenario.env
           TrainScenario.args [] _ train_scenario_defaults).
  - simpl. lia.
  - vm_compute. reflexivity.
Defined.




(** X17: a schedule option given on the command line stops training at
    the first epoch.  [--lr-decay-start] and [--lr-decay-factor] are
    declared without [type=], so a value given on the command line
    arrives as text and [adjust_learning_rate] raises [TypeError] on it;
    no checkpoint is written and no parameter group is changed. *)
Theorem schedule_option_on_command_line_raises :
  forall (NO : Train.NumOps) (env : Train.train_env) (args : Train.train_args)
         (groups : list Train.param_group),
    (exists text, Train.lr_decay_start args = Train.Given text)
    \/ (exists text, Train.lr_decay_factor args = Train.Given text) ->
    (Train.start_epoch args < Train.epochs args)%Z ->
    exists msg,
      Train.main_epochs env args groups
      = (Train.init_state groups, Train.Fail (Train.TypeError msg)).
Proof.
  intros NO env args groups Hcli Hrange. unfold Train.main_epochs.
  rewrite range_cons by exact Hrange. simpl.
  unfold Train.epoch_step, Train.adjust_learning_rate. simpl.
  destruct (Train.lr_decay_start args) as [ds | text] eqn:Hs.
  - destruct Hcli as [[text Ht] | [text Ht]]; [discriminate |].
    rewrite Ht. eexists. reflexivity.
  - eexists. reflexivity.
Qed.

Lemma schedule_option_on_command_line_raises_witness :
  exists msg,
    @Train.main_epochs Train.QNum TrainScenario.env TrainScenario.args_cli []
    = (Train.init_state [], Train.Fail (Train.TypeError msg)).
Proof.
  apply (schedule_option_on_command_line_raises Train.QNum TrainScenario.env
           TrainScenario.args_cli []).
  - left. exists "40". reflexivity.
  - simpl. lia.
Defined.

Lemma train_returns_weighted_mean_witness :
  Forall (fun c : Q * Z => (0 < snd c)%Z) [((1 # 2)%Q, 4%Z); ((1 # 4)%Q, 2%Z)]
  /\ @Train.train Train.QNum 10 [((1 # 2)%Q, 4%Z); ((1 # 4)%Q, 2%Z)]
     = Train.Done
         (@Train.n_div Train.QNum
            (@Train.weighted_sum Train.QNum [((1 # 2)%Q, 4%Z); ((1 # 4)%Q, 2%Z)])
            (@Train.of_int Train.QNum
               (@Train.total_count Train.QNum
                  [((1 # 2)%Q, 4%Z); ((1 # 4)%Q, 2%Z)]))).
Proof.
  assert (H : Forall (fun c : Q * Z => (0 < snd c)%Z)
                [((1 # 2)%Q, 4%Z); ((1 # 4)%Q, 2%Z)])
    by (repeat constructor).
  split; [exact H |].
  apply (proj2 (train_returns_weighted_mean Train.QNum 10
                  [((1 # 2)%Q, 4%Z); ((1 # 4)%Q, 2%Z)]) H).
  - discriminate.
  - discriminate.
Defined.

(** ** What training writes and the ensemble reads *)

Lemma build_catalog_malformed (d : string) (files : list string) (f : string) :
  In f files -> is_checkpoint f = true -> malformed f ->
  exists msg, build_catalog d files = Raise (ValueError msg).
Proof.
  intros Hin Hcp Hbad.
  destruct (parse_checkpoint_malformed d f Hbad) as (msg0 & Hp0 & _).
  destruct (mapM_first_error (parse_checkpoint d) (filter is_checkpoint files))
    as (bad & e & Hbin & Hbp & Hm).
  { exists f, (ValueError msg0). split; [| exact Hp0]. apply filter_In. auto. }
  assert (Hmal : malformed bad) by (eapply parse_checkpoint_error; eauto).
  destruct (parse_checkpoint_malformed d bad Hmal) as (msg & Hp & _).
  assert (e = ValueError msg) by congruence. subst e.
  exists msg. unfold build_catalog. rewrite Hm. reflexivity.
Qed.

Lemma format_03_no_dash (epoch : Z) :
  (0 <= epoch)%Z -> ~ has_dash (Train.format_03 epoch).
Proof.
  intros He. unfold Train.format_03, has_dash.
  destruct (epoch <? 0)%Z eqn:E; [apply Z.ltb_lt in E; lia |].
  unfold Train.zfill. rewrite chars_append, chars_str. intros Hin.
  apply in_app_or in Hin. destruct Hin as [Hin | Hin].
  - apply repeat_spec in Hin. discriminate.
  - revert Hin. apply py_str_int_no_dash. exact He.
Qed.

Lemma cp_fname_shape (epoch : Z) :
  Train.cp_fname epoch
  = str ((chars "checkpoint" ++ "-"%char :: chars (Train.format_03 epoch))
         ++ chars ".pth.tar").
Proof.
  rewrite <- (str_chars (Train.cp_fname epoch)). f_equal.
  unfold Train.cp_fname. rewrite !chars_append. simpl. reflexivity.
Qed.

(** X18: the checkpoint files that training writes do not follow the
    naming convention of the ensembling tool.  Each
    [checkpoint-NNN.pth.tar] of an epoch from 0 on, and
    [model-best.pth.tar], is recognised as a checkpoint and has two
    dash-separated fields only, so a directory listing that contains one
    of them makes catalog building raise [ValueError]. *)
Theorem training_output_rejected_by_catalog :
  forall epoch : Z,
    (0 <= epoch)%Z ->
    (is_checkpoint (Train.cp_fname epoch) = true
     /\ malformed (Train.cp_fname epoch))
    /\ (is_checkpoint Train.best_fname = true /\ malformed Train.best_fname)
    /\ forall (d : string) (files : list string),
         In (Train.cp_fname epoch) files \/ In Train.best_fname files ->
         exists msg, build_catalog d files = Raise (ValueError msg).
Proof.
  intros epoch He.
  assert (Hcp : is_checkpoint (Train.cp_fname epoch) = true
                /\ malformed (Train.cp_fname epoch)).
  { rewrite cp_fname_shape. split.
    - unfold is_checkpoint. rewrite str_app. apply endswith_append.
    - left. rewrite rsplit_head_pth_tar. unfold split. rewrite chars_str.
      rewrite split_on_app by (simpl; intuition discriminate).
      rewrite split_on_one by (apply format_03_no_dash; exact He).
      simpl. lia. }
  assert (Hbest : is_checkpoint Train.best_fname = true
                  /\ malformed Train.best_fname).
  { split; [reflexivity |]. left. simpl. lia. }
  split; [exact Hcp |]. split; [exact Hbest |].
  intros d files [Hin | Hin].
  - destruct Hcp. eapply build_catalog_malformed; eassumption.
  - destruct Hbest. eapply build_catalog_malformed; eassumption.
Qed.

Lemma training_output_rejected_by_catalog_witness :
  Train.cp_fname 7 = "checkpoint-007.pth.tar"
  /\ exists msg,
       build_catalog "log" ["checkpoint-006.pth.tar"; Train.cp_fname 7; "log"]
       = Raise (ValueError msg).
Proof.
  split; [reflexivity |].
  apply (proj2 (proj2 (training_output_rejected_by_catalog 7 ltac:(lia)))).
  left. simpl. auto.
Defined.

(** A negative start epoch gives names with an empty middle field, which
    the catalog builder accepts. *)
Example negative_epoch_checkpoint_parses :
  Train.cp_fname (-5) = "checkpoint--05.pth.tar"
  /\ parse_checkpoint "log" (Train.cp_fname (-5))
     = Ok (mk_entry "checkpoint" EmptyString 5 "log/checkpoint--05.pth.tar").
Proof. split; reflexivity. Qed.

(** ** Validation results *)

Lemma combine_fst_firstn {A B : Type} (l : list A) (l' : list B) :
  map fst (combine l l') = firstn (List.length l') l.
Proof.
  revert l'. induction l as [| x l IH]; intros [| y l']; simpl;
    try reflexivity.
  f_equal. apply IH.
Qed.

Lemma combine_app_aligned {A B : Type} (l1 l2 : list A) (m1 m2 : list B) :
  List.length l1 = List.length m1 ->
  combine (l1 ++ l2) (m1 ++ m2) = combine l1 m1 ++ combine l2 m2.
Proof.
  revert m1. induction l1 as [| x l1 IH]; intros [| y m1] H; simpl in *;
    try discriminate; [reflexivity |].
  f_equal. apply IH. lia.
Qed.

Section FormatResult.

Context {SO : ScoreOps}.

Lemma conf_answers_in_vocabulary (itoa : list string) (ps : list (Z * nat))
  (res : list answer_obj) :
  mapM (conf_answer itoa) ps = Ok res ->
  Forall (fun o => In (answer o) itoa) res.
Proof.
  intros H. apply mapM_Forall2 in H.
  induction H as [| p o ps os Hp _ IH]; constructor; [| exact IH].
  unfold conf_answer in Hp. inv_bind Hp. inversion Hp; subst. simpl.
  apply list_get_ok in Hx. eapply nth_error_In. exact Hx.
Qed.

Lemma format_result_app (itoa : list string) (q1 q2 : list Z)
  (s1 s2 : list row) (res : list answer_obj) :
  List.length q1 = List.length s1 ->
  (Train.format_result (q1 ++ q2) (s1 ++ s2) itoa = Ok res
   <-> exists r1 r2,
         Train.format_result q1 s1 itoa = Ok r1
         /\ Train.format_result q2 s2 itoa = Ok r2
         /\ res = r1 ++ r2).
Proof.
  intros Hlen. unfold Train.format_result, torch_max_dim1.
  rewrite mapM_app. split.
  - intros H.
    destruct (mapM argmax s1) as [i1 |] eqn:H1; [| discriminate].
    destruct (mapM argmax s2) as [i2 |] eqn:H2; [| discriminate].
    simpl in H |- *.
    rewrite combine_app_aligned in H
      by (rewrite (mapM_length _ _ _ H1); exact Hlen).
    rewrite mapM_app in H.
    destruct (mapM (conf_answer itoa) (combine q1 i1)) as [r1 |];
      [| discriminate].
    destruct (mapM (conf_answer itoa) (combine q2 i2)) as [r2 |];
      [| discriminate].
    simpl in *. inversion H; subst. exists r1, r2. auto.
  - intros (r1 & r2 & Hr1 & Hr2 & ->).
    inv_bind Hr1. inv_bind Hr2. rewrite Hx, Hx0. simpl.
    rewrite combine_app_aligned
      by (rewrite (mapM_length _ _ _ Hx); exact Hlen).
    rewrite mapM_app, Hr1, Hr2. reflexivity.
Qed.

End FormatResult.

(** X19: [format_result] pairs the question ids with the rows in order
    and stops at the shorter of the two: it returns
    [min(len(que_ids), len(scores))] objects, their question ids are the
    first ids in order, and every answer is a vocabulary string.  For a
    vocabulary that is not empty and rows as wide as the vocabulary it
    does return. *)
Theorem format_result_pairs_ids_and_answers :
  forall (SO : ScoreOps) (que_ids : list Z) (scores : list row)
         (itoa : list string),
    (forall res,
        Train.format_result que_ids scores itoa = Ok res ->
        List.length res = Nat.min (List.length que_ids) (List.length scores)
        /\ map question_id res = firstn (List.length scores) que_ids
        /\ Forall (fun o => In (answer o) itoa) res)
    /\ (itoa <> [] ->
        Forall (fun r => List.length r = List.length itoa) scores ->
        exists res, Train.format_result que_ids scores itoa = Ok res).
Proof.
  intros SO que_ids scores itoa. split.
  - intros res H. unfold Train.format_result in H. inv_bind H.
    rename x into ans_ids.
    pose proof (mapM_length _ _ _ Hx) as Hids.
    pose proof (mapM_length _ _ _ H) as Hres.
    rewrite length_combine in Hres.
    split; [unfold row in *; lia |]. split.
    + rewrite (conf_answers_ids _ _ _ H), combine_fst_firstn.
      unfold row in *. rewrite Hids. reflexivity.
    + eapply conf_answers_in_vocabulary. exact H.
  - intros Hne Hw. unfold Train.format_result.
    destruct (mapM_total argmax scores) as [ans_ids Hids].
    { eapply Forall_impl; [| exact Hw]. intros r Hr.
      destruct r as [| value r]; [| eexists; reflexivity].
      destruct itoa; [congruence | discriminate]. }
    unfold torch_max_dim1. rewrite Hids. simpl.
    apply mapM_total. apply Forall_forall. intros [q i] Hin.
    apply in_combine_r in Hin. apply mapM_Forall2 in Hids.
    assert (Hb : i < List.length itoa).
    { clear Hne. revert Hin. induction Hids as [| r j rs js Hr _ IH];
        intros Hin; [destruct Hin |].
      inversion Hw; subst. destruct Hin as [-> | Hin]; [| auto].
      apply argmax_bound in Hr. lia. }
    destruct (list_get_lt itoa i Hb) as [ans Hans].
    unfold conf_answer. simpl. rewrite Hans. simpl. eauto.
Qed.

Lemma format_result_pairs_ids_and_answers_witness :
  @Train.format_result QScore [11%Z; 12%Z; 13%Z]
    [[1 # 10; 7 # 10; 2 # 10]%Q; [6 # 10; 3 # 10; 1 # 10]%Q] Scenario.itoa
  = Ok [mk_answer 11 "no"; mk_answer 12 "yes"]
  /\ List.length [mk_answer 11 "no"; mk_answer 12 "yes"] = Nat.min 3 2
  /\ map question_id [mk_answer 11 "no"; mk_answer 12 "yes"]
     = firstn 2 [11%Z; 12%Z; 13%Z]
  /\ Forall (fun o => In (answer o) Scenario.itoa)
       [mk_answer 11 "no"; mk_answer 12 "yes"].
Proof.
  split; [reflexivity |].
  apply (proj1 (format_result_pairs_ids_and_answers QScore [11%Z; 12%Z; 13%Z]
                  [[1 # 10; 7 # 10; 2 # 10]%Q; [6 # 10; 3 # 10; 1 # 10]%Q]
                  Scenario.itoa)).
  reflexivity.
Defined.

(** X20: the result list that [validate] collects batch by batch is the
    one [format_result] gives for the whole evaluation set at once, when
    every batch has as many question ids as score rows: one succeeds
    exactly when the other does, with the same objects in the same
    order after those already collected. *)
Theorem validate_results_batchwise :
  forall (SO : ScoreOps) (itoa : list string)
         (batches : list (list Z * list row)) (results out : list answer_obj),
    Forall (fun b => List.length (fst b) = List.length (snd b)) batches ->
    (Train.validate_results itoa batches results = Ok out
     <-> exists formatted,
           Train.format_result (List.concat (map fst batches))
             (List.concat (map snd batches)) itoa = Ok formatted
           /\ out = results ++ formatted).
Proof.
  intros SO itoa batches. induction batches as [| [q s] rest IH];
    intros results out Hal; simpl.
  - split.
    + intros H. inversion H; subst. exists []. rewrite app_nil_r.
      split; reflexivity.
    + intros (formatted & Hf & ->). inversion Hf; subst.
      rewrite app_nil_r. reflexivity.
  - inversion Hal as [| b bs Hb Hrest]; subst. simpl in Hb. split.
    + intros H. inv_bind H. rename x into r1.
      apply IH in H; [| exact Hrest]. destruct H as (r2 & Hr2 & ->).
      exists (r1 ++ r2). split; [| rewrite app_assoc; reflexivity].
      apply format_result_app; [exact Hb |]. exists r1, r2. auto.
    + intros (formatted & Hf & ->).
      apply format_result_app in Hf; [| exact Hb].
      destruct Hf as (r1 & r2 & Hr1 & Hr2 & ->). rewrite Hr1. simpl.
      apply IH; [exact Hrest |]. exists r2. split; [exact Hr2 |].
      rewrite app_assoc. reflexivity.
Qed.

Lemma validate_results_batchwise_witness :
  @Train.validate_results QScore Scenario.itoa
    [([11%Z], [[1 # 10; 7 # 10; 2 # 10]%Q]);
     ([12%Z], [[6 # 10; 3 # 10; 1 # 10]%Q])] []
  = Ok [mk_answer 11 "no"; mk_answer 12 "yes"]
  /\ exists formatted,
       @Train.format_result QScore
         (List.concat (map fst [([11%Z], [[1 # 10; 7 # 10; 2 # 10]%Q]);
                                ([12%Z], [[6 # 10; 3 # 10; 1 # 10]%Q])]))
         (List.concat (map snd [([11%Z], [[1 # 10; 7 # 10; 2 # 10]%Q]);
                                ([12%Z], [[6 # 10; 3 # 10; 1 # 10]%Q])]))
         Scenario.itoa = Ok formatted
       /\ [mk_answer 11 "no"; mk_answer 12 "yes"] = [] ++ formatted.
Proof.
  split; [reflexivity |].
  apply (proj1 (validate_results_batchwise QScore Scenario.itoa
                  [([11%Z], [[1 # 10; 7 # 10; 2 # 10]%Q]);
                   ([12%Z], [[6 # 10; 3 # 10; 1 # 10]%Q])] []
                  [mk_answer 11 "no"; mk_answer 12 "yes"]
                  ltac:(repeat constructor))).
  reflexivity.
Defined.

(** ** Checkpoint names of the training script *)

Lemma digits_value_zeros (k : nat) (b : bool) (cs : list ascii) :
  digits_value 0 b (repeat "0"%char k ++ cs)
  = digits_value 0 (b || (0 <? k)%nat) cs.
Proof.
  revert b. induction k as [| k IH]; intros b; simpl.
  - rewrite orb_false_r. reflexivity.
  - rewrite IH. simpl. rewrite orb_true_r. reflexivity.
Qed.

Lemma digits_value_py_str_int (z : Z) (b : bool) :
  (0 <= z)%Z -> digits_value 0 b (chars (py_str_int z)) = Some z.
Proof.
  intros Hz. destruct z as [| p | p]; [destruct b; reflexivity | | lia].
  pose proof (digits_value_of_uint (Pos.to_uint p)
                (Unsigned.to_uint_nonnil p) b) as Hv.
  rewrite Unsigned.of_to in Hv. rewrite <- py_str_int_pos in Hv. exact Hv.
Qed.

Lemma zfill_digits (width : nat) (z : Z) :
  (0 <= z)%Z ->
  Forall (fun c => is_digit c = true) (chars (Train.zfill width (py_str_int z))).
Proof.
  intros Hz. unfold Train.zfill. rewrite chars_append, chars_str.
  apply Forall_app. split; [| apply py_str_int_digits; exact Hz].
  apply Forall_forall. intros c Hc. apply repeat_spec in Hc. subst c.
  reflexivity.
Qed.

Lemma digits_value_zfill (width : nat) (z : Z) (b : bool) :
  (0 <= z)%Z ->
  digits_value 0 b (chars (Train.zfill width (py_str_int z))) = Some z.
Proof.
  intros Hz. unfold Train.zfill. rewrite chars_append, chars_str.
  rewrite digits_value_zeros. apply digits_value_py_str_int. exact Hz.
Qed.

Lemma zfill_not_empty (width : nat) (z : Z) :
  (0 <= z)%Z -> chars (Train.zfill width (py_str_int z)) <> [].
Proof.
  intros Hz E.
  pose proof (digits_value_zfill width z false Hz) as H.
  rewrite E in H. discriminate.
Qed.

Lemma parse_int_format_03 (n : Z) : parse_int (Train.format_03 n) = Some n.
Proof.
  unfold Train.format_03. destruct (n <? 0)%Z eqn:E.
  - apply Z.ltb_lt in E. assert (Hz : (0 <= - n)%Z) by lia.
    unfold parse_int. rewrite chars_append.
    change (chars "-") with ["-"%char]. cbn [app].
    rewrite strip_id.
    2:{ constructor; [reflexivity |].
        eapply Forall_impl; [| apply zfill_digits; exact Hz].
        intros c. apply is_digit_not_space. }
    cbn [Ascii.eqb]. simpl Ascii.eqb.
    rewrite digits_value_zfill by exact Hz. simpl. f_equal. lia.
  - apply Z.ltb_ge in E. unfold parse_int.
    pose proof (zfill_digits 3 n E) as Hd.
    pose proof (digits_value_zfill 3 n false E) as Hv.
    rewrite strip_id.
    2:{ eapply Forall_impl; [| exact Hd]. intros c. apply is_digit_not_space. }
    destruct (chars (Train.zfill 3 (py_str_int n))) as [| c ds] eqn:Hc;
      [discriminate |].
    inversion Hd; subst.
    assert (Hplus : Ascii.eqb c "+"%char = false).
    { destruct (Ascii.eqb c "+"%char) eqn:Ec; [| reflexivity].
      apply Ascii.eqb_eq in Ec. subst c. discriminate. }
    assert (Hminus : Ascii.eqb c "-"%char = false).
    { destruct (Ascii.eqb c "-"%char) eqn:Ec; [| reflexivity].
      apply Ascii.eqb_eq in Ec. subst c. discriminate. }
    rewrite Hplus, Hminus. exact Hv.
Qed.

Lemma cp_fname_inj (a b : Z) : Train.cp_fname a = Train.cp_fname b -> a = b.
Proof.
  unfold Train.cp_fname. intros H. apply append_cancel_l in H.
  assert (Hf : Train.format_03 a = Train.format_03 b).
  { rewrite <- (str_chars (Train.format_03 a)).
    rewrite <- (str_chars (Train.format_03 b)). f_equal.
    apply (f_equal chars) in H. rewrite !chars_append in H.
    apply app_inv_tail in H. exact H. }
  pose proof (parse_int_format_03 a) as Ha. rewrite Hf in Ha.
  rewrite parse_int_format_03 in Ha. congruence.
Qed.

(** X21: the epoch number can be read back from the name of a checkpoint
    that training writes: [int] of the zero-padded field of
    ['checkpoint-{:03}.pth.tar'] is the epoch, for every integer, so the
    checkpoints of two different epochs never share a file name. *)
Theorem checkpoint_name_identifies_epoch :
  forall epoch : Z,
    int_of_str (Train.format_03 epoch) = Ok epoch
    /\ forall (other : Z) (d : string),
         os_path_join d (Train.cp_fname epoch)
         = os_path_join d (Train.cp_fname other) ->
         epoch = other.
Proof.
  intros epoch. split.
  - unfold int_of_str. rewrite parse_int_format_03. reflexivity.
  - intros other d H. apply os_path_join_inj in H; [| reflexivity ..].
    apply cp_fname_inj. exact H.
Qed.

Lemma checkpoint_name_identifies_epoch_witness :
  Train.format_03 (-5) = "-05"
  /\ int_of_str (Train.format_03 (-5)) = Ok (-5)%Z
  /\ (os_path_join "log" (Train.cp_fname (-5))
      = os_path_join "log" (Train.cp_fname (0 - 5)) -> (-5 = 0 - 5)%Z).
Proof.
  split; [reflexivity |].
  destruct (checkpoint_name_identifies_epoch (-5)) as [H1 H2].
  split; [exact H1 |]. intros H. apply (H2 (0 - 5)%Z "log"). exact H.
Defined.

Section Checkpoints.

Context {NO : Train.NumOps}.

Lemma epoch_step_keeps (env : Train.train_env) (args : Train.train_args)
  (s s' : Train.loop_state) (epoch e : Z) :
  schedule_defaults args ->
  Train.epoch_step env args s epoch = (s', Train.Done tt) ->
  (e = epoch
   \/ exists acc,
        Train.assoc_get (Train.saved s)
          (os_path_join (Train.LOG_DIR env) (Train.cp_fname e))
        = Some (Train.mk_checkpoint (e + 1) e acc)) ->
  exists acc,
    Train.assoc_get (Train.saved s')
      (os_path_join (Train.LOG_DIR env) (Train.cp_fname e))
    = Some (Train.mk_checkpoint (e + 1) e acc).
Proof.
  intros Hdef Hstep Hcase.
  pose proof (epoch_step_done env args s s' epoch Hstep) as Hruns.
  destruct (epoch_step_defaults env args s epoch Hdef Hruns) as [groups Heq].
  cbv zeta in Heq. rewrite Heq in Hstep. clear Heq.
  set (best := if Train.n_lt (Train.best_acc s) (Train.acc_of env epoch)
               then Train.acc_of env epoch else Train.best_acc s) in *.
  assert (H1 : exists acc,
             Train.assoc_get
               (Train.assoc_set (Train.saved s)
                  (os_path_join (Train.LOG_DIR env) (Train.cp_fname epoch))
                  (Train.mk_checkpoint (epoch + 1) epoch best))
               (os_path_join (Train.LOG_DIR env) (Train.cp_fname e))
             = Some (Train.mk_checkpoint (e + 1) e acc)).
  { destruct (Z.eq_dec e epoch) as [-> | Hne].
    - exists best. apply assoc_get_set_same.
    - destruct Hcase as [-> | [acc Hacc]]; [congruence |].
      exists acc. rewrite assoc_get_set_other; [exact Hacc |].
      intros E. apply os_path_join_inj in E; [| reflexivity ..].
      apply cp_fname_inj in E. congruence. }
  destruct H1 as [acc Hacc].
  assert (H2 : Train.assoc_get
                 (Train.assoc_set
                    (Train.assoc_set (Train.saved s)
                       (os_path_join (Train.LOG_DIR env) (Train.cp_fname epoch))
                       (Train.mk_checkpoint (epoch + 1) epoch best))
                    (os_path_join (Train.LOG_DIR env) Train.best_fname)
                    (Train.mk_checkpoint (epoch + 1) epoch best))
                 (os_path_join (Train.LOG_DIR env) (Train.cp_fname e))
               = Some (Train.mk_checkpoint (e + 1) e acc)).
  { rewrite assoc_get_set_other; [exact Hacc |].
    intros E. symmetry in E. revert E. apply cp_path_not_best_path. }
  exists acc.
  destruct (if Train.n_lt (Train.best_acc s) (Train.acc_of env epoch)
            then Some true else Train.is_best s) as [[|] |];
    inversion Hstep; subst; simpl; assumption.
Qed.

Lemma epoch_loop_keeps (env : Train.train_env) (args : Train.train_args)
  (epoch_list : list Z) (s s' : Train.loop_state) (e : Z) :
  schedule_defaults args ->
  Train.epoch_loop env args s epoch_list = (s', Train.Done tt) ->
  (In e epoch_list
   \/ exists acc,
        Train.assoc_get (Train.saved s)
          (os_path_join (Train.LOG_DIR env) (Train.cp_fname e))
        = Some (Train.mk_checkpoint (e + 1) e acc)) ->
  exists acc,
    Train.assoc_get (Train.saved s')
      (os_path_join (Train.LOG_DIR env) (Train.cp_fname e))
    = Some (Train.mk_checkpoint (e + 1) e acc).
Proof.
  intros Hdef. revert s. induction epoch_list as [| epoch rest IH];
    intros s Hloop Hcase; simpl in Hloop.
  - inversion Hloop; subst. destruct Hcase as [[] | H]. exact H.
  - destruct (Train.epoch_step env args s epoch) as [s1 r1] eqn:Hstep.
    destruct r1 as [[] | err]; [| discriminate].
    apply (IH s1 Hloop).
    destruct (Z.eq_dec e epoch) as [-> | Hne].
    + right. eapply epoch_step_keeps; [exact Hdef | exact Hstep |].
      left. reflexivity.
    + destruct Hcase as [[Heq | Hin] | Hold]; [congruence | left; exact Hin |].
      right. eapply epoch_step_keeps; [exact Hdef | exact Hstep |].
      right. exact Hold.
Qed.

End Checkpoints.

(** X22: when the training loop completes, every epoch of the run has its
    own checkpoint file in the log directory, holding the number of the
    next epoch and the weights of that epoch: no later checkpoint and no
    copy to [model-best.pth.tar] has replaced it. *)
Theorem every_epoch_keeps_its_checkpoint :
  forall (NO : Train.NumOps) (env : Train.train_env) (args : Train.train_args)
         (groups : list Train.param_group) (s : Train.loop_state) (e : Z),
    schedule_defaults args ->
    Train.main_epochs env args groups = (s, Train.Done tt) ->
    (Train.start_epoch args <= e < Train.epochs args)%Z ->
    exists acc,
      Train.assoc_get (Train.saved s)
        (os_path_join (Train.LOG_DIR env) (Train.cp_fname e))
      = Some (Train.mk_checkpoint (e + 1) e acc).
Proof.
  intros NO env args groups s e Hdef Hrun He.
  eapply epoch_loop_keeps; [exact Hdef | exact Hrun |].
  left. unfold Train.range. apply in_map_iff.
  exists (Z.to_nat (e - Train.start_epoch args)). split; [lia |].
  apply in_seq. lia.
Qed.

Lemma every_epoch_keeps_its_checkpoint_witness :
  exists s acc,
    @Train.main_epochs Train.QNum TrainScenario.env TrainScenario.args []
      = (s, Train.Done tt)
    /\ Train.assoc_get (Train.saved s) "log/checkpoint-001.pth.tar"
       = Some (@Train.mk_checkpoint Train.QNum (1 + 1) 1 acc).
Proof.
  eexists.
  destruct (every_epoch_keeps_its_checkpoint Train.QNum TrainScenario.env
              TrainScenario.args [] _ 1%Z train_scenario_defaults
              ltac:(vm_compute; reflexivity) ltac:(simpl; lia))
    as [acc Hacc].
  exists acc. split; [reflexivity | exact Hacc].
Defined.

(** ** Word embeddings *)

Section MergeEmbeddings.

Variable F : Type.

Lemma rows_from (m pre : Embeddings.matrix F) :
  map (fun i => List.concat (map (fun a : Embeddings.matrix F => nth i a [])
                               [pre ++ m]))
    (seq (List.length pre) (List.length m)) = m.
Proof.
  revert pre. induction m as [| r m IH]; intros pre; [reflexivity |].
  cbn [List.length seq map List.concat]. rewrite nth_middle, app_nil_r.
  f_equal. specialize (IH (pre ++ [r])).
  rewrite length_app, Nat.add_1_r, <- app_assoc in IH. exact IH.
Qed.

Lemma rows_of_one (m : Embeddings.matrix F) :
  map (fun i => List.concat (map (fun a : Embeddings.matrix F => nth i a [])
                               [m]))
    (seq 0 (List.length m)) = m.
Proof. exact (rows_from m []). Qed.

Lemma hstack_one (m : Embeddings.matrix F) : Embeddings.hstack [m] = Ok m.
Proof. unfold Embeddings.hstack. simpl forallb. cbv iota. f_equal. apply rows_of_one. Qed.

Lemma hstack_prefix_error (done more : list (Embeddings.matrix F)) (e : exn) :
  done <> [] -> Embeddings.hstack done = Raise e ->
  Embeddings.hstack (done ++ more) = Raise e.
Proof.
  destruct done as [| first others]; [congruence |]. intros _.
  unfold Embeddings.hstack, Embeddings.matrix in *. cbn [app].
  rewrite forallb_app. intros H.
  destruct (forallb (fun m : list (list F) =>
                       List.length m =? List.length first) others);
    [discriminate H |].
  simpl. exact H.
Qed.

Variable load_embeddings : string -> result (list string * Embeddings.matrix F).

Lemma merge_loop_spec (names : list string) :
  forall (loaded : list (list string * Embeddings.matrix F)) (vecs_list : list (Embeddings.matrix F))
         (vecs : Embeddings.matrix F),
    mapM load_embeddings names = Ok loaded ->
    vecs_list <> [] ->
    Embeddings.hstack vecs_list = Ok vecs ->
    Embeddings.merge_loop load_embeddings names vecs_list vecs
    = Embeddings.hstack (vecs_list ++ map snd loaded).
Proof.
  induction names as [| name names IH]; intros loaded vecs_list vecs Hl Hne Hs;
    simpl in Hl.
  - inversion Hl; subst. simpl. rewrite app_nil_r. symmetry. exact Hs.
  - inv_bind Hl. inv_bind Hl. inversion Hl; subst. simpl.
    rewrite Hx. simpl.
    replace (vecs_list ++ snd x :: map snd x0)
      with ((vecs_list ++ [snd x]) ++ map snd x0)
      by (rewrite <- app_assoc; reflexivity).
    destruct (Embeddings.hstack (vecs_list ++ [snd x])) as [vecs' | e] eqn:Hh;
      simpl.
    + apply IH; [exact Hx0 | | exact Hh].
      intros E. apply app_eq_nil in E. destruct E. discriminate.
    + symmetry. apply hstack_prefix_error; [| exact Hh].
      intros E. apply app_eq_nil in E. destruct E. discriminate.
Qed.

End MergeEmbeddings.

(** X23: [merge_embeddings] on the names [n0+n1+...], when every file
    loads, gives what one [np.hstack] of all the matrices in the order
    named gives, zipped with the vocabulary of the first file: it raises
    [ValueError] when a later file has another number of rows than the
    first, and the vocabularies of the later files are never looked
    at. *)
Theorem merge_embeddings_stacks_in_order :
  forall (F : Type)
         (load_embeddings : string -> result (list string * Embeddings.matrix F))
         (embedding_names : string)
         (vocab : list string) (vecs : Embeddings.matrix F)
         (others : list (list string * Embeddings.matrix F)),
    mapM load_embeddings (split embedding_names "+") = Ok ((vocab, vecs) :: others) ->
    Embeddings.merge_embeddings load_embeddings embedding_names
    = (stacked <- Embeddings.hstack (vecs :: map snd others) ;;
       Ok (Embeddings.dict_zip vocab stacked)).
Proof.
  intros F load names vocab vecs others H.
  unfold Embeddings.merge_embeddings.
  destruct (split names "+") as [| name rest]; [discriminate |].
  simpl in H. inv_bind H. inv_bind H. inversion H; subst. rewrite Hx.
  cbn [bind].
  destruct rest as [| name1 rest].
  - inversion Hx0; subst. cbn [map snd]. rewrite hstack_one. reflexivity.
  - rewrite (merge_loop_spec F load (name1 :: rest) others [vecs] vecs Hx0);
      [reflexivity | discriminate | apply hstack_one].
Qed.

Lemma merge_embeddings_stacks_in_order_witness :
  Embeddings.merge_embeddings Embeddings.glove "glove.50d+glove.100d"
  = Ok [("cat", [1; 2; 5; 6; 7]%Z); ("dog", [3; 4; 8; 9; 10]%Z)].
Proof.
  rewrite (merge_embeddings_stacks_in_order Z Embeddings.glove
             "glove.50d+glove.100d" ["cat"; "dog"] [[1; 2]; [3; 4]]%Z
             [(["the"; "of"], [[5; 6; 7]; [8; 9; 10]]%Z)]).
  - reflexivity.
  - reflexivity.
Defined.

(** The second file, named alone, gives the vocabulary that the merge
    ignores. *)
Example second_file_alone :
  Embeddings.merge_embeddings Embeddings.glove "glove.100d"
  = Ok [("the", [5; 6; 7]%Z); ("of", [8; 9; 10]%Z)].
Proof. reflexivity. Qed.

(** ** Plotting *)

Section Plotting.

Variables Y Win : Type.
Variable viz_line : list (Plot.call Y Win) -> Z -> Y -> list string -> option Win.

Lemma appends_cons (p : Plot.Ploter Y Win) (pt : Z * Y * string)
  (points : list (Z * Y * string)) :
  Plot.appends viz_line p (pt :: points)
  = Plot.appends viz_line
      (Plot.append viz_line p (fst (fst pt)) (snd (fst pt)) (snd pt)) points.
Proof. reflexivity. Qed.

Lemma appends_with_window (points : list (Z * Y * string)) :
  forall (p : Plot.Ploter Y Win) (w : Win),
    Plot.win p = Some w ->
    Plot.appends viz_line p points
    = Plot.mk_ploter (Some w)
        (Plot.viz p
         ++ map (fun pt => Plot.VizUpdateTrace (fst (fst pt)) (snd (fst pt)) w
                             (snd pt)) points).
Proof.
  induction points as [| pt points IH]; intros p w Hw.
  - unfold Plot.appends. cbn [fold_left map]. rewrite app_nil_r.
    destruct p; simpl in *. congruence.
  - rewrite appends_cons, (IH _ w).
    + unfold Plot.append. rewrite Hw. cbn [Plot.viz map].
      rewrite <- app_assoc. reflexivity.
    + unfold Plot.append. rewrite Hw. reflexivity.
Qed.

End Plotting.

(** X24: a [Ploter] opens one window only.  When the first [append] is
    given a window by Visdom, that call is the only [viz.line], its
    legend holds the first series name alone, and every later [append],
    whatever its series, is an [updateTrace] on that window. *)
Theorem ploter_opens_one_window :
  forall (Y Win : Type)
         (viz_line : list (Plot.call Y Win) -> Z -> Y -> list string -> option Win)
         (x : Z) (y : Y) (name : string) (w : Win)
         (points : list (Z * Y * string)),
    viz_line [] x y [name] = Some w ->
    Plot.appends viz_line (Plot.init Y Win) ((x, y, name) :: points)
    = Plot.mk_ploter (Some w)
        (Plot.VizLine x y [name]
         :: map (fun pt => Plot.VizUpdateTrace (fst (fst pt)) (snd (fst pt)) w
                             (snd pt)) points).
Proof.
  intros Y Win viz_line x y name w points Hw.
  rewrite appends_cons.
  rewrite (appends_with_window Y Win viz_line points _ w).
  - unfold Plot.append, Plot.init. reflexivity.
  - unfold Plot.append, Plot.init. simpl. exact Hw.
Qed.

Lemma ploter_opens_one_window_witness :
  Plot.appends (fun _ _ _ _ => Some 7%nat) (Plot.init Z nat)
    (Plot.epoch_points 0 3%Z 50%Z 1%Z ++ Plot.epoch_points 1 2%Z 60%Z 1%Z)
  = Plot.mk_ploter (Some 7%nat)
      [Plot.VizLine 0 3%Z ["train-loss"];
       Plot.VizUpdateTrace 0 50%Z 7%nat "val-acc";
       Plot.VizUpdateTrace 0 1%Z 7%nat "lr";
       Plot.VizUpdateTrace 1 2%Z 7%nat "train-loss";
       Plot.VizUpdateTrace 1 60%Z 7%nat "val-acc";
       Plot.VizUpdateTrace 1 1%Z 7%nat "lr"].
Proof.
  apply (ploter_opens_one_window Z nat (fun _ _ _ _ => Some 7%nat) 0 3%Z
           "train-loss" 7%nat
           (tl (Plot.epoch_points 0 3%Z 50%Z 1%Z ++ Plot.epoch_points 1 2%Z 60%Z 1%Z))).
  reflexivity.
Defined.
